(** * Verification of scantailor-universal: zone interaction, colour pickup,
      margins, alignment persistence and generic raster operations.

    The development is a shallow embedding of the C++ sources.  Unsigned
    32-bit words are integers in [Z] with the bit operations of [Z]; C++
    [int] values are integers in [Z]; [double] values are rationals in
    [Q], and what Qt and the geometry code compute on them is a parameter
    of the functions that call it; a pointer into a buffer is the view
    of the memory from that address; objects mutated in place are
    records threaded through the functions that mutate them; a loop
    without a bound in the source takes fuel.  Part I holds the
    embedding, one module per translation unit; Part II the notions that
    the statements use; Part III the properties and their proofs. *)

From Stdlib Require Import ZArith List Bool String Ascii Lia QArith Lqa Btauto.
From Stdlib Require Import Sorting.Permutation Sorting.Sorted FinFun.
Import ListNotations.
Open Scope Z_scope.

(* ================================================================== *)
(** * Part I.  The embedding                                            *)
(* ================================================================== *)

(** [for (int i = 0; i < n; ++i)] visits these values of [i]. *)
Definition range (n : Z) : list Z := map Z.of_nat (seq 0 (Z.to_nat n)).

(** ** PropertySet, FillColorProperty *)

Module Zones.

(** [QColor(QRgb)]. *)
Inductive QColor := QColor_rgb (rgb : Z).

(** Modelled from the spec: PropertySet.h is missing.  A property set maps
    a property kind to its value; [locateOrCreate<FillColorProperty>()]
    fetches the fill colour property if it is present and else creates and
    inserts it; the other properties stay as they are. *)
Record PropertySet := {
  fillColorProperty : option QColor;
  otherProperties : list (string * Z)
}.

Definition locateOrCreate_setColor (ps : PropertySet) (color : QColor) : PropertySet :=
  {| fillColorProperty := Some color; otherProperties := otherProperties ps |}.

End Zones.

(** ** ColorPickupInteraction.cpp *)

Module ColorPickupInteraction.
Import Zones.

(** [m_sBitMixingLUT[3][256]], copied entry by entry. *)

Definition m_sBitMixingLUT_0 : list Z :=
  [ 0x00000000; 0x00000004; 0x00000020; 0x00000024; 0x00000100; 0x00000104; 0x00000120; 0x00000124
  ; 0x00000800; 0x00000804; 0x00000820; 0x00000824; 0x00000900; 0x00000904; 0x00000920; 0x00000924
  ; 0x00004000; 0x00004004; 0x00004020; 0x00004024; 0x00004100; 0x00004104; 0x00004120; 0x00004124
  ; 0x00004800; 0x00004804; 0x00004820; 0x00004824; 0x00004900; 0x00004904; 0x00004920; 0x00004924
  ; 0x00020000; 0x00020004; 0x00020020; 0x00020024; 0x00020100; 0x00020104; 0x00020120; 0x00020124
  ; 0x00020800; 0x00020804; 0x00020820; 0x00020824; 0x00020900; 0x00020904; 0x00020920; 0x00020924
  ; 0x00024000; 0x00024004; 0x00024020; 0x00024024; 0x00024100; 0x00024104; 0x00024120; 0x00024124
  ; 0x00024800; 0x00024804; 0x00024820; 0x00024824; 0x00024900; 0x00024904; 0x00024920; 0x00024924
  ; 0x00100000; 0x00100004; 0x00100020; 0x00100024; 0x00100100; 0x00100104; 0x00100120; 0x00100124
  ; 0x00100800; 0x00100804; 0x00100820; 0x00100824; 0x00100900; 0x00100904; 0x00100920; 0x00100924
  ; 0x00104000; 0x00104004; 0x00104020; 0x00104024; 0x00104100; 0x00104104; 0x00104120; 0x00104124
  ; 0x00104800; 0x00104804; 0x00104820; 0x00104824; 0x00104900; 0x00104904; 0x00104920; 0x00104924
  ; 0x00120000; 0x00120004; 0x00120020; 0x00120024; 0x00120100; 0x00120104; 0x00120120; 0x00120124
  ; 0x00120800; 0x00120804; 0x00120820; 0x00120824; 0x00120900; 0x00120904; 0x00120920; 0x00120924
  ; 0x00124000; 0x00124004; 0x00124020; 0x00124024; 0x00124100; 0x00124104; 0x00124120; 0x00124124
  ; 0x00124800; 0x00124804; 0x00124820; 0x00124824; 0x00124900; 0x00124904; 0x00124920; 0x00124924
  ; 0x00800000; 0x00800004; 0x00800020; 0x00800024; 0x00800100; 0x00800104; 0x00800120; 0x00800124
  ; 0x00800800; 0x00800804; 0x00800820; 0x00800824; 0x00800900; 0x00800904; 0x00800920; 0x00800924
  ; 0x00804000; 0x00804004; 0x00804020; 0x00804024; 0x00804100; 0x00804104; 0x00804120; 0x00804124
  ; 0x00804800; 0x00804804; 0x00804820; 0x00804824; 0x00804900; 0x00804904; 0x00804920; 0x00804924
  ; 0x00820000; 0x00820004; 0x00820020; 0x00820024; 0x00820100; 0x00820104; 0x00820120; 0x00820124
  ; 0x00820800; 0x00820804; 0x00820820; 0x00820824; 0x00820900; 0x00820904; 0x00820920; 0x00820924
  ; 0x00824000; 0x00824004; 0x00824020; 0x00824024; 0x00824100; 0x00824104; 0x00824120; 0x00824124
  ; 0x00824800; 0x00824804; 0x00824820; 0x00824824; 0x00824900; 0x00824904; 0x00824920; 0x00824924
  ; 0x00900000; 0x00900004; 0x00900020; 0x00900024; 0x00900100; 0x00900104; 0x00900120; 0x00900124
  ; 0x00900800; 0x00900804; 0x00900820; 0x00900824; 0x00900900; 0x00900904; 0x00900920; 0x00900924
  ; 0x00904000; 0x00904004; 0x00904020; 0x00904024; 0x00904100; 0x00904104; 0x00904120; 0x00904124
  ; 0x00904800; 0x00904804; 0x00904820; 0x00904824; 0x00904900; 0x00904904; 0x00904920; 0x00904924
  ; 0x00920000; 0x00920004; 0x00920020; 0x00920024; 0x00920100; 0x00920104; 0x00920120; 0x00920124
  ; 0x00920800; 0x00920804; 0x00920820; 0x00920824; 0x00920900; 0x00920904; 0x00920920; 0x00920924
  ; 0x00924000; 0x00924004; 0x00924020; 0x00924024; 0x00924100; 0x00924104; 0x00924120; 0x00924124
  ; 0x00924800; 0x00924804; 0x00924820; 0x00924824; 0x00924900; 0x00924904; 0x00924920; 0x00924924 ]%Z.

Definition m_sBitMixingLUT_1 : list Z :=
  [ 0x00000000; 0x00000002; 0x00000010; 0x00000012; 0x00000080; 0x00000082; 0x00000090; 0x00000092
  ; 0x00000400; 0x00000402; 0x00000410; 0x00000412; 0x00000480; 0x00000482; 0x00000490; 0x00000492
  ; 0x00002000; 0x00002002; 0x00002010; 0x00002012; 0x00002080; 0x00002082; 0x00002090; 0x00002092
  ; 0x00002400; 0x00002402; 0x00002410; 0x00002412; 0x00002480; 0x00002482; 0x00002490; 0x00002492
  ; 0x00010000; 0x00010002; 0x00010010; 0x00010012; 0x00010080; 0x00010082; 0x00010090; 0x00010092
  ; 0x00010400; 0x00010402; 0x00010410; 0x00010412; 0x00010480; 0x00010482; 0x00010490; 0x00010492
  ; 0x00012000; 0x00012002; 0x00012010; 0x00012012; 0x00012080; 0x00012082; 0x00012090; 0x00012092
  ; 0x00012400; 0x00012402; 0x00012410; 0x00012412; 0x00012480; 0x00012482; 0x00012490; 0x00012492
  ; 0x00080000; 0x00080002; 0x00080010; 0x00080012; 0x00080080; 0x00080082; 0x00080090; 0x00080092
  ; 0x00080400; 0x00080402; 0x00080410; 0x00080412; 0x00080480; 0x00080482; 0x00080490; 0x00080492
  ; 0x00082000; 0x00082002; 0x00082010; 0x00082012; 0x00082080; 0x00082082; 0x00082090; 0x00082092
  ; 0x00082400; 0x00082402; 0x00082410; 0x00082412; 0x00082480; 0x00082482; 0x00082490; 0x00082492
  ; 0x00090000; 0x00090002; 0x00090010; 0x00090012; 0x00090080; 0x00090082; 0x00090090; 0x00090092
  ; 0x00090400; 0x00090402; 0x00090410; 0x00090412; 0x00090480; 0x00090482; 0x00090490; 0x00090492
  ; 0x00092000; 0x00092002; 0x00092010; 0x00092012; 0x00092080; 0x00092082; 0x00092090; 0x00092092
  ; 0x00092400; 0x00092402; 0x00092410; 0x00092412; 0x00092480; 0x00092482; 0x00092490; 0x00092492
  ; 0x00400000; 0x00400002; 0x00400010; 0x00400012; 0x00400080; 0x00400082; 0x00400090; 0x00400092
  ; 0x00400400; 0x00400402; 0x00400410; 0x00400412; 0x00400480; 0x00400482; 0x00400490; 0x00400492
  ; 0x00402000; 0x00402002; 0x00402010; 0x00402012; 0x00402080; 0x00402082; 0x00402090; 0x00402092
  ; 0x00402400; 0x00402402; 0x00402410; 0x00402412; 0x00402480; 0x00402482; 0x00402490; 0x00402492
  ; 0x00410000; 0x00410002; 0x00410010; 0x00410012; 0x00410080; 0x00410082; 0x00410090; 0x00410092
  ; 0x00410400; 0x00410402; 0x00410410; 0x00410412; 0x00410480; 0x00410482; 0x00410490; 0x00410492
  ; 0x00412000; 0x00412002; 0x00412010; 0x00412012; 0x00412080; 0x00412082; 0x00412090; 0x00412092
  ; 0x00412400; 0x00412402; 0x00412410; 0x00412412; 0x00412480; 0x00412482; 0x00412490; 0x00412492
  ; 0x00480000; 0x00480002; 0x00480010; 0x00480012; 0x00480080; 0x00480082; 0x00480090; 0x00480092
  ; 0x00480400; 0x00480402; 0x00480410; 0x00480412; 0x00480480; 0x00480482; 0x00480490; 0x00480492
  ; 0x00482000; 0x00482002; 0x00482010; 0x00482012; 0x00482080; 0x00482082; 0x00482090; 0x00482092
  ; 0x00482400; 0x00482402; 0x00482410; 0x00482412; 0x00482480; 0x00482482; 0x00482490; 0x00482492
  ; 0x00490000; 0x00490002; 0x00490010; 0x00490012; 0x00490080; 0x00490082; 0x00490090; 0x00490092
  ; 0x00490400; 0x00490402; 0x00490410; 0x00490412; 0x00490480; 0x00490482; 0x00490490; 0x00490492
  ; 0x00492000; 0x00492002; 0x00492010; 0x00492012; 0x00492080; 0x00492082; 0x00492090; 0x00492092
  ; 0x00492400; 0x00492402; 0x00492410; 0x00492412; 0x00492480; 0x00492482; 0x00492490; 0x00492492 ]%Z.

Definition m_sBitMixingLUT_2 : list Z :=
  [ 0x00000000; 0x00000001; 0x00000008; 0x00000009; 0x00000040; 0x00000041; 0x00000048; 0x00000049
  ; 0x00000200; 0x00000201; 0x00000208; 0x00000209; 0x00000240; 0x00000241; 0x00000248; 0x00000249
  ; 0x00001000; 0x00001001; 0x00001008; 0x00001009; 0x00001040; 0x00001041; 0x00001048; 0x00001049
  ; 0x00001200; 0x00001201; 0x00001208; 0x00001209; 0x00001240; 0x00001241; 0x00001248; 0x00001249
  ; 0x00008000; 0x00008001; 0x00008008; 0x00008009; 0x00008040; 0x00008041; 0x00008048; 0x00008049
  ; 0x00008200; 0x00008201; 0x00008208; 0x00008209; 0x00008240; 0x00008241; 0x00008248; 0x00008249
  ; 0x00009000; 0x00009001; 0x00009008; 0x00009009; 0x00009040; 0x00009041; 0x00009048; 0x00009049
  ; 0x00009200; 0x00009201; 0x00009208; 0x00009209; 0x00009240; 0x00009241; 0x00009248; 0x00009249
  ; 0x00040000; 0x00040001; 0x00040008; 0x00040009; 0x00040040; 0x00040041; 0x00040048; 0x00040049
  ; 0x00040200; 0x00040201; 0x00040208; 0x00040209; 0x00040240; 0x00040241; 0x00040248; 0x00040249
  ; 0x00041000; 0x00041001; 0x00041008; 0x00041009; 0x00041040; 0x00041041; 0x00041048; 0x00041049
  ; 0x00041200; 0x00041201; 0x00041208; 0x00041209; 0x00041240; 0x00041241; 0x00041248; 0x00041249
  ; 0x00048000; 0x00048001; 0x00048008; 0x00048009; 0x00048040; 0x00048041; 0x00048048; 0x00048049
  ; 0x00048200; 0x00048201; 0x00048208; 0x00048209; 0x00048240; 0x00048241; 0x00048248; 0x00048249
  ; 0x00049000; 0x00049001; 0x00049008; 0x00049009; 0x00049040; 0x00049041; 0x00049048; 0x00049049
  ; 0x00049200; 0x00049201; 0x00049208; 0x00049209; 0x00049240; 0x00049241; 0x00049248; 0x00049249
  ; 0x00200000; 0x00200001; 0x00200008; 0x00200009; 0x00200040; 0x00200041; 0x00200048; 0x00200049
  ; 0x00200200; 0x00200201; 0x00200208; 0x00200209; 0x00200240; 0x00200241; 0x00200248; 0x00200249
  ; 0x00201000; 0x00201001; 0x00201008; 0x00201009; 0x00201040; 0x00201041; 0x00201048; 0x00201049
  ; 0x00201200; 0x00201201; 0x00201208; 0x00201209; 0x00201240; 0x00201241; 0x00201248; 0x00201249
  ; 0x00208000; 0x00208001; 0x00208008; 0x00208009; 0x00208040; 0x00208041; 0x00208048; 0x00208049
  ; 0x00208200; 0x00208201; 0x00208208; 0x00208209; 0x00208240; 0x00208241; 0x00208248; 0x00208249
  ; 0x00209000; 0x00209001; 0x00209008; 0x00209009; 0x00209040; 0x00209041; 0x00209048; 0x00209049
  ; 0x00209200; 0x00209201; 0x00209208; 0x00209209; 0x00209240; 0x00209241; 0x00209248; 0x00209249
  ; 0x00240000; 0x00240001; 0x00240008; 0x00240009; 0x00240040; 0x00240041; 0x00240048; 0x00240049
  ; 0x00240200; 0x00240201; 0x00240208; 0x00240209; 0x00240240; 0x00240241; 0x00240248; 0x00240249
  ; 0x00241000; 0x00241001; 0x00241008; 0x00241009; 0x00241040; 0x00241041; 0x00241048; 0x00241049
  ; 0x00241200; 0x00241201; 0x00241208; 0x00241209; 0x00241240; 0x00241241; 0x00241248; 0x00241249
  ; 0x00248000; 0x00248001; 0x00248008; 0x00248009; 0x00248040; 0x00248041; 0x00248048; 0x00248049
  ; 0x00248200; 0x00248201; 0x00248208; 0x00248209; 0x00248240; 0x00248241; 0x00248248; 0x00248249
  ; 0x00249000; 0x00249001; 0x00249008; 0x00249009; 0x00249040; 0x00249041; 0x00249048; 0x00249049
  ; 0x00249200; 0x00249201; 0x00249208; 0x00249209; 0x00249240; 0x00249241; 0x00249248; 0x00249249 ]%Z.

(** [m_sBitUnmixingLUT[3][256]], copied entry by entry. *)

Definition m_sBitUnmixingLUT_0 : list Z :=
  [ 0x00000000; 0x00002000; 0x00200000; 0x00202000; 0x00000040; 0x00002040; 0x00200040; 0x00202040
  ; 0x00004000; 0x00006000; 0x00204000; 0x00206000; 0x00004040; 0x00006040; 0x00204040; 0x00206040
  ; 0x00400000; 0x00402000; 0x00600000; 0x00602000; 0x00400040; 0x00402040; 0x00600040; 0x00602040
  ; 0x00404000; 0x00406000; 0x00604000; 0x00606000; 0x00404040; 0x00406040; 0x00604040; 0x00606040
  ; 0x00000080; 0x00002080; 0x00200080; 0x00202080; 0x000000c0; 0x000020c0; 0x002000c0; 0x002020c0
  ; 0x00004080; 0x00006080; 0x00204080; 0x00206080; 0x000040c0; 0x000060c0; 0x002040c0; 0x002060c0
  ; 0x00400080; 0x00402080; 0x00600080; 0x00602080; 0x004000c0; 0x004020c0; 0x006000c0; 0x006020c0
  ; 0x00404080; 0x00406080; 0x00604080; 0x00606080; 0x004040c0; 0x004060c0; 0x006040c0; 0x006060c0
  ; 0x00008000; 0x0000a000; 0x00208000; 0x0020a000; 0x00008040; 0x0000a040; 0x00208040; 0x0020a040
  ; 0x0000c000; 0x0000e000; 0x0020c000; 0x0020e000; 0x0000c040; 0x0000e040; 0x0020c040; 0x0020e040
  ; 0x00408000; 0x0040a000; 0x00608000; 0x0060a000; 0x00408040; 0x0040a040; 0x00608040; 0x0060a040
  ; 0x0040c000; 0x0040e000; 0x0060c000; 0x0060e000; 0x0040c040; 0x0040e040; 0x0060c040; 0x0060e040
  ; 0x00008080; 0x0000a080; 0x00208080; 0x0020a080; 0x000080c0; 0x0000a0c0; 0x002080c0; 0x0020a0c0
  ; 0x0000c080; 0x0000e080; 0x0020c080; 0x0020e080; 0x0000c0c0; 0x0000e0c0; 0x0020c0c0; 0x0020e0c0
  ; 0x00408080; 0x0040a080; 0x00608080; 0x0060a080; 0x004080c0; 0x0040a0c0; 0x006080c0; 0x0060a0c0
  ; 0x0040c080; 0x0040e080; 0x0060c080; 0x0060e080; 0x0040c0c0; 0x0040e0c0; 0x0060c0c0; 0x0060e0c0
  ; 0x00800000; 0x00802000; 0x00a00000; 0x00a02000; 0x00800040; 0x00802040; 0x00a00040; 0x00a02040
  ; 0x00804000; 0x00806000; 0x00a04000; 0x00a06000; 0x00804040; 0x00806040; 0x00a04040; 0x00a06040
  ; 0x00c00000; 0x00c02000; 0x00e00000; 0x00e02000; 0x00c00040; 0x00c02040; 0x00e00040; 0x00e02040
  ; 0x00c04000; 0x00c06000; 0x00e04000; 0x00e06000; 0x00c04040; 0x00c06040; 0x00e04040; 0x00e06040
  ; 0x00800080; 0x00802080; 0x00a00080; 0x00a02080; 0x008000c0; 0x008020c0; 0x00a000c0; 0x00a020c0
  ; 0x00804080; 0x00806080; 0x00a04080; 0x00a06080; 0x008040c0; 0x008060c0; 0x00a040c0; 0x00a060c0
  ; 0x00c00080; 0x00c02080; 0x00e00080; 0x00e02080; 0x00c000c0; 0x00c020c0; 0x00e000c0; 0x00e020c0
  ; 0x00c04080; 0x00c06080; 0x00e04080; 0x00e06080; 0x00c040c0; 0x00c060c0; 0x00e040c0; 0x00e060c0
  ; 0x00808000; 0x0080a000; 0x00a08000; 0x00a0a000; 0x00808040; 0x0080a040; 0x00a08040; 0x00a0a040
  ; 0x0080c000; 0x0080e000; 0x00a0c000; 0x00a0e000; 0x0080c040; 0x0080e040; 0x00a0c040; 0x00a0e040
  ; 0x00c08000; 0x00c0a000; 0x00e08000; 0x00e0a000; 0x00c08040; 0x00c0a040; 0x00e08040; 0x00e0a040
  ; 0x00c0c000; 0x00c0e000; 0x00e0c000; 0x00e0e000; 0x00c0c040; 0x00c0e040; 0x00e0c040; 0x00e0e040
  ; 0x00808080; 0x0080a080; 0x00a08080; 0x00a0a080; 0x008080c0; 0x0080a0c0; 0x00a080c0; 0x00a0a0c0
  ; 0x0080c080; 0x0080e080; 0x00a0c080; 0x00a0e080; 0x0080c0c0; 0x0080e0c0; 0x00a0c0c0; 0x00a0e0c0
  ; 0x00c08080; 0x00c0a080; 0x00e08080; 0x00e0a080; 0x00c080c0; 0x00c0a0c0; 0x00e080c0; 0x00e0a0c0
  ; 0x00c0c080; 0x00c0e080; 0x00e0c080; 0x00e0e080; 0x00c0c0c0; 0x00c0e0c0; 0x00e0c0c0; 0x00e0e0c0 ]%Z.

Definition m_sBitUnmixingLUT_1 : list Z :=
  [ 0x00000000; 0x00040000; 0x00000008; 0x00040008; 0x00000800; 0x00040800; 0x00000808; 0x00040808
  ; 0x00080000; 0x000c0000; 0x00080008; 0x000c0008; 0x00080800; 0x000c0800; 0x00080808; 0x000c0808
  ; 0x00000010; 0x00040010; 0x00000018; 0x00040018; 0x00000810; 0x00040810; 0x00000818; 0x00040818
  ; 0x00080010; 0x000c0010; 0x00080018; 0x000c0018; 0x00080810; 0x000c0810; 0x00080818; 0x000c0818
  ; 0x00001000; 0x00041000; 0x00001008; 0x00041008; 0x00001800; 0x00041800; 0x00001808; 0x00041808
  ; 0x00081000; 0x000c1000; 0x00081008; 0x000c1008; 0x00081800; 0x000c1800; 0x00081808; 0x000c1808
  ; 0x00001010; 0x00041010; 0x00001018; 0x00041018; 0x00001810; 0x00041810; 0x00001818; 0x00041818
  ; 0x00081010; 0x000c1010; 0x00081018; 0x000c1018; 0x00081810; 0x000c1810; 0x00081818; 0x000c1818
  ; 0x00100000; 0x00140000; 0x00100008; 0x00140008; 0x00100800; 0x00140800; 0x00100808; 0x00140808
  ; 0x00180000; 0x001c0000; 0x00180008; 0x001c0008; 0x00180800; 0x001c0800; 0x00180808; 0x001c0808
  ; 0x00100010; 0x00140010; 0x00100018; 0x00140018; 0x00100810; 0x00140810; 0x00100818; 0x00140818
  ; 0x00180010; 0x001c0010; 0x00180018; 0x001c0018; 0x00180810; 0x001c0810; 0x00180818; 0x001c0818
  ; 0x00101000; 0x00141000; 0x00101008; 0x00141008; 0x00101800; 0x00141800; 0x00101808; 0x00141808
  ; 0x00181000; 0x001c1000; 0x00181008; 0x001c1008; 0x00181800; 0x001c1800; 0x00181808; 0x001c1808
  ; 0x00101010; 0x00141010; 0x00101018; 0x00141018; 0x00101810; 0x00141810; 0x00101818; 0x00141818
  ; 0x00181010; 0x001c1010; 0x00181018; 0x001c1018; 0x00181810; 0x001c1810; 0x00181818; 0x001c1818
  ; 0x00000020; 0x00040020; 0x00000028; 0x00040028; 0x00000820; 0x00040820; 0x00000828; 0x00040828
  ; 0x00080020; 0x000c0020; 0x00080028; 0x000c0028; 0x00080820; 0x000c0820; 0x00080828; 0x000c0828
  ; 0x00000030; 0x00040030; 0x00000038; 0x00040038; 0x00000830; 0x00040830; 0x00000838; 0x00040838
  ; 0x00080030; 0x000c0030; 0x00080038; 0x000c0038; 0x00080830; 0x000c0830; 0x00080838; 0x000c0838
  ; 0x00001020; 0x00041020; 0x00001028; 0x00041028; 0x00001820; 0x00041820; 0x00001828; 0x00041828
  ; 0x00081020; 0x000c1020; 0x00081028; 0x000c1028; 0x00081820; 0x000c1820; 0x00081828; 0x000c1828
  ; 0x00001030; 0x00041030; 0x00001038; 0x00041038; 0x00001830; 0x00041830; 0x00001838; 0x00041838
  ; 0x00081030; 0x000c1030; 0x00081038; 0x000c1038; 0x00081830; 0x000c1830; 0x00081838; 0x000c1838
  ; 0x00100020; 0x00140020; 0x00100028; 0x00140028; 0x00100820; 0x00140820; 0x00100828; 0x00140828
  ; 0x00180020; 0x001c0020; 0x00180028; 0x001c0028; 0x00180820; 0x001c0820; 0x00180828; 0x001c0828
  ; 0x00100030; 0x00140030; 0x00100038; 0x00140038; 0x00100830; 0x00140830; 0x00100838; 0x00140838
  ; 0x00180030; 0x001c0030; 0x00180038; 0x001c0038; 0x00180830; 0x001c0830; 0x00180838; 0x001c0838
  ; 0x00101020; 0x00141020; 0x00101028; 0x00141028; 0x00101820; 0x00141820; 0x00101828; 0x00141828
  ; 0x00181020; 0x001c1020; 0x00181028; 0x001c1028; 0x00181820; 0x001c1820; 0x00181828; 0x001c1828
  ; 0x00101030; 0x00141030; 0x00101038; 0x00141038; 0x00101830; 0x00141830; 0x00101838; 0x00141838
  ; 0x00181030; 0x001c1030; 0x00181038; 0x001c1038; 0x00181830; 0x001c1830; 0x00181838; 0x001c1838 ]%Z.

Definition m_sBitUnmixingLUT_2 : list Z :=
  [ 0x00000000; 0x00000001; 0x00000100; 0x00000101; 0x00010000; 0x00010001; 0x00010100; 0x00010101
  ; 0x00000002; 0x00000003; 0x00000102; 0x00000103; 0x00010002; 0x00010003; 0x00010102; 0x00010103
  ; 0x00000200; 0x00000201; 0x00000300; 0x00000301; 0x00010200; 0x00010201; 0x00010300; 0x00010301
  ; 0x00000202; 0x00000203; 0x00000302; 0x00000303; 0x00010202; 0x00010203; 0x00010302; 0x00010303
  ; 0x00020000; 0x00020001; 0x00020100; 0x00020101; 0x00030000; 0x00030001; 0x00030100; 0x00030101
  ; 0x00020002; 0x00020003; 0x00020102; 0x00020103; 0x00030002; 0x00030003; 0x00030102; 0x00030103
  ; 0x00020200; 0x00020201; 0x00020300; 0x00020301; 0x00030200; 0x00030201; 0x00030300; 0x00030301
  ; 0x00020202; 0x00020203; 0x00020302; 0x00020303; 0x00030202; 0x00030203; 0x00030302; 0x00030303
  ; 0x00000004; 0x00000005; 0x00000104; 0x00000105; 0x00010004; 0x00010005; 0x00010104; 0x00010105
  ; 0x00000006; 0x00000007; 0x00000106; 0x00000107; 0x00010006; 0x00010007; 0x00010106; 0x00010107
  ; 0x00000204; 0x00000205; 0x00000304; 0x00000305; 0x00010204; 0x00010205; 0x00010304; 0x00010305
  ; 0x00000206; 0x00000207; 0x00000306; 0x00000307; 0x00010206; 0x00010207; 0x00010306; 0x00010307
  ; 0x00020004; 0x00020005; 0x00020104; 0x00020105; 0x00030004; 0x00030005; 0x00030104; 0x00030105
  ; 0x00020006; 0x00020007; 0x00020106; 0x00020107; 0x00030006; 0x00030007; 0x00030106; 0x00030107
  ; 0x00020204; 0x00020205; 0x00020304; 0x00020305; 0x00030204; 0x00030205; 0x00030304; 0x00030305
  ; 0x00020206; 0x00020207; 0x00020306; 0x00020307; 0x00030206; 0x00030207; 0x00030306; 0x00030307
  ; 0x00000400; 0x00000401; 0x00000500; 0x00000501; 0x00010400; 0x00010401; 0x00010500; 0x00010501
  ; 0x00000402; 0x00000403; 0x00000502; 0x00000503; 0x00010402; 0x00010403; 0x00010502; 0x00010503
  ; 0x00000600; 0x00000601; 0x00000700; 0x00000701; 0x00010600; 0x00010601; 0x00010700; 0x00010701
  ; 0x00000602; 0x00000603; 0x00000702; 0x00000703; 0x00010602; 0x00010603; 0x00010702; 0x00010703
  ; 0x00020400; 0x00020401; 0x00020500; 0x00020501; 0x00030400; 0x00030401; 0x00030500; 0x00030501
  ; 0x00020402; 0x00020403; 0x00020502; 0x00020503; 0x00030402; 0x00030403; 0x00030502; 0x00030503
  ; 0x00020600; 0x00020601; 0x00020700; 0x00020701; 0x00030600; 0x00030601; 0x00030700; 0x00030701
  ; 0x00020602; 0x00020603; 0x00020702; 0x00020703; 0x00030602; 0x00030603; 0x00030702; 0x00030703
  ; 0x00000404; 0x00000405; 0x00000504; 0x00000505; 0x00010404; 0x00010405; 0x00010504; 0x00010505
  ; 0x00000406; 0x00000407; 0x00000506; 0x00000507; 0x00010406; 0x00010407; 0x00010506; 0x00010507
  ; 0x00000604; 0x00000605; 0x00000704; 0x00000705; 0x00010604; 0x00010605; 0x00010704; 0x00010705
  ; 0x00000606; 0x00000607; 0x00000706; 0x00000707; 0x00010606; 0x00010607; 0x00010706; 0x00010707
  ; 0x00020404; 0x00020405; 0x00020504; 0x00020505; 0x00030404; 0x00030405; 0x00030504; 0x00030505
  ; 0x00020406; 0x00020407; 0x00020506; 0x00020507; 0x00030406; 0x00030407; 0x00030506; 0x00030507
  ; 0x00020604; 0x00020605; 0x00020704; 0x00020705; 0x00030604; 0x00030605; 0x00030704; 0x00030705
  ; 0x00020606; 0x00020607; 0x00020706; 0x00020707; 0x00030606; 0x00030607; 0x00030706; 0x00030707 ]%Z.

Definition m_sBitMixingLUT : list (list Z) :=
  [m_sBitMixingLUT_0; m_sBitMixingLUT_1; m_sBitMixingLUT_2].

Definition m_sBitUnmixingLUT : list (list Z) :=
  [m_sBitUnmixingLUT_0; m_sBitUnmixingLUT_1; m_sBitUnmixingLUT_2].

(** [lut[partition][sample]]; the indices used by the program are always
    within the table. *)
Definition lookup (lut : list (list Z)) (partition : nat) (sample : Z) : Z :=
  nth (Z.to_nat sample) (nth partition lut []) 0.

Definition bitMixColor (color : Z) : Z :=
  Z.lor (Z.lor
    (lookup m_sBitMixingLUT 0 (Z.land (Z.shiftr color 16) 0xff))
    (lookup m_sBitMixingLUT 1 (Z.land (Z.shiftr color 8) 0xff)))
    (lookup m_sBitMixingLUT 2 (Z.land color 0xff)).

Definition bitUnmixColor (mixed : Z) : Z :=
  Z.lor (Z.lor
    (lookup m_sBitUnmixingLUT 0 (Z.land (Z.shiftr mixed 16) 0xff))
    (lookup m_sBitUnmixingLUT 1 (Z.land (Z.shiftr mixed 8) 0xff)))
    (lookup m_sBitUnmixingLUT 2 (Z.land mixed 0xff)).

(** [QRect] as Qt stores it: the two corners, both inclusive. *)
Record QRect := { x1 : Z; y1 : Z; x2 : Z; y2 : Z }.

Definition rect_width (r : QRect) : Z := x2 r - x1 r + 1.
Definition rect_height (r : QRect) : Z := y2 r - y1 r + 1.

(** [QRect(x, y, w, h)] and [QRect::moveCenter]. *)
Definition mkQRect (x y w h : Z) : QRect :=
  {| x1 := x; y1 := y; x2 := x + w - 1; y2 := y + h - 1 |}.

Definition moveCenter (r : QRect) (px py : Z) : QRect :=
  let w := x2 r - x1 r in
  let h := y2 r - y1 r in
  let nx := px - Z.quot w 2 in
  let ny := py - Z.quot h 2 in
  {| x1 := nx; y1 := ny; x2 := nx + w; y2 := ny + h |}.

(** [targetBoundingRect]; the argument is the cursor position mapped into
    the image view. *)
Definition targetBoundingRect (mouse_x mouse_y : Z) : QRect :=
  moveCenter (mkQRect 0 0 15 15) mouse_x mouse_y.

(** The [QImage] obtained from the grabbed pixmap, in [Format_RGB32]: its
    pixel words from [bits()] and its [bytesPerLine()]. *)
Record QImage := { bits : list Z; bytesPerLine : Z }.

(** What [takeColor] reads and writes: the draw guard counter, the fill
    colour property the interaction was started with (shared with the
    zone), the zone set's default properties and the commits made. *)
Record State := {
  m_dontDrawCircle : Z;
  m_ptrFillColorProp : QColor;
  defaultProperties : PropertySet;
  commits : nat
}.

(** The two nested loops of [takeColor]: the positions whose colour is
    pushed, in the order of the pushes. *)
Definition sampled_positions (width height : Z) : list (Z * Z) :=
  let x_center := Z.quot width 2 in
  let y_center := Z.quot height 2 in
  let sqdist_threshold := x_center * y_center in
  flat_map (fun y =>
    let dy := y - y_center in
    let dy_sq := dy * dy in
    flat_map (fun x =>
      let dx := x - x_center in
      let dx_sq := dx * dx in
      let sqdist := dy_sq + dx_sq in
      if sqdist <=? sqdist_threshold then [(x, y)] else [])
      (range width))
    (range height).

(** [line[x]] after [y] steps of [line += stride]. *)
Definition pixel (image : QImage) (x y : Z) : Z :=
  let stride := Z.quot (bytesPerLine image) 4 in
  nth (Z.to_nat (y * stride + x)) (bits image) 0.

Definition bitmixed_colors (image : QImage) (width height : Z) : list Z :=
  map (fun p => bitMixColor (pixel image (fst p) (snd p)))
      (sampled_positions width height).

(** [std::nth_element] leaves at position [nth] the element that a full
    sort would put there; the sort is by [<] on unsigned words. *)
Fixpoint insert_sorted (a : Z) (l : list Z) : list Z :=
  match l with
  | [] => [a]
  | b :: l' => if a <=? b then a :: l else b :: insert_sorted a l'
  end.

Definition sort (l : list Z) : list Z := fold_right insert_sorted [] l.

Definition nth_element (l : list Z) (n : nat) : Z := nth n (sort l) 0.

(** [takeColor] on a grab rectangle of the given size; [pixmap] is [None]
    when [QPixmap::grabWidget] returned a null pixmap. *)
Definition takeColor_in (width height : Z) (pixmap : option QImage) (st : State) : State :=
  let enter := m_dontDrawCircle st + 1 in
  let leave (s : State) : State :=
    {| m_dontDrawCircle := enter - 1;
       m_ptrFillColorProp := m_ptrFillColorProp s;
       defaultProperties := defaultProperties s;
       commits := commits s |} in
  match pixmap with
  | None => leave st
  | Some image =>
    let colors := bitmixed_colors image width height in
    match colors with
    | [] => leave st
    | _ :: _ =>
      let half_pos := Nat.div (List.length colors) 2 in
      let color := QColor_rgb (bitUnmixColor (nth_element colors half_pos)) in
      leave {| m_dontDrawCircle := enter;
               m_ptrFillColorProp := color;
               defaultProperties := locateOrCreate_setColor (defaultProperties st) color;
               commits := S (commits st) |}
    end
  end.

Definition takeColor (mouse_x mouse_y : Z) (pixmap : option QImage) (st : State) : State :=
  let rect := targetBoundingRect mouse_x mouse_y in
  takeColor_in (rect_width rect) (rect_height rect) pixmap st.

(** The loops that the comments above the two tables give as their
    source: [accum] after the loop over [bit], for one [partition] and one
    [sample]. *)
Definition bit23 : Z := Z.shiftl 1 23.
Definition bit7 : Z := Z.shiftl 1 7.

Definition generate_mixing (partition sample : Z) : Z :=
  fold_left (fun accum bit =>
    if negb (Z.land sample (Z.shiftr bit7 bit) =? 0)
    then Z.lor accum (Z.shiftr bit23 (bit * 3 + partition))
    else accum)
    (range 8) 0.

Definition generate_unmixing (partition sample : Z) : Z :=
  fold_left (fun accum bit =>
    if negb (Z.land sample (Z.shiftr bit7 bit) =? 0)
    then
      let src_offset := bit + partition * 8 in
      let channel := Z.rem src_offset 3 in
      let dst_offset := Z.quot src_offset 3 in
      Z.lor accum (Z.shiftr bit23 (channel * 8 + dst_offset))
    else accum)
    (range 8) 0.

(** [event->buttons()]: the buttons held down. *)
Record MouseButtons := mkButtons {
  left_down : bool;
  right_down : bool;
  middle_down : bool
}.

(** [event->buttons() == Qt::LeftButton]. *)
Definition only_left (b : MouseButtons) : bool :=
  left_down b && negb (right_down b) && negb (middle_down b).

Inductive Key := Key_Escape | Key_other (code : Z).

(** The interaction as a handler of the chain: the state [takeColor]
    works on, whether [m_ptrFillColorProp] points to a property, whether
    [m_interaction] holds the capture, and whether the handler is still in
    the chain or has put the default interaction in its place. *)
Record Pickup := mkPickup {
  state : State;
  prop_attached : bool;
  holds_capture : bool;
  replaced_by_default : bool
}.

(** [startInteraction]: the fill colour property of the zone is located or
    created, and the capture is taken; [zone_color] is the colour of that
    property. *)
Definition startInteraction (zone_color : QColor) (p : Pickup) : Pickup :=
  {| state :=
       {| m_dontDrawCircle := m_dontDrawCircle (state p);
          m_ptrFillColorProp := zone_color;
          defaultProperties := defaultProperties (state p);
          commits := commits (state p) |};
     prop_attached := true;
     holds_capture := true;
     replaced_by_default := replaced_by_default p |}.

Definition isActive (p : Pickup) : bool := holds_capture p.

(** [switchToDefaultInteraction]. *)
Definition switchToDefaultInteraction (p : Pickup) : Pickup :=
  {| state := state p;
     prop_attached := false;
     holds_capture := false;
     replaced_by_default := true |}.

(** [onMousePressEvent]: the handler after the event and whether the
    event was accepted. *)
Definition onMousePressEvent (buttons : MouseButtons) (mouse_x mouse_y : Z)
    (pixmap : option QImage) (p : Pickup) : Pickup * bool :=
  if only_left buttons then
    let taken :=
      {| state := takeColor mouse_x mouse_y pixmap (state p);
         prop_attached := prop_attached p;
         holds_capture := holds_capture p;
         replaced_by_default := replaced_by_default p |} in
    (switchToDefaultInteraction taken, true)
  else (p, false).

(** [onKeyPressEvent]. *)
Definition onKeyPressEvent (key : Key) (p : Pickup) : Pickup * bool :=
  match key with
  | Key_Escape => (switchToDefaultInteraction p, true)
  | Key_other _ => (p, false)
  end.

End ColorPickupInteraction.

(** ** Margins.h *)

Module Margins.

(** The margin values are [double]s that the class only stores and copies;
    they are taken in [Q]. *)
Record Margins := mkMargins {
  m_top : Q;
  m_bottom : Q;
  m_left : Q;
  m_right : Q
}.

(** [Margins(double left, double top, double right, double bottom)]. *)
Definition Margins_ctor (left top right bottom : Q) : Margins :=
  {| m_top := top; m_bottom := bottom; m_left := left; m_right := right |}.

Definition Margins_setTop (val : Q) (m : Margins) : Margins :=
  {| m_top := val; m_bottom := m_bottom m; m_left := m_left m; m_right := m_right m |}.
Definition Margins_setBottom (val : Q) (m : Margins) : Margins :=
  {| m_top := m_top m; m_bottom := val; m_left := m_left m; m_right := m_right m |}.
Definition Margins_setLeft (val : Q) (m : Margins) : Margins :=
  {| m_top := m_top m; m_bottom := m_bottom m; m_left := val; m_right := m_right m |}.
Definition Margins_setRight (val : Q) (m : Margins) : Margins :=
  {| m_top := m_top m; m_bottom := m_bottom m; m_left := m_left m; m_right := val |}.

(** [MarginsWithAuto]: the [Margins] base object and [m_backuppedData],
    [None] for the null pointer. *)
Record MarginsWithAuto := mkMarginsWithAuto {
  base : Margins;
  m_backuppedData : option Margins
}.

Definition top (m : MarginsWithAuto) : Q := m_top (base m).
Definition bottom (m : MarginsWithAuto) : Q := m_bottom (base m).
Definition left (m : MarginsWithAuto) : Q := m_left (base m).
Definition right (m : MarginsWithAuto) : Q := m_right (base m).

Definition on_base (f : Margins -> Margins) (m : MarginsWithAuto) : MarginsWithAuto :=
  {| base := f (base m); m_backuppedData := m_backuppedData m |}.

Definition setTop (val : Q) : MarginsWithAuto -> MarginsWithAuto := on_base (Margins_setTop val).
Definition setBottom (val : Q) : MarginsWithAuto -> MarginsWithAuto := on_base (Margins_setBottom val).
Definition setLeft (val : Q) : MarginsWithAuto -> MarginsWithAuto := on_base (Margins_setLeft val).
Definition setRight (val : Q) : MarginsWithAuto -> MarginsWithAuto := on_base (Margins_setRight val).

(** [operator=(Margins rhs)]. *)
Definition assign (rhs : Margins) (m : MarginsWithAuto) : MarginsWithAuto :=
  {| base := rhs; m_backuppedData := m_backuppedData m |}.

Definition isAutoMarginsEnabled (m : MarginsWithAuto) : bool :=
  match m_backuppedData m with Some _ => true | None => false end.

Definition backup (m : MarginsWithAuto) : option Margins := m_backuppedData m.

Definition backupValues (m : MarginsWithAuto) : MarginsWithAuto :=
  match m_backuppedData m with
  | None => {| base := base m; m_backuppedData := Some (base m) |}
  | Some _ => m
  end.

Definition restoreValues (m : MarginsWithAuto) : bool * MarginsWithAuto :=
  match m_backuppedData m with
  | Some saved => (true, {| base := saved; m_backuppedData := None |})
  | None => (false, m)
  end.

Definition setAutoMargins (state : bool) (m : MarginsWithAuto) : MarginsWithAuto :=
  if state && negb (isAutoMarginsEnabled m) then backupValues m
  else if negb state && isAutoMarginsEnabled m then snd (restoreValues m)
  else m.

(** A call of one of the four setters. *)
Inductive Setter :=
| SetTop (val : Q)
| SetBottom (val : Q)
| SetLeft (val : Q)
| SetRight (val : Q).

Definition call (s : Setter) : MarginsWithAuto -> MarginsWithAuto :=
  match s with
  | SetTop v => setTop v
  | SetBottom v => setBottom v
  | SetLeft v => setLeft v
  | SetRight v => setRight v
  end.

Definition calls (l : list Setter) (m : MarginsWithAuto) : MarginsWithAuto :=
  fold_left (fun acc s => call s acc) l m.

(** [MarginsWithAuto(double left, double top, double right, double
    bottom)], whose base is built by [Margins(top, bottom, left, right)],
    and [MarginsWithAuto(const Margins& m)]; the backup pointer starts
    null and [default_auto_margins] is the value of the setting
    "margins/default_auto_margins". *)
Definition MarginsWithAuto_ctor (default_auto_margins : bool) (left top right bottom : Q)
    : MarginsWithAuto :=
  setAutoMargins default_auto_margins
    {| base := Margins_ctor top bottom left right; m_backuppedData := None |}.

Definition MarginsWithAuto_of (default_auto_margins : bool) (m : Margins) : MarginsWithAuto :=
  setAutoMargins default_auto_margins {| base := m; m_backuppedData := None |}.

End Margins.

(** ** Alignment.cpp *)

Module Alignment.

Local Open Scope string_scope.

Inductive Vertical := TOP | VCENTER | BOTTOM | VAUTO | VORIGINAL.
Inductive Horizontal := LEFT | HCENTER | RIGHT | HAUTO | HORIGINAL.

(** A [QDomElement] as far as [Alignment] uses it: the tag name and the
    attributes in the order they were set. *)
Record QDomElement := { tagName : string; attributes : list (string * string) }.

Fixpoint lookup_attr (name : string) (attrs : list (string * string)) : option string :=
  match attrs with
  | [] => None
  | (n, v) :: rest => if String.eqb n name then Some v else lookup_attr name rest
  end.

(** [el.attribute(name, defValue)]; [defValue] is the empty string when it
    is left out. *)
Definition attribute (el : QDomElement) (name : string) (defValue : string) : string :=
  match lookup_attr name (attributes el) with
  | Some v => v
  | None => defValue
  end.

Fixpoint set_attr (name value : string) (attrs : list (string * string)) : list (string * string) :=
  match attrs with
  | [] => [(name, value)]
  | (n, v) :: rest =>
    if String.eqb n name then (n, value) :: rest else (n, v) :: set_attr name value rest
  end.

Definition setAttribute (name value : string) (el : QDomElement) : QDomElement :=
  {| tagName := tagName el; attributes := set_attr name value (attributes el) |}.

Definition createElement (name : string) : QDomElement :=
  {| tagName := name; attributes := [] |}.

(** [QString::toInt]: an optional sign and decimal digits, within the range
    of [int]; anything else gives 0. *)
Definition digit_of (c : ascii) : option Z :=
  let n := Z.of_nat (nat_of_ascii c) in
  if (48 <=? n)%Z && (n <=? 57)%Z then Some (n - 48)%Z else None.

Fixpoint parse_digits (s : string) (acc : Z) : option Z :=
  match s with
  | EmptyString => Some acc
  | String c rest =>
    match digit_of c with
    | Some d => parse_digits rest (10 * acc + d)%Z
    | None => None
    end
  end.

Definition parse_unsigned (s : string) : option Z :=
  match s with
  | EmptyString => None
  | _ => parse_digits s 0%Z
  end.

Definition toInt (s : string) : Z :=
  let signed :=
    match s with
    | String "-" rest => option_map Z.opp (parse_unsigned rest)
    | String "+" rest => parse_unsigned rest
    | _ => parse_unsigned s
    end in
  match signed with
  | Some n => if (-2147483648 <=? n)%Z && (n <=? 2147483647)%Z then n else 0%Z
  | None => 0%Z
  end.

(** [QString::number(int)] for the two values [toXml] writes. *)
Definition number_of_flag (b : bool) : string := if b then "1" else "0".

Section WithDoubles.

(** The tolerance is a [double] (taken in [Q]) written with
    [QString::number] and read back with [QString::toDouble]; both belong
    to Qt. *)
Variable number : Q -> string.
Variable toDouble : string -> Q.
Variable DEFAULT_TOLERANCE : Q.

Record Alignment := mkAlignment {
  m_vert : Vertical;
  m_hor : Horizontal;
  m_isNull : bool;
  m_tolerance : Q;
  m_autoMargins : bool
}.

(** [Alignment::Alignment(QDomElement const& el)]. *)
Definition fromXml (el : QDomElement) : Alignment :=
  let vert := attribute el "vert" "" in
  let hor := attribute el "hor" "" in
  let isNull := negb (toInt (attribute el "null" "") =? 0)%Z in
  let tolerance := toDouble (attribute el "tolerance" (number DEFAULT_TOLERANCE)) in
  let autoMargins := if String.eqb (attribute el "autoMargins" "") "true" then true else false in
  let v :=
    if String.eqb vert "top" then TOP
    else if String.eqb vert "bottom" then BOTTOM
    else if String.eqb vert "auto" then VAUTO
    else if String.eqb vert "original" then VORIGINAL
    else VCENTER in
  let h :=
    if String.eqb hor "left" then LEFT
    else if String.eqb hor "right" then RIGHT
    else if String.eqb hor "auto" then HAUTO
    else if String.eqb vert "original" then HORIGINAL
    else HCENTER in
  {| m_vert := v; m_hor := h; m_isNull := isNull;
     m_tolerance := tolerance; m_autoMargins := autoMargins |}.

(** [Alignment::toXml]. *)
Definition toXml (a : Alignment) (name : string) : QDomElement :=
  let vert :=
    match m_vert a with
    | TOP => "top"
    | VCENTER => "vcenter"
    | BOTTOM => "bottom"
    | VAUTO => "auto"
    | VORIGINAL => "original"
    end in
  let hor :=
    match m_hor a with
    | LEFT => "left"
    | HCENTER => "hcenter"
    | RIGHT => "right"
    | HAUTO => "auto"
    | HORIGINAL => "original"
    end in
  let el := createElement name in
  let el := setAttribute "vert" vert el in
  let el := setAttribute "hor" hor el in
  let el := setAttribute "null" (number_of_flag (m_isNull a)) el in
  let el := setAttribute "tolerance" (number (m_tolerance a)) el in
  let el := setAttribute "autoMargins" (if m_autoMargins a then "true" else "false") el in
  el.

End WithDoubles.

End Alignment.

(** ** RasterOpGeneric.h *)

Module RasterOpGeneric.

(** A pointer [T*] into an image buffer is the view of the memory from that
    address: element [i] is [data[i]].  The images of one call do not
    overlap. *)
Definition Ptr (T : Type) : Type := Z -> T.

Definition poke {T : Type} (p : Ptr T) (i : Z) (v : T) : Ptr T :=
  fun j => if j =? i then v else p j.

(** GridAccessor.h is not among the sources; the functions read the
    members [data], [stride], [width] and [height] of a grid. *)
Record GridAccessor (T : Type) : Type := mkGrid {
  data : Ptr T;
  stride : Z;
  width : Z;
  height : Z
}.
Arguments mkGrid {T}.
Arguments data {T}.
Arguments stride {T}.
Arguments width {T}.
Arguments height {T}.

(** [QSize] and [QSize::isEmpty]. *)
Record QSize := mkQSize { wd : Z; ht : Z }.
Definition isEmpty (s : QSize) : bool := (wd s <? 1) || (ht s <? 1).

(** BinaryImage.h is not among the sources.  A [BinaryImage] as these
    functions use it: the null image, which has no data and width and
    height 0, or an image with its [width], [height], [wordsPerLine] and
    the 32-bit words of [data()]. *)
Inductive BinaryImage :=
| NullImage
| Image (w h wpl : Z) (words : Ptr Z).

Definition isNull (img : BinaryImage) : bool :=
  match img with NullImage => true | Image _ _ _ _ => false end.
Definition bi_width (img : BinaryImage) : Z :=
  match img with NullImage => 0 | Image w _ _ _ => w end.
Definition bi_height (img : BinaryImage) : Z :=
  match img with NullImage => 0 | Image _ h _ _ => h end.
Definition wordsPerLine (img : BinaryImage) : Z :=
  match img with NullImage => 0 | Image _ _ wpl _ => wpl end.
Definition bi_data (img : BinaryImage) : Ptr Z :=
  match img with NullImage => fun _ => 0 | Image _ _ _ words => words end.
Definition with_data (img : BinaryImage) (words : Ptr Z) : BinaryImage :=
  match img with NullImage => NullImage | Image w h wpl _ => Image w h wpl words end.

(** The invocations of [operation], by pixel, in the order they are made. *)
Definition Calls : Type := list (Z * Z).

(** How a call ends: it returns, it throws [std::invalid_argument] with
    the given message, or a failed [assert] ends the program. *)
Inductive Exit :=
| Returned
| Thrown (what : string)
| Aborted.

(** The result of a call: how it ended, and the memory and the
    invocations made by then. *)
Record Run (S : Type) : Type := mkRun {
  exit : Exit;
  final : S;
  invoked : Calls
}.
Arguments mkRun {S}.
Arguments exit {S}.
Arguments final {S}.
Arguments invoked {S}.

(** [for (y = 0; y < h; ++y) for (x = 0; x < w; ++x) body]. *)
Definition for_each_pixel {S : Type} (w h : Z) (body : Z -> Z -> S -> S) (s : S) : S :=
  fold_left (fun sy y => fold_left (fun sx x => body x y sx) (range w) sy) (range h) s.

Section OneImage.
Context {T : Type}.

(** [rasterOpGeneric(T* data, int stride, QSize size, Op operation)];
    [operation] takes the element by reference and returns its value
    after the call. *)
Definition rasterOpGeneric_ptr1 (data : Ptr T) (stride : Z) (size : QSize)
    (operation : T -> T) : Ptr T * Calls :=
  if isEmpty size then (data, [])
  else
    let w := wd size in
    let h := ht size in
    for_each_pixel w h
      (fun x y '(d, cs) =>
         let i := y * stride + x in
         (poke d i (operation (d i)), cs ++ [(x, y)]))
      (data, []).

(** [rasterOpGenericXY(T* data, int stride, QSize size, Op operation)]. *)
Definition rasterOpGenericXY_ptr1 (data : Ptr T) (stride : Z) (size : QSize)
    (operation : T -> Z -> Z -> T) : Ptr T * Calls :=
  if isEmpty size then (data, [])
  else
    let w := wd size in
    let h := ht size in
    for_each_pixel w h
      (fun x y '(d, cs) =>
         let i := y * stride + x in
         (poke d i (operation (d i) x y), cs ++ [(x, y)]))
      (data, []).

Definition with_data1 (grid : GridAccessor T) (r : Ptr T * Calls) : Run (GridAccessor T) :=
  mkRun Returned (mkGrid (fst r) (stride grid) (width grid) (height grid)) (snd r).

(** [rasterOpGeneric(GridAccessor<T> grid, Op operation)]. *)
Definition rasterOpGeneric_grid1 (grid : GridAccessor T) (operation : T -> T)
    : Run (GridAccessor T) :=
  with_data1 grid
    (rasterOpGeneric_ptr1 (data grid) (stride grid)
       (mkQSize (width grid) (height grid)) operation).

(** [rasterOpGenericXY(GridAccessor<T> grid, Op operation)]. *)
Definition rasterOpGenericXY_grid1 (grid : GridAccessor T) (operation : T -> Z -> Z -> T)
    : Run (GridAccessor T) :=
  with_data1 grid
    (rasterOpGenericXY_ptr1 (data grid) (stride grid)
       (mkQSize (width grid) (height grid)) operation).

End OneImage.

Section TwoImages.
Context {T1 T2 : Type}.

(** [rasterOpGeneric(T1* data1, int stride1, QSize size, T2* data2, int
    stride2, Op operation)]; [operation] takes both elements by reference
    and the pair it returns holds their values after the call. *)
Definition rasterOpGeneric_ptr2 (data1 : Ptr T1) (stride1 : Z) (size : QSize)
    (data2 : Ptr T2) (stride2 : Z) (operation : T1 -> T2 -> T1 * T2)
    : Ptr T1 * Ptr T2 * Calls :=
  if isEmpty size then (data1, data2, [])
  else
    let w := wd size in
    let h := ht size in
    for_each_pixel w h
      (fun x y '(d1, d2, cs) =>
         let i1 := y * stride1 + x in
         let i2 := y * stride2 + x in
         let '(a, b) := operation (d1 i1) (d2 i2) in
         (poke d1 i1 a, poke d2 i2 b, cs ++ [(x, y)]))
      (data1, data2, []).

(** [rasterOpGenericXY(T1* data1, int stride1, QSize size, T2* data2, int
    stride2, Op operation)]. *)
Definition rasterOpGenericXY_ptr2 (data1 : Ptr T1) (stride1 : Z) (size : QSize)
    (data2 : Ptr T2) (stride2 : Z) (operation : T1 -> T2 -> Z -> Z -> T1 * T2)
    : Ptr T1 * Ptr T2 * Calls :=
  if isEmpty size then (data1, data2, [])
  else
    let w := wd size in
    let h := ht size in
    for_each_pixel w h
      (fun x y '(d1, d2, cs) =>
         let i1 := y * stride1 + x in
         let i2 := y * stride2 + x in
         let '(a, b) := operation (d1 i1) (d2 i2) x y in
         (poke d1 i1 a, poke d2 i2 b, cs ++ [(x, y)]))
      (data1, data2, []).

End TwoImages.

Definition with_data2 {T1 T2 : Type} (grid1 : GridAccessor T1) (grid2 : GridAccessor T2)
    (r : Ptr T1 * Ptr T2 * Calls) : Run (GridAccessor T1 * GridAccessor T2) :=
  let '(d1, d2, cs) := r in
  mkRun Returned
    (mkGrid d1 (stride grid1) (width grid1) (height grid1),
     mkGrid d2 (stride grid2) (width grid2) (height grid2))
    cs.

(** [rasterOpGeneric(GridAccessor<T1> grid1, GridAccessor<T1> grid2, Op)]:
    both grids have the element type [T1]. *)
Definition rasterOpGeneric_grid2 {T1 : Type} (grid1 grid2 : GridAccessor T1)
    (operation : T1 -> T1 -> T1 * T1) : Run (GridAccessor T1 * GridAccessor T1) :=
  if negb (width grid1 =? width grid2) || negb (height grid1 =? height grid2)
  then mkRun (Thrown "rasterOpGeneric: size mismatch") (grid1, grid2) []
  else
    with_data2 grid1 grid2
      (rasterOpGeneric_ptr2 (data grid1) (stride grid1)
         (mkQSize (width grid1) (height grid1))
         (data grid2) (stride grid2) operation).

(** The overload [rasterOpGenericXY(GridAccessor<T1> data1,
    GridAccessor<T2> data2, Op)] is left out: its definition names its
    parameters [data1] and [data2] and its body reads [grid1] and
    [grid2], which nothing declares, so the function as written has no
    meaning. *)

Section ThreeImages.
Context {T1 T2 T3 : Type}.

(** [rasterOpGeneric(QSize size, T1* data1, int stride1, T2* data2, int
    stride2, T3* data3, int stride3, Op operation)]. *)
Definition rasterOpGeneric_ptr3 (size : QSize)
    (data1 : Ptr T1) (stride1 : Z) (data2 : Ptr T2) (stride2 : Z)
    (data3 : Ptr T3) (stride3 : Z) (operation : T1 -> T2 -> T3 -> T1 * T2 * T3)
    : Ptr T1 * Ptr T2 * Ptr T3 * Calls :=
  if isEmpty size then (data1, data2, data3, [])
  else
    let w := wd size in
    let h := ht size in
    for_each_pixel w h
      (fun x y '(d1, d2, d3, cs) =>
         let i1 := y * stride1 + x in
         let i2 := y * stride2 + x in
         let i3 := y * stride3 + x in
         let '(a, b, c) := operation (d1 i1) (d2 i2) (d3 i3) in
         (poke d1 i1 a, poke d2 i2 b, poke d3 i3 c, cs ++ [(x, y)]))
      (data1, data2, data3, []).

(** [rasterOpGeneric(GridAccessor grid1, GridAccessor grid2, GridAccessor
    grid3, Op)]. *)
Definition rasterOpGeneric_grid3 (grid1 : GridAccessor T1) (grid2 : GridAccessor T2)
    (grid3 : GridAccessor T3) (operation : T1 -> T2 -> T3 -> T1 * T2 * T3)
    : Run (GridAccessor T1 * GridAccessor T2 * GridAccessor T3) :=
  if negb (width grid1 =? width grid2) || negb (height grid1 =? height grid2) ||
     negb (width grid1 =? width grid3) || negb (height grid1 =? height grid3)
  then mkRun (Thrown "rasterOpGeneric: size mismatch") (grid1, grid2, grid3) []
  else
    let '(d1, d2, d3, cs) :=
      rasterOpGeneric_ptr3 (mkQSize (width grid1) (height grid1))
        (data grid1) (stride grid1) (data grid2) (stride grid2)
        (data grid3) (stride grid3) operation in
    mkRun Returned
      (mkGrid d1 (stride grid1) (width grid1) (height grid1),
       mkGrid d2 (stride grid2) (width grid2) (height grid2),
       mkGrid d3 (stride grid3) (width grid3) (height grid3))
      cs.

End ThreeImages.

Section BinaryAndGrid.
Context {T2 : Type}.

(** [rasterOpGeneric(BinaryImage const& image1, T2* data2, int stride2, Op
    operation)]; [operation] receives the bit by value. *)
Definition rasterOpGeneric_cbin_ptr (image1 : BinaryImage) (data2 : Ptr T2) (stride2 : Z)
    (operation : Z -> T2 -> T2) : Ptr T2 * Calls :=
  if isNull image1 then (data2, [])
  else
    let w := bi_width image1 in
    let h := bi_height image1 in
    let stride1 := wordsPerLine image1 in
    let data1 := bi_data image1 in
    for_each_pixel w h
      (fun x y '(d2, cs) =>
         let shift := 31 - Z.land x 31 in
         let word := data1 (y * stride1 + Z.shiftr x 5) in
         let i2 := y * stride2 + x in
         (poke d2 i2 (operation (Z.land (Z.shiftr word shift) 1) (d2 i2)), cs ++ [(x, y)]))
      (data2, []).

(** [rasterOpGeneric(BinaryImage const& image1, GridAccessor image2, Op)]. *)
Definition rasterOpGeneric_cbin_grid (image1 : BinaryImage) (image2 : GridAccessor T2)
    (operation : Z -> T2 -> T2) : Run (BinaryImage * GridAccessor T2) :=
  if negb (bi_width image1 =? width image2) || negb (bi_height image1 =? height image2)
  then mkRun (Thrown "rasterOpGeneric: size mismatch") (image1, image2) []
  else
    let '(d2, cs) :=
      rasterOpGeneric_cbin_ptr image1 (data image2) (stride image2) operation in
    mkRun Returned (image1, mkGrid d2 (stride image2) (width image2) (height image2)) cs.

(** [rop_generic_impl::BitProxy]: the conversion to [uint32_t] on the
    word the proxy refers to. *)
Definition BitProxy_read (word shift : Z) : Z := Z.land (Z.shiftr word shift) 1.

(** Whether the program is compiled with [NDEBUG], which turns [assert]
    into nothing. *)
Variable NDEBUG : bool.

(** [BitProxy::operator=(uint32_t bit)] on the word the proxy refers to:
    the new word, or [None] when [assert(bit <= 1)] fails.  The shifts
    and the complement are [uint32_t] operations. *)
Definition BitProxy_assign (word shift bit : Z) : option Z :=
  if negb NDEBUG && negb (bit <=? 1) then None
  else
    let mask := Z.land (Z.shiftl 1 shift) 0xffffffff in
    Some (Z.lor (Z.land word (Z.land (Z.lnot mask) 0xffffffff))
                (Z.land (Z.shiftl bit shift) 0xffffffff)).

(** The memory, the invocations and whether the program still runs, in
    the loop over a binary image that can be written. *)
Record BitLoop := mkBitLoop {
  running : bool;
  words1 : Ptr Z;
  elems2 : Ptr T2;
  calls : Calls
}.

(** [rasterOpGeneric(BinaryImage& image1, T2* data2, int stride2, Op
    operation)]; [operation] reads the bit through the proxy and may assign
    to it: [Some b] for an assignment of [b], [None] for none.  A failed
    assertion ends the program within that invocation. *)
Definition rasterOpGeneric_bin_ptr (image1 : BinaryImage) (data2 : Ptr T2) (stride2 : Z)
    (operation : Z -> T2 -> option Z * T2) : BitLoop :=
  if isNull image1 then mkBitLoop true (bi_data image1) data2 []
  else
    let w := bi_width image1 in
    let h := bi_height image1 in
    let stride1 := wordsPerLine image1 in
    for_each_pixel w h
      (fun x y s =>
         if running s then
           let i1 := y * stride1 + Z.shiftr x 5 in
           let shift := 31 - Z.land x 31 in
           let i2 := y * stride2 + x in
           let r := operation (BitProxy_read (words1 s i1) shift) (elems2 s i2) in
           match fst r with
           | Some bit =>
             match BitProxy_assign (words1 s i1) shift bit with
             | Some word =>
               mkBitLoop true (poke (words1 s) i1 word) (poke (elems2 s) i2 (snd r))
                 (calls s ++ [(x, y)])
             | None => mkBitLoop false (words1 s) (elems2 s) (calls s ++ [(x, y)])
             end
           | None =>
             mkBitLoop true (words1 s) (poke (elems2 s) i2 (snd r)) (calls s ++ [(x, y)])
           end
         else s)
      (mkBitLoop true (bi_data image1) data2 []).

(** [rasterOpGeneric(BinaryImage& image1, GridAccessor image2, Op)]. *)
Definition rasterOpGeneric_bin_grid (image1 : BinaryImage) (image2 : GridAccessor T2)
    (operation : Z -> T2 -> option Z * T2) : Run (BinaryImage * GridAccessor T2) :=
  if negb (bi_width image1 =? width image2) || negb (bi_height image1 =? height image2)
  then mkRun (Thrown "rasterOpGeneric: size mismatch") (image1, image2) []
  else
    let s := rasterOpGeneric_bin_ptr image1 (data image2) (stride image2) operation in
    mkRun (if running s then Returned else Aborted)
      (with_data image1 (words1 s),
       mkGrid (elems2 s) (stride image2) (width image2) (height image2))
      (calls s).

End BinaryAndGrid.

End RasterOpGeneric.

(** ** Proximity and InteractionState *)

Module Interaction.

(** Coordinates and distances are [double]s in the program; they are taken
    in [Q], with exact arithmetic. *)
Definition QPointF : Type := Q * Q.
Definition QPolygonF : Type := list QPointF.
Definition QLineF : Type := QPointF * QPointF.

Definition Qlt_bool (a b : Q) : bool := negb (Qle_bool b a).

(** Modelled from the spec: Proximity.h is missing.  A proximity value is a
    numeric distance, or the infinite sentinel that stands for no
    candidate and is what [Proximity()] builds; values compare by their
    distance, the sentinel above all of them. *)
Inductive Proximity :=
| Finite (dist : Q)
| Infinite.

Definition Proximity_default : Proximity := Infinite.

Definition Proximity_ltb (a b : Proximity) : bool :=
  match a, b with
  | Finite x, Finite y => Qlt_bool x y
  | Finite _, Infinite => true
  | Infinite, _ => false
  end.

Definition Proximity_leb (a b : Proximity) : bool := negb (Proximity_ltb b a).

(** [std::min(a, b)]: [b] if [b < a], else [a]. *)
Definition std_min (a b : Proximity) : Proximity :=
  if Proximity_ltb b a then b else a.

(** The proximity objects a handler registers claims for. *)
Inductive ProximityObject :=
| VertexProximity
| SegmentProximity
| ZoneAreaProximity
| OtherProximity (n : nat).

Definition ProximityObject_eqb (a b : ProximityObject) : bool :=
  match a, b with
  | VertexProximity, VertexProximity => true
  | SegmentProximity, SegmentProximity => true
  | ZoneAreaProximity, ZoneAreaProximity => true
  | OtherProximity n, OtherProximity m => Nat.eqb n m
  | _, _ => false
  end.

(** The objects that can hold the input capture. *)
Inductive Captor :=
| DragHandlerOfDefault
| OtherCaptor (n : nat).

Definition Captor_eqb (a b : Captor) : bool :=
  match a, b with
  | DragHandlerOfDefault, DragHandlerOfDefault => true
  | OtherCaptor n, OtherCaptor m => Nat.eqb n m
  | _, _ => false
  end.

(** One call [interaction.updateProximity(obj, proximity, priority[,
    proximity_threshold])]. *)
Record Claim := mkClaim {
  claim_obj : ProximityObject;
  claim_proximity : Proximity;
  claim_priority : Z;
  claim_threshold : option Proximity
}.

(** Modelled from the spec: InteractionState.h and InteractionState.cpp are
    missing.  The state holds which handler, if any, has the input capture
    and the proximity claims registered in this event cycle, in the order
    of registration. *)
Record InteractionState := mkInteractionState {
  m_captor : option Captor;
  m_claims : list Claim
}.

Definition captured (st : InteractionState) : bool :=
  match m_captor st with Some _ => true | None => false end.

Definition capturedBy (st : InteractionState) (c : Captor) : bool :=
  match m_captor st with Some c' => Captor_eqb c' c | None => false end.

Definition capture (c : Captor) (st : InteractionState) : InteractionState :=
  {| m_captor := Some c; m_claims := m_claims st |}.

Definition updateProximity (c : Claim) (st : InteractionState) : InteractionState :=
  {| m_captor := m_captor st; m_claims := m_claims st ++ [c] |}.

(** Modelled from the spec: the comparison of two claims orders first by
    priority and then by distance, the lower distance winning.  For the
    priority the spec says that the lower value wins, and also that a
    vertex candidate (priority 1) is preferred to a segment candidate
    (priority 0) and that the zone interior (priority -1, the lowest) loses
    to both; the direction is therefore a parameter of the model. *)
Inductive PriorityOrder := LowerValueWins | HigherValueWins.

Definition priority_wins (order : PriorityOrder) (p q : Z) : bool :=
  match order with
  | LowerValueWins => p <? q
  | HigherValueWins => q <? p
  end.

Definition betterProximity (order : PriorityOrder) (c best : Claim) : bool :=
  if negb (claim_priority c =? claim_priority best)
  then priority_wins order (claim_priority c) (claim_priority best)
  else Proximity_ltb (claim_proximity c) (claim_proximity best).

(** Modelled from the spec: the leader is the claim with the best value
    among the claims registered in this cycle; a claim at the sentinel
    distance is no candidate; of two claims with the same priority and
    distance the one registered first stays the leader. *)
Definition consider (order : PriorityOrder) (best : option Claim) (c : Claim) : option Claim :=
  match claim_proximity c with
  | Infinite => best
  | Finite _ =>
    match best with
    | None => Some c
    | Some b => if betterProximity order c b then Some c else best
    end
  end.

Definition leader (order : PriorityOrder) (claims : list Claim) : option Claim :=
  fold_left (consider order) claims None.

(** Modelled from the spec: [isLeader] holds iff the claim of this object
    is the best of the cycle and the capture is not held. *)
Definition proximityLeader (order : PriorityOrder) (st : InteractionState)
    (obj : ProximityObject) : bool :=
  negb (captured st) &&
  match leader order (m_claims st) with
  | Some c => ProximityObject_eqb (claim_obj c) obj
  | None => false
  end.

End Interaction.

(** ** ZoneDefaultInteraction.cpp *)

Module ZoneDefaultInteraction.
Import Zones Interaction.

(** Modelled from the spec: EditableSpline.h and SplineVertex.h are
    missing.  A spline is the ordered, closed sequence of its vertices,
    each holding a point; here it is the sequence of these points from
    [firstVertex()] along [next(NO_LOOP)], a vertex is known by its
    position in the sequence and a spline by the position of its zone in
    the zone set. *)
Definition EditableSpline : Type := list QPointF.

Record Zone := mkZone {
  spline : EditableSpline;
  properties : PropertySet
}.

(** Modelled from the spec: EditableZoneSet.h is missing.  The set owns the
    zones in order and the default properties that seed new zones;
    [addZone] appends a zone with the given spline and the default
    properties; [commit] publishes the staged zones as one observable
    state. *)
Record EditableZoneSet := mkZoneSet {
  m_zones : list Zone;
  m_defaultProps : PropertySet;
  published : list (list Zone)
}.

Definition addZone (s : EditableSpline) (zs : EditableZoneSet) : EditableZoneSet :=
  {| m_zones := m_zones zs ++ [mkZone s (m_defaultProps zs)];
     m_defaultProps := m_defaultProps zs;
     published := published zs |}.

Definition commit (zs : EditableZoneSet) : EditableZoneSet :=
  {| m_zones := m_zones zs;
     m_defaultProps := m_defaultProps zs;
     published := published zs ++ [m_zones zs] |}.

(** Modelled from the spec: SerializableSpline.h is missing.  The polygon
    of a zone is the sequence of the points of its spline:
    [SerializableSpline(spline).toPolygon()] gives these points, and
    [EditableSpline(SerializableSpline(polygon))] the spline with the
    points of the polygon. *)
Definition SerializableSpline_toPolygon (s : EditableSpline) : QPolygonF := s.
Definition EditableSpline_of_polygon (p : QPolygonF) : EditableSpline := p.

(** Modelled from the spec: the segments of a spline are the edges of the
    closed polygon, each from a vertex to the next one around. *)
Definition segments (s : EditableSpline) : list (nat * nat) :=
  match s with
  | [] | [_] => []
  | _ => map (fun i => (i, Nat.modulo (S i) (List.length s))) (seq 0 (List.length s))
  end.

(** [LocalClipboard]: the content type and the spline. *)
Inductive ContentType := NoContent | Spline.

Record LocalClipboard := mkClipboard {
  getConentType : ContentType;
  getSpline : QPolygonF
}.

Section Paste.

(** What Qt computes for the paste action: a [QTransform], with the
    identity [QTransform()], [translate] and the image [map] of a
    polygon under it in [double] arithmetic, and [operator==] of
    [QPolygonF], which compares the points of two polygons with the
    fuzzy [operator==] of [QPointF]. *)
Variable QTransform : Type.
Variable QTransform_identity : QTransform.
Variable translate : QTransform -> Q -> Q -> QTransform.
Variable QTransform_map : QTransform -> QPolygonF -> QPolygonF.
Variable QPolygonF_equal : QPolygonF -> QPolygonF -> bool.

(** The [do ... while (true)] loop of the paste action; [fuel] bounds the
    number of rounds, and [None] is the loop still running when it is
    spent. *)
Fixpoint paste_loop (fuel : nat) (zs : EditableZoneSet) (shift : QTransform)
    (new_spline : QPolygonF) : option EditableZoneSet :=
  match fuel with
  | O => None
  | S fuel' =>
    let found :=
      existsb (fun zone =>
        QPolygonF_equal new_spline (SerializableSpline_toPolygon (spline zone)))
        (m_zones zs) in
    if found then paste_loop fuel' zs shift (QTransform_map shift new_spline)
    else Some (commit (addZone (EditableSpline_of_polygon new_spline) zs))
  end.

(** The handler of [m_pasteAction]'s [triggered]; [widget_to_virtual] is
    [imageView().widgetToImage()]. *)
Definition pasteAction (fuel : nat) (widget_to_virtual : QTransform)
    (clipboard : LocalClipboard) (zs : EditableZoneSet) : option EditableZoneSet :=
  match getConentType clipboard with
  | Spline =>
    let new_spline := QTransform_map widget_to_virtual (getSpline clipboard) in
    let shift := translate QTransform_identity 100 100 in
    paste_loop fuel zs shift new_spline
  | NoContent => Some zs
  end.

End Paste.

Inductive ShiftState := ShiftStateUnknown | ShiftStatePressed | ShiftStateUnpressed.

Definition ShiftState_eqb (a b : ShiftState) : bool :=
  match a, b with
  | ShiftStateUnknown, ShiftStateUnknown => true
  | ShiftStatePressed, ShiftStatePressed => true
  | ShiftStateUnpressed, ShiftStateUnpressed => true
  | _, _ => false
  end.

Inductive QCursor := DefaultCursor | DragMoveCursor.

(** The members of the handler that the event callbacks read and write.
    A vertex is (zone, vertex), a segment (zone, (prev, next)); [None] is
    the null pointer and the null segment. *)
Record Handler := mkHandler {
  m_screenMousePos : QPointF;
  m_ptrNearestVertex : option (nat * nat);
  m_ptrNearestVertexSpline : option nat;
  m_nearestSegment : option (nat * (nat * nat));
  m_ptrNearestSegmentSpline : option nat;
  m_ptrNearestZoneSpline : option nat;
  m_screenPointOnSegment : QPointF;
  m_lastMovingState : ShiftState;
  m_zoneAreaProximityCursor : QCursor;
  m_dragWatcher_haveSignificantDrag : bool
}.

Section Geometry.

(** What the image view, Qt and Proximity.cpp compute: the two coordinate
    maps, the containment test of a painter path with [Qt::WindingFill]
    holding the polygon of a spline, the proximity of two points and the
    proximity of a point to a line segment with the nearest point on it. *)
Variable to_screen : QPointF -> QPointF.
Variable from_screen : QPointF -> QPointF.
Variable path_contains : EditableSpline -> QPointF -> bool.
Variable Proximity_points : QPointF -> QPointF -> Proximity.
Variable pointAndLineSegment : QPointF -> QLineF -> Proximity * QPointF.

(** The running values of one pass over the zones. *)
Record Scan := mkScan {
  nearest_vertex : option (nat * nat);
  nearest_vertex_spline : option nat;
  best_vertex_proximity : Proximity;
  nearest_segment : option (nat * (nat * nat));
  nearest_segment_spline : option nat;
  best_segment_proximity : Proximity;
  screen_point_on_segment : QPointF;
  nearest_zone_spline : option nat;
  has_zone_under_mouse : bool
}.

(** The loop over the vertices of one spline. *)
Definition scan_vertices (mouse_pos : QPointF) (zi : nat) (s : EditableSpline)
    (sc : Scan) : Scan :=
  fold_left (fun sc vi =>
    let proximity := Proximity_points mouse_pos (to_screen (nth vi s (0, 0)%Q)) in
    if Proximity_ltb proximity (best_vertex_proximity sc)
    then mkScan (Some (zi, vi)) (Some zi) proximity
           (nearest_segment sc) (nearest_segment_spline sc)
           (best_segment_proximity sc) (screen_point_on_segment sc)
           (nearest_zone_spline sc) (has_zone_under_mouse sc)
    else sc)
    (seq 0 (List.length s)) sc.

(** The loop over the segments of one spline. *)
Definition scan_segments (mouse_pos : QPointF) (zi : nat) (s : EditableSpline)
    (sc : Scan) : Scan :=
  fold_left (fun sc seg =>
    let line := (to_screen (nth (fst seg) s (0, 0)%Q),
                 to_screen (nth (snd seg) s (0, 0)%Q)) in
    let '(proximity, point_on_segment) := pointAndLineSegment mouse_pos line in
    if Proximity_ltb proximity (best_segment_proximity sc)
    then mkScan (nearest_vertex sc) (nearest_vertex_spline sc)
           (best_vertex_proximity sc)
           (Some (zi, seg)) (Some zi) proximity point_on_segment
           (nearest_zone_spline sc) (has_zone_under_mouse sc)
    else sc)
    (segments s) sc.

(** The body of the loop over the zones. *)
Definition scan_zone (mouse_pos image_mouse_pos : QPointF) (sc : Scan)
    (entry : nat * Zone) : Scan :=
  let zi := fst entry in
  let s := spline (snd entry) in
  let sc1 :=
    if negb (has_zone_under_mouse sc) then
      if path_contains s image_mouse_pos
      then mkScan (nearest_vertex sc) (nearest_vertex_spline sc)
             (best_vertex_proximity sc)
             (nearest_segment sc) (nearest_segment_spline sc)
             (best_segment_proximity sc) (screen_point_on_segment sc)
             (Some zi) true
      else sc
    else sc in
  scan_segments mouse_pos zi s (scan_vertices mouse_pos zi s sc1).

Definition indexed {A : Type} (l : list A) : list (nat * A) :=
  combine (seq 0 (List.length l)) l.

Definition scan_zones (mouse_pos : QPointF) (h : Handler) (zones : list Zone) : Scan :=
  fold_left (scan_zone mouse_pos (from_screen mouse_pos))
    (indexed zones)
    (mkScan None None Proximity_default None None Proximity_default
       (m_screenPointOnSegment h) (m_ptrNearestZoneSpline h) false).

(** [onProximityUpdate(mouse_pos, interaction, shiftState)]: the handler
    after the call and the calls of [interaction.updateProximity] it
    makes, in order. *)
Definition onProximityUpdate (mouse_pos : QPointF) (shiftState : ShiftState)
    (zones : list Zone) (h : Handler) : Handler * list Claim :=
  let sc := scan_zones mouse_pos h zones in
  let best_v := best_vertex_proximity sc in
  let best_s := best_segment_proximity sc in
  let registered :=
    [mkClaim VertexProximity best_v 1 None;
     mkClaim SegmentProximity best_s 0 None] in
  let zone_area_proximity := std_min best_v best_s in
  let registered :=
    if has_zone_under_mouse sc
    then registered ++
         [mkClaim ZoneAreaProximity zone_area_proximity (-1) (Some zone_area_proximity)]
    else registered in
  let cursor :=
    if has_zone_under_mouse sc then
      if ShiftState_eqb shiftState ShiftStatePressed ||
         (ShiftState_eqb shiftState ShiftStateUnknown &&
          ShiftState_eqb (m_lastMovingState h) ShiftStatePressed)
      then DragMoveCursor else DefaultCursor
    else DefaultCursor in
  let moving :=
    if negb (ShiftState_eqb shiftState ShiftStateUnknown)
    then shiftState else m_lastMovingState h in
  (mkHandler mouse_pos
     (nearest_vertex sc) (nearest_vertex_spline sc)
     (nearest_segment sc) (nearest_segment_spline sc)
     (nearest_zone_spline sc) (screen_point_on_segment sc)
     moving cursor (m_dragWatcher_haveSignificantDrag h),
   registered).

End Geometry.

(** The outcome of an event callback for the handler chain: the handler
    stays, or it has put the named handler before itself and deleted
    itself; and whether the event was accepted. *)
Inductive Successor :=
| DragInteraction (zone_spline : option nat) (vertex : option (nat * nat))
| VertexDragInteraction (vertex_spline : option nat) (vertex : option (nat * nat))
| SplitVertexDragInteraction (segment_spline : option nat)
    (segment : option (nat * (nat * nat))) (at_point : QPointF)
| ZoneCreationInteraction.

Inductive Transition := Stay | ReplaceSelfWith (s : Successor).

Record Outcome := mkOutcome {
  transition : Transition;
  accepted : bool
}.

Inductive MouseButton := LeftButton | RightButton | MidButton.

Definition MouseButton_eqb (a b : MouseButton) : bool :=
  match a, b with
  | LeftButton, LeftButton => true
  | RightButton, RightButton => true
  | MidButton, MidButton => true
  | _, _ => false
  end.

(** The mouse event: the button that caused it, and whether its modifiers
    match one of ZoneMove, ZoneMoveHorizontally, ZoneMoveVertically. *)
Record QMouseEvent := mkMouseEvent {
  button : MouseButton;
  move_modifiers : bool
}.

(** Modelled from the spec: DragHandler.h is missing; [isActive] of a
    handler holds iff it holds the capture. *)
Definition m_dragHandler_isActive (interaction : InteractionState) : bool :=
  capturedBy interaction DragHandlerOfDefault.

(** [onMouseReleaseEvent]. *)
Definition onMouseReleaseEvent (event : QMouseEvent) (interaction : InteractionState)
    (h : Handler) : Outcome :=
  if negb (MouseButton_eqb (button event) LeftButton) then mkOutcome Stay false
  else if negb (captured interaction) then mkOutcome Stay false
  else if negb (m_dragHandler_isActive interaction) || m_dragWatcher_haveSignificantDrag h
  then mkOutcome Stay false
  else mkOutcome (ReplaceSelfWith ZoneCreationInteraction) true.

(** [onMousePressEvent]; [from_screen] is the map of
    [imageView().widgetToImage()]. *)
Definition onMousePressEvent (order : PriorityOrder) (from_screen : QPointF -> QPointF)
    (event : QMouseEvent) (interaction : InteractionState) (h : Handler) : Outcome :=
  if captured interaction then mkOutcome Stay false
  else
    let after_zone :=
      if proximityLeader order interaction ZoneAreaProximity && move_modifiers event
      then mkOutcome
             (ReplaceSelfWith (DragInteraction (m_ptrNearestZoneSpline h) (m_ptrNearestVertex h)))
             true
      else mkOutcome Stay false in
    if negb (MouseButton_eqb (button event) LeftButton) then after_zone
    else if proximityLeader order interaction VertexProximity
    then mkOutcome
           (ReplaceSelfWith
              (VertexDragInteraction (m_ptrNearestVertexSpline h) (m_ptrNearestVertex h)))
           true
    else if proximityLeader order interaction SegmentProximity
    then mkOutcome
           (ReplaceSelfWith
              (SplitVertexDragInteraction (m_ptrNearestSegmentSpline h) (m_nearestSegment h)
                 (from_screen (m_screenPointOnSegment h))))
           true
    else after_zone.

End ZoneDefaultInteraction.

(* ================================================================== *)
(** * Part II.  The notions of the statements                           *)
(* ================================================================== *)

Module ColorPickupSpec.
Import Zones ColorPickupInteraction.

(** The 256 values of a byte. *)
Definition bytes : list Z := range 256.

(** Table [k] of the unmixing tables sends the bitwise or of any two
    bytes to the bitwise or of their entries. *)
Definition unmix_linear_check (k : nat) : bool :=
  forallb (fun x => forallb (fun y =>
    lookup m_sBitUnmixingLUT k (Z.lor x y) =?
    Z.lor (lookup m_sBitUnmixingLUT k x) (lookup m_sBitUnmixingLUT k y)) bytes) bytes.

(** The byte of [m] that starts at bit [k]. *)
Definition byte_of (k : Z) (m : Z) : Z := Z.land (Z.shiftr m k) 0xff.

(** Unmixing an entry of mixing table [k] gives the sample back, moved up
    by [sh] bits. *)
Definition unmix_of_mix_check (k : nat) (sh : Z) : bool :=
  forallb (fun s => bitUnmixColor (lookup m_sBitMixingLUT k s) =? Z.shiftl s sh) bytes.

Fixpoint count (f : Z -> bool) (l : list Z) : nat :=
  match l with
  | [] => 0
  | a :: l' => (if f a then 1 else 0) + count f l'
  end.

Definition count_lt (k : Z) : list Z -> nat := count (fun a => a <? k).
Definition count_le (k : Z) : list Z -> nat := count (fun a => a <=? k).

(** [k] has rank [r] among the keys [l]: it is one of them, at most [r]
    keys are below it and more than [r] keys are not above it, so that [k]
    stands at position [r] (counted from 0) in every sorted arrangement. *)
Definition has_rank (l : list Z) (r : nat) (k : Z) : Prop :=
  In k l /\ (count_lt k l <= r < count_le k l)%nat.

Definition blank_state : State :=
  {| m_dontDrawCircle := 0;
     m_ptrFillColorProp := QColor_rgb 0xffffff;
     defaultProperties := {| fillColorProperty := None; otherProperties := [] |};
     commits := 0 |}.

(** A capture of 15 by 15 pixels of one colour. *)
Definition uniform_capture : QImage :=
  {| bits := repeat 0xff336699 225; bytesPerLine := 60 |}.

End ColorPickupSpec.

Module MarginsSpec.
Import Margins.

Definition sample_margins : MarginsWithAuto :=
  mkMarginsWithAuto (Margins_ctor 1 2 3 4) None.

Definition sample_setters : list Setter :=
  [SetTop 10; SetLeft 20; SetBottom 30; SetRight 40; SetTop 50].

End MarginsSpec.

Module AlignmentSpec.
Import Alignment.

(** Writing an alignment with [toXml] and reading the element back with
    the constructor. *)
Definition roundtrip (number : Q -> string) (toDouble : string -> Q)
    (DEFAULT_TOLERANCE : Q) (a : Alignment) (name : string) : Alignment :=
  fromXml number toDouble DEFAULT_TOLERANCE (toXml number a name).

End AlignmentSpec.

Module RasterOpSpec.
Import RasterOpGeneric.

(** All pixels of a [w] by [h] image, row by row. *)
Definition pixels (w h : Z) : Calls :=
  flat_map (fun y => map (fun x => (x, y)) (range w)) (range h).

Definition size_mismatch : Exit := Thrown "rasterOpGeneric: size mismatch".

(** The element of pixel [(x, y)] of a grid. *)
Definition elem {T : Type} (g : GridAccessor T) (x y : Z) : T :=
  data g (y * stride g + x).

(** The place [j] of the buffer of a grid holds no pixel of the grid. *)
Definition outside {T : Type} (g : GridAccessor T) (j : Z) : Prop :=
  forall x y, 0 <= x < width g -> 0 <= y < height g -> y * stride g + x <> j.

(** The lines of a grid do not overlap. *)
Definition lines_apart {T : Type} (g : GridAccessor T) : Prop :=
  width g <= Z.abs (stride g).

(** The grid [g'] is the grid [g] with other elements. *)
Definition same_layout {T : Type} (g g' : GridAccessor T) : Prop :=
  stride g' = stride g /\ width g' = width g /\ height g' = height g.

(** The bit of pixel [(x, y)] of a binary image, as the loops find it. *)
Definition bit_at (img : BinaryImage) (x y : Z) : Z :=
  BitProxy_read (bi_data img (y * wordsPerLine img + Z.shiftr x 5)) (31 - Z.land x 31).

(** Bit [s] of word [j] of a binary image is the bit of none of its
    pixels. *)
Definition bit_outside (img : BinaryImage) (j s : Z) : Prop :=
  forall x y, 0 <= x < bi_width img -> 0 <= y < bi_height img ->
    ~ (y * wordsPerLine img + Z.shiftr x 5 = j /\ 31 - Z.land x 31 = s).

(** The lines of a binary image do not overlap. *)
Definition bit_lines_apart (img : BinaryImage) : Prop :=
  bi_width img <= 32 * Z.abs (wordsPerLine img).

(** The image [img'] is the image [img] with other words. *)
Definition same_image_layout (img img' : BinaryImage) : Prop :=
  isNull img' = isNull img /\ bi_width img' = bi_width img /\
  bi_height img' = bi_height img /\ wordsPerLine img' = wordsPerLine img.

(** The operation assigns nothing but 0 and 1 to the bit it is given. *)
Definition assigns_bits {T2 : Type} (op : Z -> T2 -> option Z * T2) : Prop :=
  forall bit v b, fst (op bit v) = Some b -> 0 <= b <= 1.

(** The bit a pixel has after an invocation that read [bit] there. *)
Definition bit_after (assigned : option Z) (bit : Z) : Z :=
  match assigned with Some b => b | None => bit end.

Definition sample_grid (w h : Z) : GridAccessor Z :=
  mkGrid (fun i => i) w w h.

(** A 2 by 2 grid with the elements 10, 11 and 20, 21, three elements a
    line. *)
Definition tens_grid : GridAccessor Z :=
  mkGrid (fun i => 10 + 10 * (i / 3) + i mod 3) 3 2 2.

End RasterOpSpec.

Module PasteSpec.
Import Zones Interaction ZoneDefaultInteraction.

Section Notions.
Variable QTransform : Type.
Variable QTransform_identity : QTransform.
Variable translate : QTransform -> Q -> Q -> QTransform.
Variable QTransform_map : QTransform -> QPolygonF -> QPolygonF.
Variable QPolygonF_equal : QPolygonF -> QPolygonF -> bool.

(** The test of one round of the loop: the polygon [p] equals that of
    some zone. *)
Definition found (zs : EditableZoneSet) (p : QPolygonF) : bool :=
  existsb (fun zone =>
    QPolygonF_equal p (SerializableSpline_toPolygon (spline zone))) (m_zones zs).

(** [p] moved [k] times by the offset (100, 100). *)
Definition shifted (k : nat) (p : QPolygonF) : QPolygonF :=
  Nat.iter k (QTransform_map (translate QTransform_identity 100 100)) p.

(** The zone set with the polygon [p] pasted: one zone more, with the
    default properties, and one commit more. *)
Definition pasted (zs : EditableZoneSet) (p : QPolygonF) (zs' : EditableZoneSet) : Prop :=
  m_zones zs' = m_zones zs ++ [mkZone (EditableSpline_of_polygon p) (m_defaultProps zs)] /\
  published zs' = published zs ++ [m_zones zs'] /\
  m_defaultProps zs' = m_defaultProps zs.

(** Offset [k] is the first where [p] equals the polygon of no zone. *)
Definition first_free (zs : EditableZoneSet) (p : QPolygonF) (k : nat) : Prop :=
  (forall i, (i < k)%nat -> found zs (shifted i p) = true) /\
  found zs (shifted k p) = false.

End Notions.

(** An instance of the Qt operations for the example below: a transform
    is a translation, kept as its offset, and two polygons are equal
    when their points are.  On whole coordinates below 10^12 in
    magnitude, as in the example, the additions of [double] are exact
    and the fuzzy comparison of two points is their equality. *)
Definition Offset : Type := Q * Q.
Definition no_offset : Offset := (0, 0)%Q.
Definition add_offset (t : Offset) (dx dy : Q) : Offset := (fst t + dx, snd t + dy)%Q.
Definition move_by (t : Offset) (p : QPolygonF) : QPolygonF :=
  map (fun pt => (fst pt + fst t, snd pt + snd t)%Q) p.

Fixpoint same_points (p q : QPolygonF) : bool :=
  match p, q with
  | [], [] => true
  | a :: p', b :: q' =>
    Qeq_bool (fst a) (fst b) && Qeq_bool (snd a) (snd b) && same_points p' q'
  | _, _ => false
  end.

Definition triangle : QPolygonF := [(0, 0); (10, 0); (0, 10)]%Q.

Definition no_props : PropertySet :=
  {| fillColorProperty := None; otherProperties := [] |}.

(** Two zones: the triangle, and the triangle moved once. *)
Definition two_duplicates : EditableZoneSet :=
  mkZoneSet [mkZone triangle no_props;
             mkZone [(100, 100); (110, 100); (100, 110)]%Q no_props] no_props [].

End PasteSpec.

Module ArbitrationSpec.
Import Interaction.

Definition candidate (c : Claim) : Prop := claim_proximity c <> Infinite.

(** The leader after the claims [seen]: none if no claim is a candidate,
    else a candidate among them that none of them is better than. *)
Definition leads (order : PriorityOrder) (seen : list Claim) (best : option Claim) : Prop :=
  match best with
  | None => forall c, In c seen -> claim_proximity c = Infinite
  | Some b =>
    In b seen /\ candidate b /\
    forall c, In c seen -> candidate c -> betterProximity order c b = false
  end.

Definition vertex_claim (d : Q) : Claim := mkClaim VertexProximity (Finite d) 1 None.
Definition segment_claim (d : Q) : Claim := mkClaim SegmentProximity (Finite d) 0 None.

Definition sample_cycle : list Claim :=
  [segment_claim 4; vertex_claim 4; mkClaim ZoneAreaProximity (Finite 4) (-1) (Some (Finite 4))].

End ArbitrationSpec.

Module DefaultInteractionSpec.
Import Interaction ZoneDefaultInteraction.

Definition idle_handler : Handler :=
  mkHandler (10, 10)%Q None None None None None (0, 0)%Q ShiftStateUnknown DefaultCursor false.

Definition left_release : QMouseEvent := mkMouseEvent LeftButton false.

(** No handler holds the capture and no claim is registered. *)
Definition free_interaction : InteractionState := mkInteractionState None [].

(** The nearer of the best proximity so far and a new one, as the two
    inner loops keep it. *)
Definition closer (best p : Proximity) : Proximity :=
  if Proximity_ltb p best then p else best.

Section Geometry.
Variable to_screen : QPointF -> QPointF.
Variable path_contains : EditableSpline -> QPointF -> bool.
Variable Proximity_points : QPointF -> QPointF -> Proximity.
Variable pointAndLineSegment : QPointF -> QLineF -> Proximity * QPointF.

(** The proximities of the vertices and of the segments of a spline, and
    of all zones, in the order the loops meet them. *)
Definition vertex_proximities (mouse_pos : QPointF) (s : EditableSpline) : list Proximity :=
  map (fun vi => Proximity_points mouse_pos (to_screen (nth vi s (0, 0)%Q)))
      (seq 0 (List.length s)).

Definition segment_proximities (mouse_pos : QPointF) (s : EditableSpline) : list Proximity :=
  map (fun seg =>
         fst (pointAndLineSegment mouse_pos
                (to_screen (nth (fst seg) s (0, 0)%Q), to_screen (nth (snd seg) s (0, 0)%Q))))
      (segments s).

Definition all_vertex_proximities (mouse_pos : QPointF) (zones : list Zone) : list Proximity :=
  flat_map (fun zone => vertex_proximities mouse_pos (spline zone)) zones.

Definition all_segment_proximities (mouse_pos : QPointF) (zones : list Zone) : list Proximity :=
  flat_map (fun zone => segment_proximities mouse_pos (spline zone)) zones.

(** The position of the first zone whose polygon contains the point,
    counted from [i]. *)
Fixpoint first_containing (pt : QPointF) (i : nat) (zones : list Zone) : option nat :=
  match zones with
  | [] => None
  | zone :: rest =>
    if path_contains (spline zone) pt then Some i else first_containing pt (S i) rest
  end.

(** What is remembered of the nearest vertex: nothing, the best
    proximity being the sentinel, or a vertex of a zone together with the
    position of that zone, its proximity being the best and no
    sentinel. *)
Definition vertex_known (mouse_pos : QPointF) (zones : list Zone)
    (nearest : option (nat * nat)) (nearest_spline : option nat) (best : Proximity)
    : Prop :=
  match nearest with
  | None => nearest_spline = None /\ best = Proximity_default
  | Some (zi, vi) =>
    nearest_spline = Some zi /\
    exists zone,
      nth_error zones zi = Some zone /\ (vi < List.length (spline zone))%nat /\
      best = Proximity_points mouse_pos (to_screen (nth vi (spline zone) (0, 0)%Q)) /\
      best <> Proximity_default
  end.

(** The same of the nearest segment, with the point on it; [point0] is
    the point remembered before. *)
Definition segment_known (mouse_pos : QPointF) (zones : list Zone)
    (nearest : option (nat * (nat * nat))) (nearest_spline : option nat)
    (best : Proximity) (point point0 : QPointF) : Prop :=
  match nearest with
  | None => nearest_spline = None /\ best = Proximity_default /\ point = point0
  | Some (zi, seg) =>
    nearest_spline = Some zi /\
    exists zone,
      nth_error zones zi = Some zone /\ In seg (segments (spline zone)) /\
      pointAndLineSegment mouse_pos
        (to_screen (nth (fst seg) (spline zone) (0, 0)%Q),
         to_screen (nth (snd seg) (spline zone) (0, 0)%Q)) = (best, point) /\
      best <> Proximity_default
  end.

End Geometry.

(** A concrete geometry for examples: the screen is the image, every
    polygon contains every point, the proximity of two points is their
    squared distance and the proximity of a segment that of its first end. *)
Definition sq_distance (a b : QPointF) : Proximity :=
  Finite ((fst a - fst b) * (fst a - fst b) + (snd a - snd b) * (snd a - snd b))%Q.

Definition sample_update (zones : list Zone) (h : Handler) : Handler * list Claim :=
  onProximityUpdate (fun pt => pt) (fun pt => pt) (fun _ _ => true) sq_distance
    (fun pt line => (sq_distance pt (fst line), fst line))
    (0, 0)%Q ShiftStateUnknown zones h.

Definition triangle_zone : Zone :=
  mkZone [(0, 0); (10, 0); (0, 10)]%Q
    {| Zones.fillColorProperty := None; Zones.otherProperties := [] |}.

End DefaultInteractionSpec.

(* ================================================================== *)
(** * Part III.  Properties                                             *)
(* ================================================================== *)

(** ** Loops and counted ranges *)

Lemma in_range (n i : Z) : In i (range n) <-> 0 <= i < n.
Proof.
  unfold range. rewrite in_map_iff. split.
  - intros [k [<- Hk]]. apply in_seq in Hk. lia.
  - intros H. exists (Z.to_nat i). split; [lia|]. apply in_seq. lia.
Qed.

Lemma range_nonpos (n : Z) : n <= 0 -> range n = [].
Proof.
  intros H. unfold range. replace (Z.to_nat n) with 0%nat by lia. reflexivity.
Qed.

(** ** The bit mixing tables *)

Section BitMixing.
Import ColorPickupInteraction ColorPickupSpec.

Lemma in_bytes x : 0 <= x < 256 -> In x bytes.
Proof. intros H. now apply in_range. Qed.

Lemma land_ff_range x : 0 <= Z.land x 0xff < 256.
Proof.
  change 0xff with (Z.ones 8). rewrite Z.land_ones by lia.
  apply Z.mod_pos_bound. reflexivity.
Qed.

(** Each unmixing table sends a bitwise or of two bytes to the bitwise or
    of their entries; checked on the 65536 pairs of each table. *)
Lemma unmix_linear_checked :
  forallb unmix_linear_check [0%nat; 1%nat; 2%nat] = true.
Proof. vm_compute. reflexivity. Qed.

Lemma unmix_linear k x y : (k < 3)%nat -> 0 <= x < 256 -> 0 <= y < 256 ->
  lookup m_sBitUnmixingLUT k (Z.lor x y) =
  Z.lor (lookup m_sBitUnmixingLUT k x) (lookup m_sBitUnmixingLUT k y).
Proof.
  intros Hk Hx Hy.
  assert (H : unmix_linear_check k = true).
  { pose proof unmix_linear_checked as C. rewrite forallb_forall in C.
    apply C. destruct k as [|[|[|k]]]; simpl; auto. lia. }
  unfold unmix_linear_check in H.
  rewrite forallb_forall in H. specialize (H x (in_bytes x Hx)).
  rewrite forallb_forall in H. specialize (H y (in_bytes y Hy)).
  now apply Z.eqb_eq.
Qed.

Lemma byte_of_lor k a b : byte_of k (Z.lor a b) = Z.lor (byte_of k a) (byte_of k b).
Proof. unfold byte_of. now rewrite Z.shiftr_lor, Z.land_lor_distr_l. Qed.

Lemma byte_of_range k m : 0 <= byte_of k m < 256.
Proof. apply land_ff_range. Qed.

Lemma bitUnmixColor_bytes m :
  bitUnmixColor m =
  Z.lor (Z.lor (lookup m_sBitUnmixingLUT 0 (byte_of 16 m))
               (lookup m_sBitUnmixingLUT 1 (byte_of 8 m)))
        (lookup m_sBitUnmixingLUT 2 (byte_of 0 m)).
Proof. unfold bitUnmixColor, byte_of. now rewrite Z.shiftr_0_r. Qed.

(** Hence [bitUnmixColor] itself distributes over bitwise or. *)
Lemma bitUnmixColor_lor a b :
  bitUnmixColor (Z.lor a b) = Z.lor (bitUnmixColor a) (bitUnmixColor b).
Proof.
  rewrite !bitUnmixColor_bytes, !byte_of_lor.
  rewrite !unmix_linear by (try lia; apply byte_of_range).
  apply Z.bits_inj'; intros n _. rewrite !Z.lor_spec. btauto.
Qed.

(** Unmixing the entry of a single channel gives that channel back in its
    place; checked on the 256 samples of each mixing table. *)
Lemma unmix_of_mix_checked :
  unmix_of_mix_check 0 16 && unmix_of_mix_check 1 8 && unmix_of_mix_check 2 0 = true.
Proof. vm_compute. reflexivity. Qed.

Lemma unmix_of_mix k sh s :
  In (k, sh) [(0%nat, 16); (1%nat, 8); (2%nat, 0)] -> 0 <= s < 256 ->
  bitUnmixColor (lookup m_sBitMixingLUT k s) = Z.shiftl s sh.
Proof.
  intros Hk Hs. pose proof unmix_of_mix_checked as C.
  apply andb_prop in C. destruct C as [C C2]. apply andb_prop in C. destruct C as [C0 C1].
  assert (H : unmix_of_mix_check k sh = true).
  { simpl in Hk. destruct Hk as [E|[E|[E|[]]]]; inversion E; subst; assumption. }
  unfold unmix_of_mix_check in H. rewrite forallb_forall in H.
  apply Z.eqb_eq, H, in_bytes, Hs.
Qed.

Lemma testbit_ff n : 0 <= n -> Z.testbit 0xff n = (n <? 8).
Proof.
  intros Hn. change 0xff with (Z.ones 8).
  destruct (Z.ltb_spec n 8).
  - apply Z.ones_spec_low. lia.
  - apply Z.ones_spec_high. lia.
Qed.

(** A 24-bit value is the or of its three bytes, each in its place. *)
Lemma rgb_channels c : 0 <= c < 2 ^ 24 ->
  Z.lor (Z.lor (Z.shiftl (Z.land (Z.shiftr c 16) 0xff) 16)
               (Z.shiftl (Z.land (Z.shiftr c 8) 0xff) 8))
        (Z.shiftl (Z.land c 0xff) 0) = c.
Proof.
  intros Hc. rewrite Z.shiftl_0_r. apply Z.bits_inj'. intros n Hn.
  rewrite !Z.lor_spec, !Z.shiftl_spec by lia.
  destruct (Z.ltb_spec n 8).
  - rewrite (Z.testbit_neg_r _ (n - 16)), (Z.testbit_neg_r _ (n - 8)) by lia.
    rewrite Z.land_spec, testbit_ff by lia. simpl.
    replace (n <? 8) with true by (symmetry; apply Z.ltb_lt; lia).
    now rewrite andb_true_r.
  - rewrite (Z.land_spec c), (testbit_ff n) by lia.
    replace (n <? 8) with false by (symmetry; apply Z.ltb_ge; lia).
    rewrite andb_false_r, orb_false_r.
    destruct (Z.ltb_spec n 16).
    + rewrite (Z.testbit_neg_r _ (n - 16)) by lia. simpl.
      rewrite Z.land_spec, Z.shiftr_spec, testbit_ff by lia.
      replace (n - 8 <? 8) with true by (symmetry; apply Z.ltb_lt; lia).
      rewrite andb_true_r. f_equal. lia.
    + rewrite !Z.land_spec, !Z.shiftr_spec, !testbit_ff by lia.
      replace (n - 8 <? 8) with false by (symmetry; apply Z.ltb_ge; lia).
      rewrite andb_false_r, orb_false_r.
      replace (n - 16 + 16) with n by lia.
      destruct (Z.ltb_spec (n - 16) 8).
      * now rewrite andb_true_r.
      * rewrite andb_false_r. symmetry.
        apply (Z.bits_above_log2 c n); [lia|].
        destruct (Z.eq_dec c 0) as [->|]; [simpl; lia|].
        assert (Z.log2 c < 24) by (apply Z.log2_lt_pow2; lia). lia.
Qed.

(** C1.  For every 24-bit RGB colour value [c], un-mixing the bit-mixed
    colour gives [c] back: [bitUnmixColor (bitMixColor c) = c]. *)
Theorem bitUnmixColor_bitMixColor (c : Z) :
  0 <= c < 2 ^ 24 -> bitUnmixColor (bitMixColor c) = c.
Proof.
  intros Hc. unfold bitMixColor.
  rewrite !bitUnmixColor_lor.
  rewrite (unmix_of_mix 0 16), (unmix_of_mix 1 8), (unmix_of_mix 2 0)
    by (try apply land_ff_range; simpl; auto).
  now apply rgb_channels.
Qed.

Lemma bitUnmixColor_bitMixColor_witness :
  0 <= 0x8040c1 < 2 ^ 24 /\ bitUnmixColor (bitMixColor 0x8040c1) = 0x8040c1.
Proof.
  split; [lia|]. apply (bitUnmixColor_bitMixColor 0x8040c1). lia.
Defined.

End BitMixing.

(** ** Taking the colour under the pointer *)

Section TakeColor.
Import Zones ColorPickupInteraction ColorPickupSpec.

Lemma targetBoundingRect_size (mx my : Z) :
  rect_width (targetBoundingRect mx my) = 15 /\
  rect_height (targetBoundingRect mx my) = 15.
Proof. unfold rect_width, rect_height, targetBoundingRect, moveCenter; simpl. lia. Qed.

(** The positions pushed by the two loops. *)
Lemma in_sampled_positions (width height x y : Z) :
  In (x, y) (sampled_positions width height) <->
  0 <= x < width /\ 0 <= y < height /\
  (x - Z.quot width 2) * (x - Z.quot width 2) +
  (y - Z.quot height 2) * (y - Z.quot height 2) <= Z.quot width 2 * Z.quot height 2.
Proof.
  unfold sampled_positions. rewrite in_flat_map. split.
  - intros [y' [Hy H]]. apply in_range in Hy.
    rewrite in_flat_map in H. destruct H as [x' [Hx H]]. apply in_range in Hx.
    destruct (Z.leb_spec
      ((y' - Z.quot height 2) * (y' - Z.quot height 2) +
       (x' - Z.quot width 2) * (x' - Z.quot width 2))
      (Z.quot width 2 * Z.quot height 2)) as [Hle|Hgt]; simpl in H.
    + destruct H as [E|[]]. inversion E; subst. lia.
    + destruct H.
  - intros (Hx & Hy & Hd). exists y. split; [now apply in_range|].
    rewrite in_flat_map. exists x. split; [now apply in_range|].
    destruct (Z.leb_spec
      ((y - Z.quot height 2) * (y - Z.quot height 2) +
       (x - Z.quot width 2) * (x - Z.quot width 2))
      (Z.quot width 2 * Z.quot height 2)) as [Hle|Hgt]; simpl; [auto|lia].
Qed.

(** *** Ranks in a list of keys *)

Lemma count_perm (f : Z -> bool) (l l' : list Z) :
  Permutation l l' -> count f l = count f l'.
Proof. induction 1; simpl; lia. Qed.

Lemma count_le_length (f : Z -> bool) (l : list Z) : (count f l <= List.length l)%nat.
Proof. induction l as [|a l IH]; simpl; [lia|]. destruct (f a); lia. Qed.

Lemma count_le_lt_mono (l : list Z) (a b : Z) :
  a < b -> (count_le a l <= count_lt b l)%nat.
Proof.
  intros Hab. unfold count_le, count_lt.
  induction l as [|c l IH]; simpl; [lia|].
  destruct (Z.leb_spec c a), (Z.ltb_spec c b); lia.
Qed.

Lemma has_rank_unique (l : list Z) (r : nat) (k1 k2 : Z) :
  has_rank l r k1 -> has_rank l r k2 -> k1 = k2.
Proof.
  intros [_ H1] [_ H2].
  destruct (Z.lt_trichotomy k1 k2) as [H|[H|H]]; [|assumption|].
  - pose proof (count_le_lt_mono l _ _ H). lia.
  - pose proof (count_le_lt_mono l _ _ H). lia.
Qed.

Lemma insert_sorted_perm (a : Z) (l : list Z) : Permutation (insert_sorted a l) (a :: l).
Proof.
  induction l as [|b l IH]; simpl; [reflexivity|].
  destruct (a <=? b); [reflexivity|].
  rewrite IH. apply perm_swap.
Qed.

Lemma sort_perm (l : list Z) : Permutation (sort l) l.
Proof.
  induction l as [|a l IH]; simpl; [reflexivity|].
  rewrite insert_sorted_perm. now constructor.
Qed.

Lemma insert_sorted_sorted (a : Z) (l : list Z) :
  StronglySorted Z.le l -> StronglySorted Z.le (insert_sorted a l).
Proof.
  induction 1 as [|b l Hs IH Hall]; simpl.
  - repeat constructor.
  - destruct (Z.leb_spec a b).
    + constructor; [now constructor|].
      constructor; [assumption|].
      eapply Forall_impl; [|exact Hall]. intros; simpl in *; lia.
    + constructor; [assumption|].
      eapply Permutation_Forall; [symmetry; apply insert_sorted_perm|].
      constructor; [lia|assumption].
Qed.

Lemma sort_sorted (l : list Z) : StronglySorted Z.le (sort l).
Proof.
  induction l as [|a l IH]; simpl; [constructor|].
  now apply insert_sorted_sorted.
Qed.

Lemma count_lt_below (a : Z) (l : list Z) :
  Forall (Z.le a) l -> count_lt a l = 0%nat.
Proof.
  unfold count_lt. induction 1 as [|b l Hb _ IH]; simpl; [reflexivity|].
  destruct (Z.ltb_spec b a); lia.
Qed.

Lemma count_lt_cons (k a : Z) (l : list Z) :
  count_lt k (a :: l) = ((if (a <? k)%Z then 1 else 0) + count_lt k l)%nat.
Proof. reflexivity. Qed.

Lemma count_le_cons (k a : Z) (l : list Z) :
  count_le k (a :: l) = ((if (a <=? k)%Z then 1 else 0) + count_le k l)%nat.
Proof. reflexivity. Qed.

Lemma sorted_rank (s : list Z) (i : nat) :
  StronglySorted Z.le s -> (i < List.length s)%nat ->
  (count_lt (nth i s 0%Z) s <= i < count_le (nth i s 0%Z) s)%nat.
Proof.
  intros Hs. revert i. induction Hs as [|a t Hs IH Hall]; intros i Hi; simpl in Hi.
  - lia.
  - rewrite count_lt_cons, count_le_cons.
    destruct i as [|j]; simpl nth.
    + rewrite (count_lt_below a t Hall).
      destruct (Z.ltb_spec a a), (Z.leb_spec a a); lia.
    + assert (Hj : (j < List.length t)%nat) by lia.
      specialize (IH j Hj).
      assert (Ha : a <= nth j t 0).
      { rewrite Forall_forall in Hall. apply Hall, nth_In, Hj. }
      destruct (Z.ltb_spec a (nth j t 0)), (Z.leb_spec a (nth j t 0)); lia.
Qed.

(** [std::nth_element] at position [n] selects the key of rank [n]. *)
Lemma nth_element_rank (l : list Z) (n : nat) :
  (n < List.length l)%nat -> has_rank l n (nth_element l n).
Proof.
  intros Hn. unfold nth_element, has_rank.
  pose proof (sort_perm l) as P.
  assert (Hn' : (n < List.length (sort l))%nat)
    by now rewrite (Permutation_length P).
  split.
  - eapply Permutation_in; [exact P|]. now apply nth_In.
  - unfold count_lt, count_le.
    rewrite <- !(count_perm _ _ _ P).
    apply (sorted_rank _ _ (sort_sorted l) Hn').
Qed.

Lemma center_sampled : In (7, 7) (sampled_positions 15 15).
Proof. apply in_sampled_positions. simpl. lia. Qed.


(** C6.  If the pixel capture is empty (no pixmap, or no pixel satisfying
    the circular mask), [takeColor] changes nothing: the fill colour
    property, the default properties and the commits are as before. *)
Theorem takeColor_empty_capture (width height : Z) (pixmap : option QImage) (st : State) :
  match pixmap with
  | None => True
  | Some image => bitmixed_colors image width height = []
  end ->
  takeColor_in width height pixmap st = st /\
  (forall mx my, takeColor mx my None st = st).
Proof.
  intros H.
  assert (same : forall s : State,
    {| m_dontDrawCircle := m_dontDrawCircle s + 1 - 1;
       m_ptrFillColorProp := m_ptrFillColorProp s;
       defaultProperties := defaultProperties s;
       commits := commits s |} = s).
  { intros [d f p c]. simpl. f_equal. lia. }
  split.
  - unfold takeColor_in. destruct pixmap as [image|]; [rewrite H|]; apply same.
  - intros mx my. unfold takeColor, takeColor_in. apply same.
Qed.

Lemma takeColor_empty_capture_witness :
  takeColor_in 0 0 (Some {| bits := []; bytesPerLine := 0 |}) blank_state = blank_state /\
  (forall mx my, takeColor mx my None blank_state = blank_state).
Proof.
  apply (takeColor_empty_capture 0 0 (Some {| bits := []; bytesPerLine := 0 |}) blank_state).
  reflexivity.
Defined.

End TakeColor.

(** ** Margins with automatic margins *)

Section AutoMargins.
Import Margins MarginsSpec.

Lemma call_backup (s : Setter) (m : MarginsWithAuto) :
  m_backuppedData (call s m) = m_backuppedData m.
Proof. destruct s; reflexivity. Qed.

Lemma calls_backup (l : list Setter) (m : MarginsWithAuto) :
  m_backuppedData (calls l m) = m_backuppedData m.
Proof.
  unfold calls. revert m. induction l as [|s l IH]; intros m; simpl; [reflexivity|].
  rewrite IH. apply call_backup.
Qed.

Lemma calls_app (l1 l2 : list Setter) (m : MarginsWithAuto) :
  calls (l1 ++ l2) m = calls l2 (calls l1 m).
Proof. unfold calls. apply fold_left_app. Qed.

(** C9.  For a [MarginsWithAuto] with automatic margins disabled,
    [setAutoMargins(true)], then any sequence of calls of [setTop],
    [setBottom], [setLeft], [setRight], then [setAutoMargins(false)]
    restores the four margins held at the moment of enabling;
    [isAutoMarginsEnabled()] is true exactly after the enabling and before
    the disabling, whatever setters have run; and the assignment of a
    plain [Margins] changes the four margins and nothing of the automatic
    margins state. *)
Theorem setAutoMargins_restores (m : MarginsWithAuto) (l : list Setter) :
  isAutoMarginsEnabled m = false ->
  let enabled := setAutoMargins true m in
  let edited := calls l enabled in
  let disabled := setAutoMargins false edited in
  (top disabled = top m /\ bottom disabled = bottom m /\
   left disabled = left m /\ right disabled = right m) /\
  base enabled = base m /\
  (forall l1 l2, l = l1 ++ l2 -> isAutoMarginsEnabled (calls l1 enabled) = true) /\
  isAutoMarginsEnabled disabled = false /\
  (forall w : MarginsWithAuto,
     isAutoMarginsEnabled w = true <-> exists saved, backup w = Some saved) /\
  (forall (rhs : Margins) (w : MarginsWithAuto),
     base (assign rhs w) = rhs /\
     m_backuppedData (assign rhs w) = m_backuppedData w /\
     isAutoMarginsEnabled (assign rhs w) = isAutoMarginsEnabled w).
Proof.
  intros Hoff enabled edited disabled.
  destruct m as [b bk]. unfold isAutoMarginsEnabled in Hoff. simpl in Hoff.
  destruct bk as [saved|]; [discriminate|].
  assert (He : enabled = {| base := b; m_backuppedData := Some b |}) by reflexivity.
  assert (Hbk : forall l', m_backuppedData (calls l' enabled) = Some b).
  { intros l'. rewrite calls_backup, He. reflexivity. }
  assert (Hd : disabled = {| base := b; m_backuppedData := None |}).
  { unfold disabled, setAutoMargins, isAutoMarginsEnabled, restoreValues.
    unfold edited. rewrite Hbk. reflexivity. }
  repeat split.
  - now rewrite Hd.
  - now rewrite Hd.
  - now rewrite Hd.
  - now rewrite Hd.
  - intros l1 l2 _. unfold isAutoMarginsEnabled. now rewrite Hbk.
  - now rewrite Hd.
  - unfold isAutoMarginsEnabled, backup. destruct (m_backuppedData w); eauto. discriminate.
  - unfold isAutoMarginsEnabled, backup. intros [saved ->]. reflexivity.
Qed.

Lemma setAutoMargins_restores_witness :
  top (setAutoMargins false (calls sample_setters (setAutoMargins true sample_margins)))
    = top sample_margins /\
  isAutoMarginsEnabled (calls sample_setters (setAutoMargins true sample_margins)) = true.
Proof.
  destruct (setAutoMargins_restores sample_margins sample_setters eq_refl)
    as [[Ht _] [_ [Hon _]]].
  split; [exact Ht|]. apply (Hon sample_setters []). now rewrite app_nil_r.
Defined.

End AutoMargins.

(** ** Alignment and its XML element *)

Section AlignmentXml.
Import Alignment.
Local Open Scope string_scope.

Variable number : Q -> string.
Variable toDouble : string -> Q.
Variable DEFAULT_TOLERANCE : Q.

Local Abbreviation roundtrip :=
  (AlignmentSpec.roundtrip number toDouble DEFAULT_TOLERANCE).

(** The vertical mode and the two flags come back from the element. *)
Lemma roundtrip_vert_flags (a : Alignment) (name : string) :
  m_vert (roundtrip a name) = m_vert a /\
  m_isNull (roundtrip a name) = m_isNull a /\
  m_autoMargins (roundtrip a name) = m_autoMargins a.
Proof.
  destruct a as [v h n t am]. unfold AlignmentSpec.roundtrip.
  destruct v, h, n, am; repeat split; reflexivity.
Qed.

(** The horizontal mode is read by comparing "left", "right" and "auto"
    with the attribute "hor", and "original" with the attribute "vert". *)
Lemma roundtrip_hor (a : Alignment) (name : string) :
  m_hor (roundtrip a name) =
  match m_hor a with
  | LEFT => LEFT
  | RIGHT => RIGHT
  | HAUTO => HAUTO
  | HCENTER | HORIGINAL =>
    match m_vert a with VORIGINAL => HORIGINAL | _ => HCENTER end
  end.
Proof.
  destruct a as [v h n t am]. unfold AlignmentSpec.roundtrip.
  destruct v, h; reflexivity.
Qed.

(** C10, at the input where the code departs from it: an alignment with
    vertical mode TOP and horizontal mode HORIGINAL comes back from its
    own XML element with horizontal mode HCENTER; and one with vertical
    mode VORIGINAL and horizontal mode HCENTER comes back as HORIGINAL. *)
Theorem Alignment_roundtrip_loses_hor (tolerance : Q) (name : string) :
  m_hor (roundtrip (mkAlignment TOP HORIGINAL false tolerance false) name) = HCENTER /\
  m_hor (roundtrip (mkAlignment VORIGINAL HCENTER false tolerance false) name) = HORIGINAL.
Proof. split; rewrite roundtrip_hor; reflexivity. Qed.

End AlignmentXml.

(** ** Generic raster operations *)

Section RasterOps.
Import RasterOpGeneric RasterOpSpec.

Lemma in_pixels (w h x y : Z) : In (x, y) (pixels w h) <-> 0 <= x < w /\ 0 <= y < h.
Proof.
  unfold pixels. rewrite in_flat_map. split.
  - intros [y' [Hy H]]. apply in_map_iff in H. destruct H as [x' [E Hx]].
    inversion E; subst. apply in_range in Hx, Hy. tauto.
  - intros [Hx Hy]. exists y. split; [now apply in_range|].
    apply in_map_iff. exists x. split; [reflexivity|now apply in_range].
Qed.

Lemma range_NoDup (n : Z) : NoDup (range n).
Proof.
  unfold range. apply Finite.Injective_map_NoDup; [|apply seq_NoDup].
  intros a b H. lia.
Qed.

Lemma pixels_NoDup (w h : Z) : NoDup (pixels w h).
Proof.
  unfold pixels. generalize (range_NoDup h).
  induction (range h) as [|y ys IH]; intros Hnd; simpl; [constructor|].
  inversion Hnd as [|? ? Hy Hys]; subst.
  apply NoDup_app.
  - apply Finite.Injective_map_NoDup; [|apply range_NoDup].
    intros a b E. now inversion E.
  - now apply IH.
  - intros [x y'] Hin Hin'. apply in_map_iff in Hin. destruct Hin as [x' [E _]].
    inversion E; subst. apply in_flat_map in Hin'.
    destruct Hin' as [y'' [Hy'' Hin']]. apply in_map_iff in Hin'.
    destruct Hin' as [x'' [E' _]]. inversion E'; subst. contradiction.
Qed.

Lemma pixels_empty (w h : Z) : isEmpty (mkQSize w h) = true -> pixels w h = [].
Proof.
  unfold isEmpty; simpl. intros H. apply orb_prop in H.
  unfold pixels. destruct H as [H|H]; apply Z.ltb_lt in H.
  - rewrite (range_nonpos w) by lia. simpl.
    induction (range h); simpl; auto.
  - now rewrite (range_nonpos h) by lia.
Qed.

Lemma fold_left_map {A B S : Type} (f : S -> B -> S) (g : A -> B) (l : list A) (s : S) :
  fold_left f (map g l) s = fold_left (fun acc a => f acc (g a)) l s.
Proof. revert s. induction l as [|a l IH]; intros s; simpl; auto. Qed.

(** The two nested loops visit the pixels in the order of [pixels]. *)
Lemma for_each_pixel_fold {S : Type} (w h : Z) (body : Z -> Z -> S -> S) (s : S) :
  for_each_pixel w h body s =
  fold_left (fun acc p => body (fst p) (snd p) acc) (pixels w h) s.
Proof.
  unfold for_each_pixel, pixels. revert s.
  induction (range h) as [|y ys IH]; intros s; simpl; [reflexivity|].
  rewrite fold_left_app, fold_left_map. simpl. apply IH.
Qed.

(** The early return on an empty size and the loop over no pixel agree. *)
Lemma loop_or_return {S : Type} (w h : Z) (body : Z -> Z -> S -> S) (s : S) :
  (if isEmpty (mkQSize w h) then s else for_each_pixel w h body s) =
  fold_left (fun acc p => body (fst p) (snd p) acc) (pixels w h) s.
Proof.
  destruct (isEmpty (mkQSize w h)) eqn:E.
  - now rewrite (pixels_empty _ _ E).
  - apply for_each_pixel_fold.
Qed.

Lemma poke_same {T : Type} (d : Ptr T) (i : Z) (v : T) : poke d i v i = v.
Proof. unfold poke. now rewrite Z.eqb_refl. Qed.

Lemma poke_other {T : Type} (d : Ptr T) (i j : Z) (v : T) : j <> i -> poke d i v j = d j.
Proof. unfold poke. intros H. apply Z.eqb_neq in H. now rewrite H. Qed.

(** Rows of [w] elements laid out [stride] apart do not overlap when
    [w] is at most the magnitude of [stride]. *)
Lemma row_major_injective (stride w h x y x' y' : Z) :
  w <= Z.abs stride ->
  0 <= x < w -> 0 <= y < h -> 0 <= x' < w -> 0 <= y' < h ->
  y * stride + x = y' * stride + x' -> x = x' /\ y = y'.
Proof.
  intros Hs Hx Hy Hx' Hy' E.
  assert (y = y') by nia. subst y'. split; [lia|reflexivity].
Qed.

(** *** Loops whose rounds work on separate cells

    A round [p] of a loop changes the state only in the cells it
    touches, and what it leaves there depends only on what it finds
    there.  If no two rounds touch a common cell, the loop leaves in the
    cells of every round what that round alone makes of the initial
    state, and every other cell as it was. *)
Section Footprints.
Context {S P Cell : Type}.
Variable same : Cell -> S -> S -> Prop.
Variable touches : P -> Cell -> Prop.
Variable Inv : S -> Prop.
Variable body : S -> P -> S.

Hypothesis same_trans : forall c s1 s2 s3, same c s1 s2 -> same c s2 s3 -> same c s1 s3.
Hypothesis same_refl : forall c s, same c s s.
Hypothesis Inv_body : forall s p, Inv s -> Inv (body s p).
Hypothesis frame : forall p s c, Inv s -> ~ touches p c -> same c (body s p) s.
Hypothesis locality : forall p s s',
  Inv s -> Inv s' ->
  (forall c, touches p c -> same c s s') ->
  forall c, touches p c -> same c (body s p) (body s' p).

Lemma fold_Inv (ps : list P) : forall s, Inv s -> Inv (fold_left body ps s).
Proof. induction ps as [|p ps IH]; intros s H; simpl; auto. Qed.

Lemma fold_untouched (ps : list P) (c : Cell) :
  (forall p, In p ps -> ~ touches p c) ->
  forall s, Inv s -> same c (fold_left body ps s) s.
Proof.
  induction ps as [|p ps IH]; intros Hno s Hs; simpl; [apply same_refl|].
  apply same_trans with (body s p).
  - apply IH; [intros q Hq; apply Hno; now right|now apply Inv_body].
  - apply frame; [assumption|apply Hno; now left].
Qed.

Lemma fold_touched (ps : list P) :
  NoDup ps ->
  (forall p q c, In p ps -> In q ps -> touches p c -> touches q c -> p = q) ->
  forall s p c, Inv s -> In p ps -> touches p c ->
    same c (fold_left body ps s) (body s p).
Proof.
  induction ps as [|q ps IH]; intros Hnd Hsep s p c Hs Hin Ht; [destruct Hin|].
  inversion Hnd as [|? ? Hq Hps]; subst. simpl.
  assert (Hsep' : forall a b c', In a ps -> In b ps -> touches a c' -> touches b c' -> a = b).
  { intros a b c' Ha Hb. apply Hsep; now right. }
  destruct Hin as [->|Hin].
  - apply fold_untouched; [|now apply Inv_body].
    intros a Ha Hta. apply Hq.
    rewrite <- (Hsep a p c); auto; [now right|now left].
  - apply same_trans with (body (body s q) p).
    + apply IH; auto.
    + apply locality; auto.
      intros c' Hc'. apply frame; [assumption|].
      intros Hqc'. apply Hq. rewrite (Hsep q p c'); auto; [now left|now right].
Qed.

End Footprints.

Lemma dims_equal_false (w1 h1 w2 h2 : Z) :
  w1 = w2 -> h1 = h2 -> negb (w1 =? w2) || negb (h1 =? h2) = false.
Proof. intros -> ->. now rewrite !Z.eqb_refl. Qed.

Lemma dims_differ_true (w1 h1 w2 h2 : Z) :
  w1 <> w2 \/ h1 <> h2 -> negb (w1 =? w2) || negb (h1 =? h2) = true.
Proof. rewrite orb_true_iff, !negb_true_iff, !Z.eqb_neq. tauto. Qed.

End RasterOps.

Section RasterPixels.
Import RasterOpGeneric RasterOpSpec.

(** A loop whose rounds record their pixel records the pixels in order. *)
Lemma fold_calls {S : Type} (Inv : S -> Prop) (tr : S -> Calls) (body : S -> Z * Z -> S) :
  (forall s p, Inv s -> Inv (body s p) /\ tr (body s p) = tr s ++ [(fst p, snd p)]) ->
  forall ps s, Inv s -> tr (fold_left body ps s) = tr s ++ ps.
Proof.
  intros Hb ps. induction ps as [|[x y] ps IH]; intros s Hs; simpl.
  - now rewrite app_nil_r.
  - destruct (Hb s (x, y) Hs) as [Hi Ht].
    rewrite IH, Ht, <- app_assoc by assumption. reflexivity.
Qed.

Local Abbreviation always := (fun _ => True).

(** *** One buffer *)

Section OneBuffer.
Context {T : Type}.
Variable stride w h : Z.
Variable f : Z -> Z -> T -> T.

Local Abbreviation body1 :=
  (fun (acc : Ptr T * Calls) (p : Z * Z) =>
     let '(d, cs) := acc in
     (poke d (snd p * stride + fst p) (f (fst p) (snd p) (d (snd p * stride + fst p))),
      cs ++ [(fst p, snd p)])).

(** A loop that replaces the element of every pixel by what [f] makes of
    it. *)
Lemma one_buffer_cells (d : Ptr T) :
  let r := fold_left body1 (pixels w h) (d, []) in
  snd r = pixels w h /\
  (forall j, (forall x y, 0 <= x < w -> 0 <= y < h -> y * stride + x <> j) ->
     fst r j = d j) /\
  (w <= Z.abs stride ->
   forall x y, 0 <= x < w -> 0 <= y < h ->
     fst r (y * stride + x) = f x y (d (y * stride + x))).
Proof.
  set (body := body1).
  set (same := fun (j : Z) (s s' : Ptr T * Calls) => fst s j = fst s' j).
  set (touches := fun (p : Z * Z) (j : Z) => j = snd p * stride + fst p).
  assert (Htrans : forall c a b e, same c a b -> same c b e -> same c a e).
  { intros j a b e; unfold same; congruence. }
  assert (Hrefl : forall c a, same c a a) by reflexivity.
  assert (Hframe : forall p s c, True -> ~ touches p c -> same c (body s p) s).
  { intros [x y] [a cs] j _ Hn; unfold same, body, touches in *; simpl in *.
    now apply poke_other. }
  assert (Hloc : forall p s s', True -> True ->
            (forall c, touches p c -> same c s s') ->
            forall c, touches p c -> same c (body s p) (body s' p)).
  { intros [x y] [a cs] [a' cs'] _ _ H c Hc.
    pose proof (H (y * stride + x) eq_refl) as E.
    unfold same, body, touches in *; simpl in *. subst c.
    now rewrite !poke_same, E. }
  split; [|split].
  - rewrite (fold_calls always snd body); [reflexivity| |exact I].
    intros [a cs] [x y] _. split; [exact I|reflexivity].
  - intros j Hj.
    apply (fold_untouched same touches always body Htrans Hrefl
             (fun _ _ _ => I) Hframe (pixels w h) j); [|exact I].
    intros [x y] Hp Ht. apply in_pixels in Hp. unfold touches in Ht. simpl in Ht.
    apply (Hj x y); [tauto|tauto|now symmetry].
  - intros A x y Hx Hy.
    assert (Hsep : forall p q c, In p (pixels w h) -> In q (pixels w h) ->
              touches p c -> touches q c -> p = q).
    { intros [px py] [qx qy] c Hp Hq Hpc Hqc. apply in_pixels in Hp, Hq.
      unfold touches in Hpc, Hqc; simpl in Hpc, Hqc; subst c.
      destruct (row_major_injective stride w h qx qy px py); try tauto; congruence. }
    assert (Hin : In (x, y) (pixels w h)) by (apply in_pixels; tauto).
    pose proof (fold_touched same touches always body Htrans Hrefl
                  (fun _ _ _ => I) Hframe Hloc (pixels w h) (pixels_NoDup w h) Hsep
                  (d, []) (x, y) (y * stride + x) I Hin eq_refl) as F.
    unfold same, body in F. simpl in F. now rewrite poke_same in F.
Qed.

End OneBuffer.

(** *** Two buffers *)

Section TwoBuffers.
Context {T1 T2 : Type}.
Variable s1 s2 w h : Z.
Variable f : Z -> Z -> T1 -> T2 -> T1 * T2.

Local Abbreviation cell2 := (Z + Z)%type.

Local Abbreviation body2 :=
  (fun (acc : Ptr T1 * Ptr T2 * Calls) (p : Z * Z) =>
     let '(d1, d2, cs) := acc in
     let '(a, b) := f (fst p) (snd p) (d1 (snd p * s1 + fst p)) (d2 (snd p * s2 + fst p)) in
     (poke d1 (snd p * s1 + fst p) a, poke d2 (snd p * s2 + fst p) b,
      cs ++ [(fst p, snd p)])).

(** A loop that replaces the two elements of every pixel by what [f]
    makes of them. *)
Lemma two_buffer_cells (d1 : Ptr T1) (d2 : Ptr T2) :
  let r := fold_left body2 (pixels w h) (d1, d2, []) in
  snd r = pixels w h /\
  (forall j, (forall x y, 0 <= x < w -> 0 <= y < h -> y * s1 + x <> j) ->
     fst (fst r) j = d1 j) /\
  (forall j, (forall x y, 0 <= x < w -> 0 <= y < h -> y * s2 + x <> j) ->
     snd (fst r) j = d2 j) /\
  (w <= Z.abs s1 -> w <= Z.abs s2 ->
   forall x y, 0 <= x < w -> 0 <= y < h ->
     fst (fst r) (y * s1 + x) = fst (f x y (d1 (y * s1 + x)) (d2 (y * s2 + x))) /\
     snd (fst r) (y * s2 + x) = snd (f x y (d1 (y * s1 + x)) (d2 (y * s2 + x)))).
Proof.
  set (body := body2).
  set (same := fun (c : cell2) (s s' : Ptr T1 * Ptr T2 * Calls) =>
    match c with
    | inl j => fst (fst s) j = fst (fst s') j
    | inr j => snd (fst s) j = snd (fst s') j
    end).
  set (touches := fun (p : Z * Z) (c : cell2) =>
    match c with
    | inl j => j = snd p * s1 + fst p
    | inr j => j = snd p * s2 + fst p
    end).
  assert (Htrans : forall c a b e, same c a b -> same c b e -> same c a e).
  { intros [j|j] a b e; unfold same; congruence. }
  assert (Hrefl : forall c a, same c a a).
  { intros [j|j] a; reflexivity. }
  assert (Hframe : forall p s c, True -> ~ touches p c -> same c (body s p) s).
  { intros [x y] [[a b] cs] [j|j] _ Hn; unfold same, body, touches in *; simpl in *;
      destruct (f _ _ _ _); simpl; now apply poke_other. }
  assert (Hloc : forall p s s', True -> True ->
            (forall c, touches p c -> same c s s') ->
            forall c, touches p c -> same c (body s p) (body s' p)).
  { intros [x y] [[a b] cs] [[a' b'] cs'] _ _ H c Hc.
    pose proof (H (inl (y * s1 + x)) eq_refl) as E1.
    pose proof (H (inr (y * s2 + x)) eq_refl) as E2.
    unfold same, body, touches in *; simpl in *. rewrite E1, E2.
    destruct (f _ _ _ _); destruct c as [j|j]; simpl; subst j; now rewrite !poke_same. }
  split; [|split; [|split]].
  - rewrite (fold_calls always snd body); [reflexivity| |exact I].
    intros [[a b] cs] [x y] _. split; [exact I|].
    unfold body. simpl. destruct (f _ _ _ _). reflexivity.
  - intros j Hj.
    apply (fold_untouched same touches always body Htrans Hrefl
             (fun _ _ _ => I) Hframe (pixels w h) (inl j)); [|exact I].
    intros [x y] Hp Ht. apply in_pixels in Hp. simpl in Ht.
    apply (Hj x y); [tauto|tauto|now symmetry].
  - intros j Hj.
    apply (fold_untouched same touches always body Htrans Hrefl
             (fun _ _ _ => I) Hframe (pixels w h) (inr j)); [|exact I].
    intros [x y] Hp Ht. apply in_pixels in Hp. simpl in Ht.
    apply (Hj x y); [tauto|tauto|now symmetry].
  - intros A1 A2 x y Hx Hy.
    assert (Hsep : forall p q c, In p (pixels w h) -> In q (pixels w h) ->
              touches p c -> touches q c -> p = q).
    { intros [px py] [qx qy] c Hp Hq Hpc Hqc. apply in_pixels in Hp, Hq.
      destruct c as [j|j]; simpl in Hpc, Hqc; subst j.
      - destruct (row_major_injective s1 w h qx qy px py); try tauto; congruence.
      - destruct (row_major_injective s2 w h qx qy px py); try tauto; congruence. }
    pose proof (fold_touched same touches always body Htrans Hrefl
                  (fun _ _ _ => I) Hframe Hloc (pixels w h) (pixels_NoDup w h) Hsep
                  (d1, d2, []) (x, y)) as F.
    assert (Hin : In (x, y) (pixels w h)) by (apply in_pixels; tauto).
    pose proof (F (inl (y * s1 + x)) I Hin eq_refl) as F1.
    pose proof (F (inr (y * s2 + x)) I Hin eq_refl) as F2.
    unfold same, body in F1, F2. simpl in F1, F2.
    destruct (f x y (d1 (y * s1 + x)) (d2 (y * s2 + x))) as [a b].
    simpl in F1, F2. rewrite poke_same in F1. rewrite poke_same in F2.
    split; assumption.
Qed.

End TwoBuffers.

(** *** Three buffers *)

Section ThreeBuffers.
Context {T1 T2 T3 : Type}.
Variable s1 s2 s3 w h : Z.
Variable f : T1 -> T2 -> T3 -> T1 * T2 * T3.

Local Abbreviation cell3 := (Z + Z + Z)%type.

Local Abbreviation body3 :=
  (fun (acc : Ptr T1 * Ptr T2 * Ptr T3 * Calls) (p : Z * Z) =>
     let '(d1, d2, d3, cs) := acc in
     let '(a, b, c) :=
       f (d1 (snd p * s1 + fst p)) (d2 (snd p * s2 + fst p)) (d3 (snd p * s3 + fst p)) in
     (poke d1 (snd p * s1 + fst p) a, poke d2 (snd p * s2 + fst p) b,
      poke d3 (snd p * s3 + fst p) c, cs ++ [(fst p, snd p)])).

Lemma three_buffer_cells (d1 : Ptr T1) (d2 : Ptr T2) (d3 : Ptr T3) :
  let r := fold_left body3 (pixels w h) (d1, d2, d3, []) in
  snd r = pixels w h /\
  (forall j, (forall x y, 0 <= x < w -> 0 <= y < h -> y * s1 + x <> j) ->
     fst (fst (fst r)) j = d1 j) /\
  (forall j, (forall x y, 0 <= x < w -> 0 <= y < h -> y * s2 + x <> j) ->
     snd (fst (fst r)) j = d2 j) /\
  (forall j, (forall x y, 0 <= x < w -> 0 <= y < h -> y * s3 + x <> j) ->
     snd (fst r) j = d3 j) /\
  (w <= Z.abs s1 -> w <= Z.abs s2 -> w <= Z.abs s3 ->
   forall x y, 0 <= x < w -> 0 <= y < h ->
     let v := f (d1 (y * s1 + x)) (d2 (y * s2 + x)) (d3 (y * s3 + x)) in
     fst (fst (fst r)) (y * s1 + x) = fst (fst v) /\
     snd (fst (fst r)) (y * s2 + x) = snd (fst v) /\
     snd (fst r) (y * s3 + x) = snd v).
Proof.
  set (body := body3).
  set (same := fun (c : cell3) (s s' : Ptr T1 * Ptr T2 * Ptr T3 * Calls) =>
    match c with
    | inl (inl j) => fst (fst (fst s)) j = fst (fst (fst s')) j
    | inl (inr j) => snd (fst (fst s)) j = snd (fst (fst s')) j
    | inr j => snd (fst s) j = snd (fst s') j
    end).
  set (touches := fun (p : Z * Z) (c : cell3) =>
    match c with
    | inl (inl j) => j = snd p * s1 + fst p
    | inl (inr j) => j = snd p * s2 + fst p
    | inr j => j = snd p * s3 + fst p
    end).
  assert (Htrans : forall c a b e, same c a b -> same c b e -> same c a e).
  { intros [[j|j]|j] a b e; unfold same; congruence. }
  assert (Hrefl : forall c a, same c a a).
  { intros [[j|j]|j] a; reflexivity. }
  assert (Hframe : forall p s c, True -> ~ touches p c -> same c (body s p) s).
  { intros [x y] [[[a b] c] cs] [[j|j]|j] _ Hn; unfold same, body, touches in *;
      simpl in *; destruct (f _ _ _) as [[? ?] ?]; simpl; now apply poke_other. }
  assert (Hloc : forall p s s', True -> True ->
            (forall c, touches p c -> same c s s') ->
            forall c, touches p c -> same c (body s p) (body s' p)).
  { intros [x y] [[[a b] c] cs] [[[a' b'] c'] cs'] _ _ H e He.
    pose proof (H (inl (inl (y * s1 + x))) eq_refl) as E1.
    pose proof (H (inl (inr (y * s2 + x))) eq_refl) as E2.
    pose proof (H (inr (y * s3 + x)) eq_refl) as E3.
    unfold same, body, touches in *; simpl in *. rewrite E1, E2, E3.
    destruct (f _ _ _) as [[? ?] ?]; destruct e as [[j|j]|j]; simpl; subst j;
      now rewrite !poke_same. }
  assert (Hunt : forall c, (forall p, In p (pixels w h) -> ~ touches p c) ->
            same c (fold_left body (pixels w h) (d1, d2, d3, [])) (d1, d2, d3, [])).
  { intros c Hc.
    apply (fold_untouched same touches always body Htrans Hrefl
             (fun _ _ _ => I) Hframe (pixels w h) c Hc); exact I. }
  split; [|split; [|split; [|split]]].
  - rewrite (fold_calls always snd body); [reflexivity| |exact I].
    intros [[[a b] c] cs] [x y] _. split; [exact I|].
    unfold body. simpl. destruct (f _ _ _) as [[? ?] ?]. reflexivity.
  - intros j Hj. apply (Hunt (inl (inl j))).
    intros [x y] Hp Ht. apply in_pixels in Hp. simpl in Ht.
    apply (Hj x y); [tauto|tauto|now symmetry].
  - intros j Hj. apply (Hunt (inl (inr j))).
    intros [x y] Hp Ht. apply in_pixels in Hp. simpl in Ht.
    apply (Hj x y); [tauto|tauto|now symmetry].
  - intros j Hj. apply (Hunt (inr j)).
    intros [x y] Hp Ht. apply in_pixels in Hp. simpl in Ht.
    apply (Hj x y); [tauto|tauto|now symmetry].
  - intros A1 A2 A3 x y Hx Hy.
    assert (Hsep : forall p q c, In p (pixels w h) -> In q (pixels w h) ->
              touches p c -> touches q c -> p = q).
    { intros [px py] [qx qy] c Hp Hq Hpc Hqc. apply in_pixels in Hp, Hq.
      destruct c as [[j|j]|j]; simpl in Hpc, Hqc; subst j.
      - destruct (row_major_injective s1 w h qx qy px py); try tauto; congruence.
      - destruct (row_major_injective s2 w h qx qy px py); try tauto; congruence.
      - destruct (row_major_injective s3 w h qx qy px py); try tauto; congruence. }
    pose proof (fold_touched same touches always body Htrans Hrefl
                  (fun _ _ _ => I) Hframe Hloc (pixels w h) (pixels_NoDup w h) Hsep
                  (d1, d2, d3, []) (x, y)) as F.
    assert (Hin : In (x, y) (pixels w h)) by (apply in_pixels; tauto).
    pose proof (F (inl (inl (y * s1 + x))) I Hin eq_refl) as F1.
    pose proof (F (inl (inr (y * s2 + x))) I Hin eq_refl) as F2.
    pose proof (F (inr (y * s3 + x)) I Hin eq_refl) as F3.
    unfold same, body in F1, F2, F3. simpl in F1, F2, F3.
    destruct (f (d1 (y * s1 + x)) (d2 (y * s2 + x)) (d3 (y * s3 + x))) as [[a b] c].
    simpl in F1, F2, F3 |- *.
    rewrite poke_same in F1. rewrite poke_same in F2. rewrite poke_same in F3.
    repeat split; assumption.
Qed.

End ThreeBuffers.

(** *** The bits of a binary image *)

Lemma BitProxy_read_testbit (word shift : Z) :
  0 <= shift -> BitProxy_read word shift = Z.b2z (Z.testbit word shift).
Proof.
  intros H. unfold BitProxy_read. change 1 with (Z.ones 1).
  rewrite Z.land_ones by lia. change (2 ^ 1) with 2.
  rewrite <- Z.bit0_mod, Z.shiftr_spec by lia. reflexivity.
Qed.

Lemma testbit_one (k : Z) : Z.testbit 1 k = (k =? 0).
Proof.
  destruct (Z.eqb_spec k 0) as [->|Hk]; [reflexivity|].
  destruct (Z.lt_ge_cases k 0) as [Hn|Hp]; [now apply Z.testbit_neg_r|].
  change 1 with (Z.ones 1). apply Z.ones_spec_high. lia.
Qed.

Lemma testbit_bit (b k : Z) : 0 <= b <= 1 -> Z.testbit b k = (b =? 1) && (k =? 0).
Proof.
  intros H. assert (E : b = 0 \/ b = 1) by lia. destruct E as [-> | ->].
  - now rewrite Z.bits_0.
  - now rewrite testbit_one.
Qed.

Lemma testbit_uint32_max (n : Z) : 0 <= n < 32 -> Z.testbit 0xffffffff n = true.
Proof. intros H. change 0xffffffff with (Z.ones 32). apply Z.ones_spec_low. lia. Qed.

(** The assignment of a bit sets that bit of the word and leaves the
    other 31 as they are. *)
Lemma BitProxy_assign_testbit (NDEBUG : bool) (word shift b word' n : Z) :
  0 <= b <= 1 -> 0 <= shift < 32 -> 0 <= n < 32 ->
  BitProxy_assign NDEBUG word shift b = Some word' ->
  Z.testbit word' n = if n =? shift then b =? 1 else Z.testbit word n.
Proof.
  intros Hb Hs Hn. unfold BitProxy_assign.
  destruct (negb NDEBUG && negb (b <=? 1)); [discriminate|].
  intros E. injection E as <-.
  rewrite Z.lor_spec, !Z.land_spec, Z.lnot_spec, Z.land_spec by lia.
  rewrite !Z.shiftl_spec by lia. rewrite testbit_one, (testbit_bit b) by lia.
  rewrite testbit_uint32_max by lia.
  destruct (Z.eqb_spec n shift) as [->|Hne].
  - rewrite Z.sub_diag. simpl. rewrite !andb_true_r, andb_false_r. reflexivity.
  - destruct (Z.eqb_spec (n - shift) 0) as [E0|_]; [lia|].
    simpl. rewrite !andb_true_r, andb_false_r, orb_false_r. reflexivity.
Qed.

Lemma BitProxy_assign_defined (NDEBUG : bool) (word shift b : Z) :
  NDEBUG = true \/ 0 <= b <= 1 ->
  exists word', BitProxy_assign NDEBUG word shift b = Some word'.
Proof.
  intros H. unfold BitProxy_assign.
  assert (E : negb NDEBUG && negb (b <=? 1) = false).
  { destruct H as [->|H]; [reflexivity|].
    assert (Hb : (b <=? 1) = true) by (apply Z.leb_le; lia).
    rewrite Hb. apply andb_false_r. }
  rewrite E. eexists. reflexivity.
Qed.

(** The bits of the pixels of one line lie in separate places, and so do
    the lines when they are [wpl] words apart and no wider. *)
Lemma bit_place_injective (wpl w h x y x' y' : Z) :
  w <= 32 * Z.abs wpl ->
  0 <= x < w -> 0 <= y < h -> 0 <= x' < w -> 0 <= y' < h ->
  y * wpl + Z.shiftr x 5 = y' * wpl + Z.shiftr x' 5 ->
  31 - Z.land x 31 = 31 - Z.land x' 31 ->
  x = x' /\ y = y'.
Proof.
  intros Hw Hx Hy Hx' Hy' E1 E2.
  change 31 with (Z.ones 5) in E2. rewrite !Z.land_ones in E2 by lia.
  rewrite !Z.shiftr_div_pow2 in E1 by lia. change (2 ^ 5) with 32 in *.
  pose proof (Z.div_mod x 32 ltac:(lia)) as Dx.
  pose proof (Z.div_mod x' 32 ltac:(lia)) as Dx'.
  pose proof (Z.mod_pos_bound x 32 ltac:(lia)).
  pose proof (Z.mod_pos_bound x' 32 ltac:(lia)).
  assert (Q : 0 <= x / 32 < Z.abs wpl).
  { split; [apply Z.div_pos; lia|apply Z.div_lt_upper_bound; lia]. }
  assert (Q' : 0 <= x' / 32 < Z.abs wpl).
  { split; [apply Z.div_pos; lia|apply Z.div_lt_upper_bound; lia]. }
  destruct (row_major_injective wpl (Z.abs wpl) h (x / 32) y (x' / 32) y')
    as [Hq Hyy]; lia.
Qed.

Section BitBuffer.
Context {T2 : Type}.
Variable NDEBUG : bool.
Variable wpl s2 w h : Z.
Variable op : Z -> T2 -> option Z * T2.

Local Abbreviation cellb := (Z * Z + Z)%type.

Local Abbreviation bodyb :=
  (fun (s : BitLoop) (p : Z * Z) =>
     if running s then
       let r := op (BitProxy_read (words1 s (snd p * wpl + Z.shiftr (fst p) 5))
                      (31 - Z.land (fst p) 31))
                   (elems2 s (snd p * s2 + fst p)) in
       match fst r with
       | Some bit =>
         match BitProxy_assign NDEBUG (words1 s (snd p * wpl + Z.shiftr (fst p) 5))
                 (31 - Z.land (fst p) 31) bit with
         | Some word =>
           mkBitLoop true (poke (words1 s) (snd p * wpl + Z.shiftr (fst p) 5) word)
             (poke (elems2 s) (snd p * s2 + fst p) (snd r))
             (calls s ++ [(fst p, snd p)])
         | None => mkBitLoop false (words1 s) (elems2 s) (calls s ++ [(fst p, snd p)])
         end
       | None =>
         mkBitLoop true (words1 s) (poke (elems2 s) (snd p * s2 + fst p) (snd r))
           (calls s ++ [(fst p, snd p)])
       end
     else s).

Lemma shift_range (x : Z) : 0 <= 31 - Z.land x 31 < 32.
Proof.
  change 31 with (Z.ones 5) at 2 4. rewrite Z.land_ones by lia.
  pose proof (Z.mod_pos_bound x (2 ^ 5) ltac:(lia)). change (2 ^ 5) with 32 in *. lia.
Qed.

(** While no assertion fails, every round records its pixel. *)
Lemma bit_loop_runs (ps : list (Z * Z)) (s : @BitLoop T2) :
  NDEBUG = true \/ assigns_bits op ->
  running s = true ->
  running (fold_left bodyb ps s) = true /\
  calls (fold_left bodyb ps s) = calls s ++ ps.
Proof.
  intros Hop Hs.
  assert (Hb : forall (s : @BitLoop T2) p, running s = true ->
            running (bodyb s p) = true /\
            calls (bodyb s p) = calls s ++ [(fst p, snd p)]).
  { intros s' [x y] Hr. cbn [fst snd]. rewrite Hr.
    destruct (fst (op _ _)) as [b|] eqn:Eb; [|split; reflexivity].
    destruct (BitProxy_assign_defined NDEBUG
                (words1 s' (y * wpl + Z.shiftr x 5)) (31 - Z.land x 31) b) as [word' Ew].
    { destruct Hop as [->|Hop]; [now left|right]. exact (Hop _ _ _ Eb). }
    rewrite Ew. split; reflexivity. }
  split.
  - apply (fold_Inv (fun s => running s = true) bodyb); [|assumption].
    intros s' p Hr. apply Hb, Hr.
  - apply (fold_calls (fun s => running s = true) calls bodyb); assumption.
Qed.

(** With an operation that assigns bits, every pixel ends with the bit
    and the element that one invocation makes of what it had. *)
Lemma bit_loop_cells (words : Ptr Z) (d2 : Ptr T2) :
  assigns_bits op ->
  let r := fold_left bodyb (pixels w h) (mkBitLoop true words d2 []) in
  (forall j, (forall x y, 0 <= x < w -> 0 <= y < h -> y * s2 + x <> j) ->
     elems2 r j = d2 j) /\
  (forall j n, 0 <= n < 32 ->
     (forall x y, 0 <= x < w -> 0 <= y < h ->
        ~ (y * wpl + Z.shiftr x 5 = j /\ 31 - Z.land x 31 = n)) ->
     Z.testbit (words1 r j) n = Z.testbit (words j) n) /\
  (w <= 32 * Z.abs wpl -> w <= Z.abs s2 ->
   forall x y, 0 <= x < w -> 0 <= y < h ->
     let bit := BitProxy_read (words (y * wpl + Z.shiftr x 5)) (31 - Z.land x 31) in
     let r0 := op bit (d2 (y * s2 + x)) in
     BitProxy_read (words1 r (y * wpl + Z.shiftr x 5)) (31 - Z.land x 31)
       = bit_after (fst r0) bit /\
     elems2 r (y * s2 + x) = snd r0).
Proof.
  intros Hop.
  set (body := bodyb).
  set (Inv := fun s : @BitLoop T2 => running s = true).
  set (same := fun (c : cellb) (s s' : @BitLoop T2) =>
    match c with
    | inl (j, n) => 0 <= n < 32 -> Z.testbit (words1 s j) n = Z.testbit (words1 s' j) n
    | inr j => elems2 s j = elems2 s' j
    end).
  set (touches := fun (p : Z * Z) (c : cellb) =>
    match c with
    | inl (j, n) => j = snd p * wpl + Z.shiftr (fst p) 5 /\ n = 31 - Z.land (fst p) 31
    | inr j => j = snd p * s2 + fst p
    end).
  assert (Htrans : forall c a b e, same c a b -> same c b e -> same c a e).
  { intros [[j n]|j] a b e; unfold same; [|congruence].
    intros H1 H2 Hn. now rewrite H1, H2. }
  assert (Hrefl : forall c a, same c a a).
  { intros [[j n]|j] a; unfold same; reflexivity. }
  assert (Hinv : forall s p, Inv s -> Inv (body s p)).
  { intros s p Hs. apply (bit_loop_runs [p] s); [now right|exact Hs]. }
  assert (Hframe : forall p s c, Inv s -> ~ touches p c -> same c (body s p) s).
  { intros [x y] s c Hs Hn. unfold Inv in Hs. unfold body. cbn [fst snd]. rewrite Hs.
    pose proof (shift_range x) as Hsh.
    destruct (fst (op _ _)) as [b|] eqn:Eb.
    - pose proof (Hop _ _ _ Eb) as Hb.
      destruct (BitProxy_assign NDEBUG _ _ b) as [word'|] eqn:Ew.
      + destruct c as [[j n]|j]; unfold same, touches in *; cbn [fst snd words1 elems2] in *.
        * intros Hr. unfold poke.
          destruct (Z.eqb_spec j (y * wpl + Z.shiftr x 5)) as [->|Hj]; [|reflexivity].
          rewrite (BitProxy_assign_testbit _ _ _ _ _ n Hb Hsh Hr Ew).
          destruct (Z.eqb_spec n (31 - Z.land x 31)) as [->|_]; [|reflexivity].
          exfalso. apply Hn. split; reflexivity.
        * now apply poke_other.
      + destruct (BitProxy_assign_defined NDEBUG
                    (words1 s (y * wpl + Z.shiftr x 5)) (31 - Z.land x 31) b
                    (or_intror Hb)) as [? E']. congruence.
    - destruct c as [[j n]|j]; unfold same, touches in *; cbn [fst snd words1 elems2] in *.
      + reflexivity.
      + now apply poke_other. }
  assert (Hloc : forall p s s', Inv s -> Inv s' ->
            (forall c, touches p c -> same c s s') ->
            forall c, touches p c -> same c (body s p) (body s' p)).
  { intros [x y] s s' Hs Hs' H c Hc. unfold Inv in Hs, Hs'.
    pose proof (shift_range x) as Hsh.
    pose proof (H (inl (y * wpl + Z.shiftr x 5, 31 - Z.land x 31)) (conj eq_refl eq_refl))
      as E1.
    pose proof (H (inr (y * s2 + x)) eq_refl) as E2.
    unfold same in E1, E2. cbn [fst snd] in E1, E2. specialize (E1 Hsh).
    unfold body. cbn [fst snd]. rewrite Hs, Hs'.
    rewrite !BitProxy_read_testbit by lia. rewrite <- E1, <- E2.
    destruct (fst (op _ _)) as [b|] eqn:Eb.
    - pose proof (Hop _ _ _ Eb) as Hb.
      destruct (BitProxy_assign_defined NDEBUG
                  (words1 s (y * wpl + Z.shiftr x 5)) (31 - Z.land x 31) b
                  (or_intror Hb)) as [v Ev].
      destruct (BitProxy_assign_defined NDEBUG
                  (words1 s' (y * wpl + Z.shiftr x 5)) (31 - Z.land x 31) b
                  (or_intror Hb)) as [v' Ev'].
      rewrite Ev, Ev'.
      destruct c as [[j n]|j]; unfold same, touches in *; cbn [fst snd words1 elems2] in *.
      + destruct Hc as [-> ->]. intros _. rewrite !poke_same.
        rewrite (BitProxy_assign_testbit _ _ _ _ _ _ Hb Hsh Hsh Ev).
        rewrite (BitProxy_assign_testbit _ _ _ _ _ _ Hb Hsh Hsh Ev').
        now rewrite Z.eqb_refl.
      + subst j. now rewrite !poke_same.
    - destruct c as [[j n]|j]; unfold same, touches in *; cbn [fst snd words1 elems2] in *.
      + destruct Hc as [-> ->]. intros _. exact E1.
      + subst j. now rewrite !poke_same. }
  assert (Hunt : forall c, (forall p, In p (pixels w h) -> ~ touches p c) ->
            same c (fold_left body (pixels w h) (mkBitLoop true words d2 []))
                   (mkBitLoop true words d2 [])).
  { intros c Hc.
    apply (fold_untouched same touches Inv body Htrans Hrefl Hinv Hframe
             (pixels w h) c Hc). reflexivity. }
  cbv zeta. split; [|split].
  - intros j Hj. apply (Hunt (inr j)).
    intros [x y] Hp Ht. apply in_pixels in Hp. simpl in Ht.
    apply (Hj x y); [tauto|tauto|now symmetry].
  - intros j n Hn Hj. apply (Hunt (inl (j, n))); [|assumption].
    intros [x y] Hp Ht. apply in_pixels in Hp. simpl in Ht.
    apply (Hj x y); [tauto|tauto|]. destruct Ht as [-> ->]. split; reflexivity.
  - intros A1 A2 x y Hx Hy.
    pose proof (shift_range x) as Hsh.
    assert (Hsep : forall p q c, In p (pixels w h) -> In q (pixels w h) ->
              touches p c -> touches q c -> p = q).
    { intros [px py] [qx qy] c Hp Hq Hpc Hqc. apply in_pixels in Hp, Hq.
      destruct c as [[j n]|j]; simpl in Hpc, Hqc.
      - destruct Hpc as [-> ->]. destruct Hqc as [E1 E2].
        destruct (bit_place_injective wpl w h px py qx qy); try tauto; congruence.
      - subst j.
        destruct (row_major_injective s2 w h qx qy px py); try tauto; congruence. }
    pose proof (fold_touched same touches Inv body Htrans Hrefl Hinv Hframe Hloc
                  (pixels w h) (pixels_NoDup w h) Hsep
                  (mkBitLoop true words d2 []) (x, y)) as F.
    assert (Hin : In (x, y) (pixels w h)) by (apply in_pixels; tauto).
    pose proof (F (inl (y * wpl + Z.shiftr x 5, 31 - Z.land x 31)) eq_refl Hin
                  (conj eq_refl eq_refl)) as F1.
    pose proof (F (inr (y * s2 + x)) eq_refl Hin eq_refl) as F2.
    unfold same in F1, F2. specialize (F1 Hsh).
    rewrite (BitProxy_read_testbit (words1 _ _)) by lia. rewrite F1, F2.
    unfold body. cbn [fst snd running words1 elems2].
    destruct (fst (op _ _)) as [b|] eqn:Eb.
    + pose proof (Hop _ _ _ Eb) as Hb.
      destruct (BitProxy_assign_defined NDEBUG
                  (words (y * wpl + Z.shiftr x 5)) (31 - Z.land x 31) b
                  (or_intror Hb)) as [v Ev].
      rewrite Ev. cbn [words1 elems2]. rewrite !poke_same.
      rewrite (BitProxy_assign_testbit _ _ _ _ _ _ Hb Hsh Hsh Ev), Z.eqb_refl.
      split; [|reflexivity]. unfold bit_after.
      assert (E : b = 0 \/ b = 1) by lia. destruct E as [-> | ->]; reflexivity.
    + cbn [words1 elems2]. rewrite poke_same. split; [|reflexivity].
      unfold bit_after. symmetry. apply BitProxy_read_testbit. lia.
Qed.

End BitBuffer.

(** *** The overloads that take grids *)

Ltac same_loop C :=
  match type of C with
  | context [fold_left ?b ?ps ?s] =>
    match goal with
    | |- context [fold_left ?b' ps s] => change b' with b
    end
  end.

(** The two-grid overload. *)
Lemma rasterOpGeneric_grid2_spec {T1 : Type} (g1 g2 : GridAccessor T1)
    (op : T1 -> T1 -> T1 * T1) :
  let r := rasterOpGeneric_grid2 g1 g2 op in
  (width g1 <> width g2 \/ height g1 <> height g2 ->
   r = mkRun size_mismatch (g1, g2) []) /\
  (width g1 = width g2 -> height g1 = height g2 ->
   exit r = Returned /\
   invoked r = pixels (width g1) (height g1) /\
   same_layout g1 (fst (final r)) /\ same_layout g2 (snd (final r)) /\
   (forall j, outside g1 j -> data (fst (final r)) j = data g1 j) /\
   (forall j, outside g2 j -> data (snd (final r)) j = data g2 j) /\
   (lines_apart g1 -> lines_apart g2 ->
    forall x y, 0 <= x < width g1 -> 0 <= y < height g1 ->
      elem (fst (final r)) x y = fst (op (elem g1 x y) (elem g2 x y)) /\
      elem (snd (final r)) x y = snd (op (elem g1 x y) (elem g2 x y)))).
Proof.
  unfold rasterOpGeneric_grid2. split.
  - intros H. now rewrite (dims_differ_true _ _ _ _ H).
  - intros Hw Hh. rewrite (dims_equal_false _ _ _ _ Hw Hh).
    unfold rasterOpGeneric_ptr2. cbn [wd ht]. rewrite loop_or_return.
    pose proof (two_buffer_cells (stride g1) (stride g2) (width g1) (height g1)
                  (fun _ _ => op) (data g1) (data g2)) as C.
    cbv zeta in C. same_loop C.
    destruct (fold_left _ _ _) as [[e1 e2] cs].
    cbn [fst snd] in C. destruct C as (Ccs & C1 & C2 & Cpix).
    unfold with_data2, same_layout, outside, lines_apart, elem.
    cbn [exit invoked final fst snd data stride width height].
    rewrite <- Hw, <- Hh.
    repeat split; auto.
    + apply Cpix; assumption.
    + apply Cpix; assumption.
Qed.

(** The three-grid overload. *)
Lemma rasterOpGeneric_grid3_spec {T1 T2 T3 : Type} (g1 : GridAccessor T1)
    (g2 : GridAccessor T2) (g3 : GridAccessor T3) (op : T1 -> T2 -> T3 -> T1 * T2 * T3) :
  let r := rasterOpGeneric_grid3 g1 g2 g3 op in
  (width g1 <> width g2 \/ height g1 <> height g2 \/
   width g1 <> width g3 \/ height g1 <> height g3 ->
   r = mkRun size_mismatch (g1, g2, g3) []) /\
  (width g1 = width g2 -> height g1 = height g2 ->
   width g1 = width g3 -> height g1 = height g3 ->
   exit r = Returned /\
   invoked r = pixels (width g1) (height g1) /\
   same_layout g1 (fst (fst (final r))) /\ same_layout g2 (snd (fst (final r))) /\
   same_layout g3 (snd (final r)) /\
   (forall j, outside g1 j -> data (fst (fst (final r))) j = data g1 j) /\
   (forall j, outside g2 j -> data (snd (fst (final r))) j = data g2 j) /\
   (forall j, outside g3 j -> data (snd (final r)) j = data g3 j) /\
   (lines_apart g1 -> lines_apart g2 -> lines_apart g3 ->
    forall x y, 0 <= x < width g1 -> 0 <= y < height g1 ->
      let v := op (elem g1 x y) (elem g2 x y) (elem g3 x y) in
      elem (fst (fst (final r))) x y = fst (fst v) /\
      elem (snd (fst (final r))) x y = snd (fst v) /\
      elem (snd (final r)) x y = snd v)).
Proof.
  unfold rasterOpGeneric_grid3. split.
  - intros H.
    assert (E : negb (width g1 =? width g2) || negb (height g1 =? height g2) ||
                negb (width g1 =? width g3) || negb (height g1 =? height g3) = true).
    { rewrite !orb_true_iff, !negb_true_iff, !Z.eqb_neq. tauto. }
    now rewrite E.
  - intros Hw2 Hh2 Hw3 Hh3.
    rewrite <- Hw2, <- Hh2, <- Hw3, <- Hh3, !Z.eqb_refl. cbn [negb orb].
    unfold rasterOpGeneric_ptr3. cbn [wd ht]. rewrite loop_or_return.
    pose proof (three_buffer_cells (stride g1) (stride g2) (stride g3)
                  (width g1) (height g1) op (data g1) (data g2) (data g3)) as C.
    cbv zeta in C. same_loop C.
    destruct (fold_left _ _ _) as [[[e1 e2] e3] cs].
    cbn [fst snd] in C. destruct C as (Ccs & C1 & C2 & C3 & Cpix).
    unfold same_layout, outside, lines_apart, elem.
    cbn [exit invoked final fst snd data stride width height].
    rewrite <- ?Hw2, <- ?Hh2, <- ?Hw3, <- ?Hh3.
    repeat split; auto; apply Cpix; assumption.
Qed.

Lemma pixels_none : pixels 0 0 = [].
Proof. reflexivity. Qed.

(** The overload for a constant binary image and a grid. *)
Lemma rasterOpGeneric_cbin_grid_spec {T2 : Type} (img : BinaryImage)
    (g : GridAccessor T2) (op : Z -> T2 -> T2) :
  let r := rasterOpGeneric_cbin_grid img g op in
  (bi_width img <> width g \/ bi_height img <> height g ->
   r = mkRun size_mismatch (img, g) []) /\
  (bi_width img = width g -> bi_height img = height g ->
   exit r = Returned /\
   invoked r = pixels (width g) (height g) /\
   fst (final r) = img /\ same_layout g (snd (final r)) /\
   (forall j, outside g j -> data (snd (final r)) j = data g j) /\
   (lines_apart g ->
    forall x y, 0 <= x < width g -> 0 <= y < height g ->
      elem (snd (final r)) x y = op (bit_at img x y) (elem g x y))).
Proof.
  unfold rasterOpGeneric_cbin_grid. split.
  - intros H. now rewrite (dims_differ_true _ _ _ _ H).
  - intros Hw Hh. rewrite (dims_equal_false _ _ _ _ Hw Hh).
    pose proof (one_buffer_cells (stride g) (width g) (height g)
                  (fun x y v =>
                     op (BitProxy_read
                           (bi_data img (y * wordsPerLine img + Z.shiftr x 5))
                           (31 - Z.land x 31)) v)
                  (data g)) as C.
    cbv zeta in C.
    assert (E : rasterOpGeneric_cbin_ptr img (data g) (stride g) op =
                fold_left
                  (fun (acc : Ptr T2 * Calls) (p : Z * Z) =>
                     let '(d, cs) := acc in
                     (poke d (snd p * stride g + fst p)
                        (op (BitProxy_read
                               (bi_data img (snd p * wordsPerLine img + Z.shiftr (fst p) 5))
                               (31 - Z.land (fst p) 31))
                            (d (snd p * stride g + fst p))),
                      cs ++ [(fst p, snd p)]))
                  (pixels (width g) (height g)) (data g, [])).
    { unfold rasterOpGeneric_cbin_ptr. rewrite <- Hw, <- Hh.
      destruct img as [|w h wpl words]; [reflexivity|].
      cbn [isNull bi_width bi_height wordsPerLine bi_data].
      now rewrite for_each_pixel_fold. }
    rewrite E. destruct (fold_left _ _ _) as [e cs].
    cbn [fst snd] in C. destruct C as (Ccs & C1 & Cpix).
    unfold same_layout, outside, lines_apart, elem, bit_at.
    cbn [exit invoked final fst snd data stride width height].
    repeat split; auto.
Qed.

(** The overload for a binary image that can be written and a grid. *)
Lemma rasterOpGeneric_bin_grid_spec {T2 : Type} (NDEBUG : bool) (img : BinaryImage)
    (g : GridAccessor T2) (op : Z -> T2 -> option Z * T2) :
  let r := rasterOpGeneric_bin_grid NDEBUG img g op in
  (bi_width img <> width g \/ bi_height img <> height g ->
   r = mkRun size_mismatch (img, g) []) /\
  (bi_width img = width g -> bi_height img = height g ->
   exit r <> size_mismatch /\
   same_image_layout img (fst (final r)) /\ same_layout g (snd (final r)) /\
   (NDEBUG = true \/ assigns_bits op ->
    exit r = Returned /\ invoked r = pixels (width g) (height g)) /\
   (assigns_bits op ->
    (forall j, outside g j -> data (snd (final r)) j = data g j) /\
    (forall j s, 0 <= s < 32 -> bit_outside img j s ->
       Z.testbit (bi_data (fst (final r)) j) s = Z.testbit (bi_data img j) s) /\
    (bit_lines_apart img -> lines_apart g ->
     forall x y, 0 <= x < width g -> 0 <= y < height g ->
       let r0 := op (bit_at img x y) (elem g x y) in
       bit_at (fst (final r)) x y = bit_after (fst r0) (bit_at img x y) /\
       elem (snd (final r)) x y = snd r0))).
Proof.
  unfold rasterOpGeneric_bin_grid. split.
  - intros H. now rewrite (dims_differ_true _ _ _ _ H).
  - intros Hw Hh. rewrite (dims_equal_false _ _ _ _ Hw Hh).
    cbn [exit invoked final fst snd].
    pose proof (bit_loop_cells NDEBUG (wordsPerLine img) (stride g) (width g) (height g)
                  op (bi_data img) (data g)) as Hcells.
    cbv zeta in Hcells.
    match type of Hcells with
    | context [fold_left ?b _ _] => set (body := b) in *
    end.
    assert (Hrun : forall ps s,
              NDEBUG = true \/ assigns_bits op -> running s = true ->
              running (fold_left body ps s) = true /\
              calls (fold_left body ps s) = calls s ++ ps).
    { intros ps s. exact (bit_loop_runs NDEBUG (wordsPerLine img) (stride g) op ps s). }
    assert (E : rasterOpGeneric_bin_ptr NDEBUG img (data g) (stride g) op =
                fold_left body (pixels (width g) (height g))
                  (mkBitLoop true (bi_data img) (data g) [])).
    { unfold rasterOpGeneric_bin_ptr. rewrite <- Hw, <- Hh.
      destruct img as [|w h wpl words]; [reflexivity|].
      cbn [isNull bi_width bi_height wordsPerLine bi_data].
      rewrite for_each_pixel_fold. reflexivity. }
    rewrite E. clearbody body.
    set (s := fold_left body _ _) in *.
    assert (Hlay : same_image_layout img (with_data img (words1 s))).
    { unfold same_image_layout. destruct img; repeat split; reflexivity. }
    assert (Hdata : forall x y, 0 <= x < width g -> 0 <= y < height g ->
              bi_data (with_data img (words1 s)) = words1 s).
    { intros x y Hx Hy. destruct img as [|w h wpl words]; [|reflexivity].
      simpl in Hw. lia. }
    split; [|split; [exact Hlay|split; [|split]]].
    + unfold size_mismatch. destruct (running s); discriminate.
    + unfold same_layout. cbn [stride width height]. auto.
    + intros Hop. destruct (Hrun (pixels (width g) (height g))
                              (mkBitLoop true (bi_data img) (data g) []) Hop eq_refl)
        as [R Cs].
      fold s in R, Cs. rewrite R, Cs. split; reflexivity.
    + intros Hop. destruct (Hcells Hop) as (C1 & C2 & Cpix). fold s in C1, C2, Cpix.
      cbn [data]. split; [exact C1|split].
      * intros j n Hn Hout.
        destruct img as [|w h wpl words]; [reflexivity|].
        cbn [with_data bi_data]. apply C2; [assumption|].
        unfold bit_outside in Hout. cbn [bi_width bi_height wordsPerLine] in *.
        rewrite <- Hw, <- Hh. exact Hout.
      * intros A1 A2 x y Hx Hy.
        unfold bit_at, elem. cbn [data stride].
        destruct Hlay as (_ & _ & _ & ->). rewrite (Hdata x y Hx Hy).
        apply Cpix; try assumption.
        unfold bit_lines_apart in A1. rewrite <- Hw. exact A1.
Qed.

(** C8.  Each overload of [rasterOpGeneric] that takes grids (two grids,
    three grids, a constant binary image and a grid, a binary image that
    can be written and a grid), for grids whose widths or heights
    differ, throws [std::invalid_argument] before it invokes the
    operation on any element and leaves every grid as it was.  When all
    dimensions match it does not throw, the operation is invoked on
    every pixel, once, row by row, the places of the buffers that hold
    no pixel keep their values, and, the lines of each grid not
    overlapping, every pixel ends with what the operation made of the
    elements it had.  For the binary image that can be written this
    holds of operations that assign 0 or 1 to the bit; without
    [assert], the loop returns for every operation.  The two-grid
    overload of [rasterOpGenericXY] is not among them: its body reads
    names that nothing declares. *)
Theorem rasterOp_grids_size_check :
  (forall (T1 : Type) (g1 g2 : GridAccessor T1) (op : T1 -> T1 -> T1 * T1),
     let r := rasterOpGeneric_grid2 g1 g2 op in
     (width g1 <> width g2 \/ height g1 <> height g2 ->
      r = mkRun size_mismatch (g1, g2) []) /\
     (width g1 = width g2 -> height g1 = height g2 ->
      exit r = Returned /\
      invoked r = pixels (width g1) (height g1) /\
      same_layout g1 (fst (final r)) /\ same_layout g2 (snd (final r)) /\
      (forall j, outside g1 j -> data (fst (final r)) j = data g1 j) /\
      (forall j, outside g2 j -> data (snd (final r)) j = data g2 j) /\
      (lines_apart g1 -> lines_apart g2 ->
       forall x y, 0 <= x < width g1 -> 0 <= y < height g1 ->
         elem (fst (final r)) x y = fst (op (elem g1 x y) (elem g2 x y)) /\
         elem (snd (final r)) x y = snd (op (elem g1 x y) (elem g2 x y))))) /\
  (forall (T1 T2 T3 : Type) (g1 : GridAccessor T1) (g2 : GridAccessor T2)
          (g3 : GridAccessor T3) (op : T1 -> T2 -> T3 -> T1 * T2 * T3),
     let r := rasterOpGeneric_grid3 g1 g2 g3 op in
     (width g1 <> width g2 \/ height g1 <> height g2 \/
      width g1 <> width g3 \/ height g1 <> height g3 ->
      r = mkRun size_mismatch (g1, g2, g3) []) /\
     (width g1 = width g2 -> height g1 = height g2 ->
      width g1 = width g3 -> height g1 = height g3 ->
      exit r = Returned /\
      invoked r = pixels (width g1) (height g1) /\
      same_layout g1 (fst (fst (final r))) /\ same_layout g2 (snd (fst (final r))) /\
      same_layout g3 (snd (final r)) /\
      (forall j, outside g1 j -> data (fst (fst (final r))) j = data g1 j) /\
      (forall j, outside g2 j -> data (snd (fst (final r))) j = data g2 j) /\
      (forall j, outside g3 j -> data (snd (final r)) j = data g3 j) /\
      (lines_apart g1 -> lines_apart g2 -> lines_apart g3 ->
       forall x y, 0 <= x < width g1 -> 0 <= y < height g1 ->
         let v := op (elem g1 x y) (elem g2 x y) (elem g3 x y) in
         elem (fst (fst (final r))) x y = fst (fst v) /\
         elem (snd (fst (final r))) x y = snd (fst v) /\
         elem (snd (final r)) x y = snd v))) /\
  (forall (T2 : Type) (img : BinaryImage) (g : GridAccessor T2) (op : Z -> T2 -> T2),
     let r := rasterOpGeneric_cbin_grid img g op in
     (bi_width img <> width g \/ bi_height img <> height g ->
      r = mkRun size_mismatch (img, g) []) /\
     (bi_width img = width g -> bi_height img = height g ->
      exit r = Returned /\
      invoked r = pixels (width g) (height g) /\
      fst (final r) = img /\ same_layout g (snd (final r)) /\
      (forall j, outside g j -> data (snd (final r)) j = data g j) /\
      (lines_apart g ->
       forall x y, 0 <= x < width g -> 0 <= y < height g ->
         elem (snd (final r)) x y = op (bit_at img x y) (elem g x y)))) /\
  (forall (T2 : Type) (NDEBUG : bool) (img : BinaryImage) (g : GridAccessor T2)
          (op : Z -> T2 -> option Z * T2),
     let r := rasterOpGeneric_bin_grid NDEBUG img g op in
     (bi_width img <> width g \/ bi_height img <> height g ->
      r = mkRun size_mismatch (img, g) []) /\
     (bi_width img = width g -> bi_height img = height g ->
      exit r <> size_mismatch /\
      same_image_layout img (fst (final r)) /\ same_layout g (snd (final r)) /\
      (NDEBUG = true \/ assigns_bits op ->
       exit r = Returned /\ invoked r = pixels (width g) (height g)) /\
      (assigns_bits op ->
       (forall j, outside g j -> data (snd (final r)) j = data g j) /\
       (forall j s, 0 <= s < 32 -> bit_outside img j s ->
          Z.testbit (bi_data (fst (final r)) j) s = Z.testbit (bi_data img j) s) /\
       (bit_lines_apart img -> lines_apart g ->
        forall x y, 0 <= x < width g -> 0 <= y < height g ->
          let r0 := op (bit_at img x y) (elem g x y) in
          bit_at (fst (final r)) x y = bit_after (fst r0) (bit_at img x y) /\
          elem (snd (final r)) x y = snd r0)))) /\
  (forall w h x y, In (x, y) (pixels w h) <-> 0 <= x < w /\ 0 <= y < h) /\
  (forall w h, NoDup (pixels w h)).
Proof.
  split; [intros; apply rasterOpGeneric_grid2_spec|].
  split; [intros; apply rasterOpGeneric_grid3_spec|].
  split; [intros; apply rasterOpGeneric_cbin_grid_spec|].
  split; [intros; apply rasterOpGeneric_bin_grid_spec|].
  split; [apply in_pixels|apply pixels_NoDup].
Qed.

Lemma rasterOp_grids_size_check_witness :
  rasterOpGeneric_grid2 (sample_grid 2 2) (sample_grid 3 2) (fun a b => (b, a))
    = mkRun size_mismatch (sample_grid 2 2, sample_grid 3 2) [] /\
  elem (fst (final (rasterOpGeneric_grid2 tens_grid (sample_grid 2 2)
                      (fun a b => (b, a))))) 1 1 = 3 /\
  elem (snd (final (rasterOpGeneric_grid2 tens_grid (sample_grid 2 2)
                      (fun a b => (b, a))))) 1 1 = 21.
Proof.
  destruct rasterOp_grids_size_check as [H2 _].
  destruct (H2 Z (sample_grid 2 2) (sample_grid 3 2) (fun a b => (b, a))) as [Hthrow _].
  destruct (H2 Z tens_grid (sample_grid 2 2) (fun a b => (b, a))) as [_ Hrun].
  destruct (Hrun eq_refl eq_refl) as (_ & _ & _ & _ & _ & _ & Hpix).
  assert (A1 : lines_apart tens_grid) by (unfold lines_apart; simpl; lia).
  assert (A2 : lines_apart (sample_grid 2 2)) by (unfold lines_apart; simpl; lia).
  destruct (Hpix A1 A2 1 1) as [P1 P2]; [simpl; lia|simpl; lia|].
  split; [|split].
  - apply Hthrow. left. simpl. discriminate.
  - exact P1.
  - exact P2.
Defined.

End RasterPixels.
(** ** Pasting a zone *)

Section PasteAction.
Import Zones Interaction ZoneDefaultInteraction PasteSpec.

Section QtOperations.
Variable QTransform : Type.
Variable QTransform_identity : QTransform.
Variable translate : QTransform -> Q -> Q -> QTransform.
Variable QTransform_map : QTransform -> QPolygonF -> QPolygonF.
Variable QPolygonF_equal : QPolygonF -> QPolygonF -> bool.

Local Abbreviation shift := (translate QTransform_identity 100 100).
Local Abbreviation found := (PasteSpec.found QPolygonF_equal).
Local Abbreviation shifted :=
  (PasteSpec.shifted QTransform QTransform_identity translate QTransform_map).
Local Abbreviation first_free :=
  (PasteSpec.first_free QTransform QTransform_identity translate QTransform_map
     QPolygonF_equal).
Local Abbreviation paste_loop :=
  (ZoneDefaultInteraction.paste_loop QTransform QTransform_map QPolygonF_equal).
Local Abbreviation pasteAction :=
  (ZoneDefaultInteraction.pasteAction QTransform QTransform_identity translate
     QTransform_map QPolygonF_equal).

Lemma shifted_succ (k : nat) (p : QPolygonF) :
  shifted (S k) p = shifted k (QTransform_map shift p).
Proof. unfold PasteSpec.shifted. apply Nat.iter_succ_r. Qed.

Lemma first_free_unique (zs : EditableZoneSet) (p : QPolygonF) (j k : nat) :
  first_free zs p j -> first_free zs p k -> j = k.
Proof.
  intros [Hj Fj] [Hk Fk].
  destruct (Nat.lt_trichotomy j k) as [H|[H|H]]; [|assumption|].
  - rewrite (Hk j H) in Fj. discriminate.
  - rewrite (Hj k H) in Fk. discriminate.
Qed.

(** The loop after [fuel] rounds: it is still running and every offset
    so far was taken, or it ended at the first free offset with the
    polygon at that offset added and one commit made. *)
Lemma paste_loop_rounds (fuel : nat) :
  forall (zs : EditableZoneSet) (p : QPolygonF),
    match paste_loop fuel zs shift p with
    | None => forall i, (i < fuel)%nat -> found zs (shifted i p) = true
    | Some zs' =>
      exists k, (k < fuel)%nat /\ first_free zs p k /\
        zs' = commit (addZone (EditableSpline_of_polygon (shifted k p)) zs)
    end.
Proof.
  induction fuel as [|fuel IH]; intros zs p; cbn [ZoneDefaultInteraction.paste_loop].
  - intros i Hi. lia.
  - change (existsb _ (m_zones zs)) with (found zs p).
    destruct (found zs p) eqn:E.
    + specialize (IH zs (QTransform_map shift p)).
      destruct (paste_loop fuel zs shift (QTransform_map shift p)) as [zs'|].
      * destruct IH as (k & Hk & [Hb Hf] & ->).
        exists (S k). split; [lia|]. split; [split|].
        -- intros [|i] Hi; [exact E|]. rewrite shifted_succ. apply Hb. lia.
        -- now rewrite shifted_succ.
        -- now rewrite shifted_succ.
      * intros [|i] Hi; [exact E|]. rewrite shifted_succ. apply IH. lia.
    + exists 0%nat. split; [lia|]. split; [split|].
      * intros i Hi. lia.
      * exact E.
      * reflexivity.
Qed.


End QtOperations.


End PasteAction.
(** ** Proximity arbitration *)

Section Arbitration.
Import Interaction ArbitrationSpec.

Lemma Qlt_bool_iff (a b : Q) : Qlt_bool a b = true <-> (a < b)%Q.
Proof.
  unfold Qlt_bool. rewrite negb_true_iff. split.
  - intros H. apply Qnot_le_lt. intros Hle. apply Qle_bool_iff in Hle. congruence.
  - intros H. destruct (Qle_bool b a) eqn:E; [|reflexivity].
    apply Qle_bool_iff in E. lra.
Qed.

Lemma Proximity_ltb_irrefl (a : Proximity) : Proximity_ltb a a = false.
Proof.
  destruct a as [x|]; simpl; [|reflexivity].
  destruct (Qlt_bool x x) eqn:E; [|reflexivity].
  apply Qlt_bool_iff in E. lra.
Qed.

Lemma Proximity_ltb_trans (a b c : Proximity) :
  Proximity_ltb a b = true -> Proximity_ltb b c = true -> Proximity_ltb a c = true.
Proof.
  destruct a as [x|], b as [y|], c as [z|]; simpl; try discriminate; auto.
  rewrite !Qlt_bool_iff. intros; lra.
Qed.

(** Of two proximities one is below the other or neither is; in the
    second case they are at the same distance. *)
Lemma Proximity_ltb_asym (a b : Proximity) :
  Proximity_ltb a b = true -> Proximity_ltb b a = false.
Proof.
  intros H. destruct (Proximity_ltb b a) eqn:E; [|reflexivity].
  pose proof (Proximity_ltb_trans _ _ _ H E) as T.
  now rewrite Proximity_ltb_irrefl in T.
Qed.

Lemma Proximity_ltb_negtrans (a b c : Proximity) :
  Proximity_ltb a b = false -> Proximity_ltb b c = false -> Proximity_ltb a c = false.
Proof.
  destruct a as [x|], b as [y|], c as [z|]; simpl; try discriminate; auto.
  intros H1 H2. destruct (Qlt_bool x z) eqn:E; [|reflexivity].
  apply Qlt_bool_iff in E.
  assert (~ (x < y)%Q) by (intros C; apply Qlt_bool_iff in C; congruence).
  assert (~ (y < z)%Q) by (intros C; apply Qlt_bool_iff in C; congruence).
  lra.
Qed.

Lemma betterProximity_irrefl (order : PriorityOrder) (c : Claim) :
  betterProximity order c c = false.
Proof.
  unfold betterProximity. rewrite Z.eqb_refl. simpl. apply Proximity_ltb_irrefl.
Qed.

Lemma betterProximity_trans (order : PriorityOrder) (a b c : Claim) :
  betterProximity order a b = true -> betterProximity order b c = true ->
  betterProximity order a c = true.
Proof.
  unfold betterProximity, priority_wins.
  destruct (Z.eqb_spec (claim_priority a) (claim_priority b)) as [Eab|Nab],
           (Z.eqb_spec (claim_priority b) (claim_priority c)) as [Ebc|Nbc],
           (Z.eqb_spec (claim_priority a) (claim_priority c)) as [Eac|Nac];
    simpl; try lia; destruct order; rewrite ?Z.ltb_lt; try lia;
    try (apply Proximity_ltb_trans); try (intros; congruence).
Qed.

(** What a claim that is better than another says about the two: its
    priority wins, or the priorities are equal and its distance is
    lower. *)
Lemma betterProximity_lex (order : PriorityOrder) (c b : Claim) :
  betterProximity order c b = true <->
  priority_wins order (claim_priority c) (claim_priority b) = true \/
  (claim_priority c = claim_priority b /\
   Proximity_ltb (claim_proximity c) (claim_proximity b) = true).
Proof.
  unfold betterProximity.
  destruct (Z.eqb_spec (claim_priority c) (claim_priority b)) as [E|N]; simpl.
  - split; [auto|]. intros [H|[_ H]]; [|exact H].
    rewrite E in H. destruct order; simpl in H; apply Z.ltb_lt in H; lia.
  - split; [auto|]. intros [H|[H _]]; [exact H|contradiction].
Qed.

Lemma consider_leads (order : PriorityOrder) (seen : list Claim) (best : option Claim)
    (c : Claim) :
  leads order seen best -> leads order (seen ++ [c]) (consider order best c).
Proof.
  unfold consider, leads, candidate. intros H.
  destruct (claim_proximity c) as [d|] eqn:Ec.
  - destruct best as [b|].
    + destruct H as (Hin & Hb & Hbest).
      destruct (betterProximity order c b) eqn:Ecb.
      * split; [apply in_or_app; right; left; reflexivity|].
        split; [congruence|].
        intros c' Hc' Hcand. apply in_app_or in Hc'. destruct Hc' as [Hc'|[<-|[]]].
        -- destruct (betterProximity order c' c) eqn:E; [|reflexivity].
           pose proof (betterProximity_trans _ _ _ _ E Ecb) as T.
           rewrite (Hbest c' Hc' Hcand) in T. discriminate.
        -- apply betterProximity_irrefl.
      * split; [apply in_or_app; left; exact Hin|].
        split; [exact Hb|].
        intros c' Hc' Hcand. apply in_app_or in Hc'. destruct Hc' as [Hc'|[<-|[]]].
        -- now apply Hbest.
        -- exact Ecb.
    + split; [apply in_or_app; right; left; reflexivity|].
      split; [congruence|].
      intros c' Hc' Hcand. apply in_app_or in Hc'. destruct Hc' as [Hc'|[<-|[]]].
      * specialize (H c' Hc'). contradiction.
      * apply betterProximity_irrefl.
  - destruct best as [b|].
    + destruct H as (Hin & Hb & Hbest).
      split; [apply in_or_app; left; exact Hin|]. split; [exact Hb|].
      intros c' Hc' Hcand. apply in_app_or in Hc'. destruct Hc' as [Hc'|[<-|[]]].
      * now apply Hbest.
      * contradiction.
    + intros c' Hc'. apply in_app_or in Hc'. destruct Hc' as [Hc'|[<-|[]]]; auto.
Qed.

Lemma fold_consider_leads (order : PriorityOrder) (claims seen : list Claim)
    (best : option Claim) :
  leads order seen best ->
  leads order (seen ++ claims) (fold_left (consider order) claims best).
Proof.
  revert seen best. induction claims as [|c claims IH]; intros seen best H; simpl.
  - now rewrite app_nil_r.
  - replace (seen ++ c :: claims) with ((seen ++ [c]) ++ claims)
      by (rewrite <- app_assoc; reflexivity).
    apply IH. now apply consider_leads.
Qed.

Lemma leader_leads (order : PriorityOrder) (claims : list Claim) :
  leads order claims (leader order claims).
Proof.
  apply (fold_consider_leads order claims [] None). intros c [].
Qed.

(** C3, as the registry decides it when the higher priority value wins.
    Priority is the first key of the comparison and distance the second,
    the lower distance winning: no candidate of the cycle has a higher
    priority than the leader, and none of equal priority is nearer.  So a
    vertex claim, registered with priority 1, never loses the leadership
    to a segment claim, registered with priority 0, at equal distance:
    with the vertex claim registered at distance [d] the leader is not a
    segment claim of priority 0 at distance [d], and of the two alone the
    vertex claim leads in either order of registration. *)
Theorem vertex_claim_not_beaten_by_segment (claims : list Claim) (d : Q)
    (threshold : option Proximity) (b : Claim) :
  In (mkClaim VertexProximity (Finite d) 1 threshold) claims ->
  leader HigherValueWins claims = Some b ->
  (forall c, In c claims -> candidate c ->
     claim_priority c <= claim_priority b /\
     (claim_priority c = claim_priority b ->
      Proximity_ltb (claim_proximity c) (claim_proximity b) = false)) /\
  (forall ts, b <> mkClaim SegmentProximity (Finite d) 0 ts) /\
  leader HigherValueWins [vertex_claim d; segment_claim d] = Some (vertex_claim d) /\
  leader HigherValueWins [segment_claim d; vertex_claim d] = Some (vertex_claim d).
Proof.
  intros Hv Hb.
  pose proof (leader_leads HigherValueWins claims) as L. rewrite Hb in L.
  destruct L as (Hin & Hcand & Hbest).
  assert (Hlex : forall c, In c claims -> candidate c ->
     claim_priority c <= claim_priority b /\
     (claim_priority c = claim_priority b ->
      Proximity_ltb (claim_proximity c) (claim_proximity b) = false)).
  { intros c Hc Hcc. specialize (Hbest c Hc Hcc).
    split.
    - destruct (Z.le_gt_cases (claim_priority c) (claim_priority b)) as [|Hgt]; [assumption|].
      assert (T : betterProximity HigherValueWins c b = true).
      { apply betterProximity_lex. left. simpl. apply Z.ltb_lt. lia. }
      congruence.
    - intros E. destruct (Proximity_ltb (claim_proximity c) (claim_proximity b)) eqn:El;
        [|reflexivity].
      assert (T : betterProximity HigherValueWins c b = true).
      { apply betterProximity_lex. right. auto. }
      congruence. }
  split; [exact Hlex|]. split.
  - intros ts E.
    destruct (Hlex _ Hv) as [H1 _]; [unfold candidate; simpl; discriminate|].
    rewrite E in H1. simpl in H1. lia.
  - unfold leader, consider, betterProximity, vertex_claim, segment_claim. simpl.
    split; reflexivity.
Qed.

Lemma vertex_claim_not_beaten_by_segment_witness :
  In (vertex_claim 4) sample_cycle /\
  leader HigherValueWins sample_cycle = Some (vertex_claim 4) /\
  vertex_claim 4 <> segment_claim 4.
Proof.
  assert (Hin : In (vertex_claim 4) sample_cycle) by (right; left; reflexivity).
  assert (Hl : leader HigherValueWins sample_cycle = Some (vertex_claim 4)) by reflexivity.
  split; [exact Hin|]. split; [exact Hl|].
  exact (proj1 (proj2 (vertex_claim_not_beaten_by_segment sample_cycle 4 None
                         (vertex_claim 4) Hin Hl)) None).
Defined.

(** C3 as it is stated, with the lower priority value winning: of a
    vertex claim and a segment claim at the same distance the segment
    claim leads, so that the vertex claim has lost the leadership to
    it. *)
Lemma vertex_claim_loses_when_lower_wins :
  leader LowerValueWins [vertex_claim 4; segment_claim 4] = Some (segment_claim 4) /\
  proximityLeader LowerValueWins
    (mkInteractionState None [vertex_claim 4; segment_claim 4]) VertexProximity = false /\
  proximityLeader LowerValueWins
    (mkInteractionState None [vertex_claim 4; segment_claim 4]) SegmentProximity = true.
Proof. repeat split; reflexivity. Qed.

End Arbitration.
(** ** Release of the left button in the default interaction *)

Section Release.
Import Interaction ZoneDefaultInteraction DefaultInteractionSpec.

(** C7 as it is stated does not hold: a release of the left button with no
    significant drag and no proximity claim active, received while no
    handler holds the capture, leaves the default interaction in place
    and the event unaccepted. *)
Lemma release_without_capture_ignored :
  ~ (forall (order : PriorityOrder) (event : QMouseEvent)
            (interaction : InteractionState) (h : Handler),
       button event = LeftButton ->
       m_dragWatcher_haveSignificantDrag h = false ->
       leader order (m_claims interaction) = None ->
       onMouseReleaseEvent event interaction h =
       mkOutcome (ReplaceSelfWith ZoneCreationInteraction) true).
Proof.
  intros H.
  specialize (H LowerValueWins left_release free_interaction idle_handler
                eq_refl eq_refl eq_refl).
  discriminate H.
Qed.

(** C7, with the capture in the place of the proximity claims.  A release
    of the left button received while the drag handler of the default
    interaction holds the capture, as it does from the press on, and with
    no significant drag since, makes the default interaction replace
    itself by a zone creation handler and accept the event, whatever the
    proximity claims are; with the capture elsewhere or nowhere the
    release is ignored.  In the scenario with no zones, the proximity
    update registers no candidate, the press of the left button finds no
    leader and leaves the default interaction in place and the event
    unaccepted, and the release that follows, with the capture taken by
    the drag handler at the press and no significant drag, replaces the
    default interaction by the zone creation handler. *)
Theorem release_after_captured_press (order : PriorityOrder)
    (to_screen from_screen : QPointF -> QPointF)
    (path_contains : EditableSpline -> QPointF -> bool)
    (Proximity_points : QPointF -> QPointF -> Proximity)
    (pointAndLineSegment : QPointF -> QLineF -> Proximity * QPointF)
    (event : QMouseEvent) (interaction : InteractionState) (h : Handler) :
  button event = LeftButton ->
  m_dragWatcher_haveSignificantDrag h = false ->
  (m_captor interaction = Some DragHandlerOfDefault ->
   onMouseReleaseEvent event interaction h =
   mkOutcome (ReplaceSelfWith ZoneCreationInteraction) true) /\
  (m_captor interaction <> Some DragHandlerOfDefault ->
   onMouseReleaseEvent event interaction h = mkOutcome Stay false) /\
  (forall (mouse_pos : QPointF) (shiftState : ShiftState),
     let update :=
       onProximityUpdate to_screen from_screen path_contains Proximity_points
         pointAndLineSegment mouse_pos shiftState [] h in
     let hovering := mkInteractionState None (snd update) in
     leader order (m_claims hovering) = None /\
     onMousePressEvent order from_screen event hovering (fst update) =
       mkOutcome Stay false /\
     onMouseReleaseEvent event (capture DragHandlerOfDefault hovering) (fst update) =
       mkOutcome (ReplaceSelfWith ZoneCreationInteraction) true).
Proof.
  intros Hb Hd. split; [|split].
  - intros Hc. unfold onMouseReleaseEvent, captured, m_dragHandler_isActive, capturedBy.
    rewrite Hb, Hd, Hc. reflexivity.
  - intros Hc. unfold onMouseReleaseEvent, captured, m_dragHandler_isActive, capturedBy.
    rewrite Hb. destruct (m_captor interaction) as [[|n]|]; [congruence|reflexivity|reflexivity].
  - intros mouse_pos shiftState update hovering.
    split; [reflexivity|]. split.
    + unfold onMousePressEvent, proximityLeader, captured. simpl. rewrite Hb. reflexivity.
    + unfold onMouseReleaseEvent, captured, m_dragHandler_isActive, capturedBy.
      simpl. rewrite Hb, Hd. reflexivity.
Qed.

Lemma release_after_captured_press_witness :
  onMouseReleaseEvent left_release (capture DragHandlerOfDefault free_interaction)
    idle_handler
    = mkOutcome (ReplaceSelfWith ZoneCreationInteraction) true /\
  onMouseReleaseEvent left_release free_interaction idle_handler = mkOutcome Stay false.
Proof.
  destruct (release_after_captured_press LowerValueWins (fun pt => pt) (fun pt => pt)
              (fun _ _ => false) (fun _ _ => Infinite) (fun _ l => (Infinite, fst l))
              left_release (capture DragHandlerOfDefault free_interaction)
              idle_handler eq_refl eq_refl) as [Hon _].
  destruct (release_after_captured_press LowerValueWins (fun pt => pt) (fun pt => pt)
              (fun _ _ => false) (fun _ _ => Infinite) (fun _ l => (Infinite, fst l))
              left_release free_interaction idle_handler eq_refl eq_refl) as [_ [Hoff _]].
  split; [apply Hon; reflexivity|apply Hoff; discriminate].
Defined.

End Release.
(** ** The proximity update of the default interaction *)

Section ProximityUpdate.
Import Interaction ZoneDefaultInteraction DefaultInteractionSpec.

Variable to_screen : QPointF -> QPointF.
Variable from_screen : QPointF -> QPointF.
Variable path_contains : EditableSpline -> QPointF -> bool.
Variable Proximity_points : QPointF -> QPointF -> Proximity.
Variable pointAndLineSegment : QPointF -> QLineF -> Proximity * QPointF.

Local Abbreviation scan_vertices := (scan_vertices to_screen Proximity_points).
Local Abbreviation scan_segments := (scan_segments to_screen pointAndLineSegment).
Local Abbreviation scan_zone := (scan_zone to_screen path_contains Proximity_points pointAndLineSegment).
Local Abbreviation scan_zones :=
  (scan_zones to_screen from_screen path_contains Proximity_points pointAndLineSegment).
Local Abbreviation onProximityUpdate :=
  (onProximityUpdate to_screen from_screen path_contains Proximity_points pointAndLineSegment).

Local Abbreviation vertex_proximities :=
  (DefaultInteractionSpec.vertex_proximities to_screen Proximity_points).
Local Abbreviation segment_proximities :=
  (DefaultInteractionSpec.segment_proximities to_screen pointAndLineSegment).
Local Abbreviation all_vertex_proximities :=
  (DefaultInteractionSpec.all_vertex_proximities to_screen Proximity_points).
Local Abbreviation all_segment_proximities :=
  (DefaultInteractionSpec.all_segment_proximities to_screen pointAndLineSegment).
Local Abbreviation first_containing :=
  (DefaultInteractionSpec.first_containing path_contains).

Lemma scan_vertices_spec (mouse_pos : QPointF) (zi : nat) (s : EditableSpline) (sc : Scan) :
  let sc' := scan_vertices mouse_pos zi s sc in
  best_vertex_proximity sc' =
    fold_left closer (vertex_proximities mouse_pos s) (best_vertex_proximity sc) /\
  best_segment_proximity sc' = best_segment_proximity sc /\
  nearest_zone_spline sc' = nearest_zone_spline sc /\
  has_zone_under_mouse sc' = has_zone_under_mouse sc.
Proof.
  unfold ZoneDefaultInteraction.scan_vertices, DefaultInteractionSpec.vertex_proximities.
  generalize (seq 0 (List.length s)). intros l. revert sc.
  induction l as [|vi l IH]; intros sc; simpl.
  - auto.
  - unfold closer at 2.
    destruct (Proximity_ltb _ (best_vertex_proximity sc)) eqn:E;
      match goal with
      | |- context [fold_left _ l ?a] => destruct (IH a) as (I1 & I2 & I3 & I4)
      end;
      rewrite I1, I2, I3, I4; simpl; auto.
Qed.

Lemma scan_segments_spec (mouse_pos : QPointF) (zi : nat) (s : EditableSpline) (sc : Scan) :
  let sc' := scan_segments mouse_pos zi s sc in
  best_segment_proximity sc' =
    fold_left closer (segment_proximities mouse_pos s) (best_segment_proximity sc) /\
  best_vertex_proximity sc' = best_vertex_proximity sc /\
  nearest_zone_spline sc' = nearest_zone_spline sc /\
  has_zone_under_mouse sc' = has_zone_under_mouse sc.
Proof.
  unfold ZoneDefaultInteraction.scan_segments, DefaultInteractionSpec.segment_proximities.
  generalize (segments s). intros l. revert sc.
  induction l as [|seg l IH]; intros sc; simpl.
  - auto.
  - unfold closer at 2.
    destruct (pointAndLineSegment _ _) as [proximity point_on_segment]. simpl fst.
    destruct (Proximity_ltb _ (best_segment_proximity sc)) eqn:E;
      match goal with
      | |- context [fold_left _ l ?a] => destruct (IH a) as (I1 & I2 & I3 & I4)
      end;
      rewrite I1, I2, I3, I4; simpl; auto.
Qed.

Lemma scan_zone_spec (mouse_pos image_mouse_pos : QPointF) (sc : Scan) (zi : nat)
    (zone : Zone) :
  let sc' := scan_zone mouse_pos image_mouse_pos sc (zi, zone) in
  best_vertex_proximity sc' =
    fold_left closer (vertex_proximities mouse_pos (spline zone)) (best_vertex_proximity sc) /\
  best_segment_proximity sc' =
    fold_left closer (segment_proximities mouse_pos (spline zone))
      (best_segment_proximity sc) /\
  has_zone_under_mouse sc' =
    has_zone_under_mouse sc || path_contains (spline zone) image_mouse_pos /\
  nearest_zone_spline sc' =
    (if negb (has_zone_under_mouse sc) && path_contains (spline zone) image_mouse_pos
     then Some zi else nearest_zone_spline sc).
Proof.
  unfold ZoneDefaultInteraction.scan_zone. cbn [fst snd].
  destruct (has_zone_under_mouse sc) eqn:Hz; cbn [negb];
    [|destruct (path_contains (spline zone) image_mouse_pos) eqn:Hc];
    match goal with
    | |- context [scan_segments _ _ _ (scan_vertices _ _ _ ?sc1)] =>
      destruct (scan_vertices_spec mouse_pos zi (spline zone) sc1) as (V1 & V2 & V3 & V4);
      destruct (scan_segments_spec mouse_pos zi (spline zone)
                  (scan_vertices mouse_pos zi (spline zone) sc1)) as (S1 & S2 & S3 & S4)
    end;
    cbv zeta in *; rewrite S1, S2, S3, S4, V1, V2, V3, V4; simpl; rewrite ?Hz; auto.
Qed.

Lemma scan_zones_from (mouse_pos image_mouse_pos : QPointF) (zones : list Zone) :
  forall (i : nat) (sc : Scan),
    let sc' := fold_left (scan_zone mouse_pos image_mouse_pos)
                 (combine (seq i (List.length zones)) zones) sc in
    best_vertex_proximity sc' =
      fold_left closer (all_vertex_proximities mouse_pos zones) (best_vertex_proximity sc) /\
    best_segment_proximity sc' =
      fold_left closer (all_segment_proximities mouse_pos zones)
        (best_segment_proximity sc) /\
    has_zone_under_mouse sc' =
      has_zone_under_mouse sc ||
      existsb (fun zone => path_contains (spline zone) image_mouse_pos) zones /\
    nearest_zone_spline sc' =
      (if has_zone_under_mouse sc then nearest_zone_spline sc
       else match first_containing image_mouse_pos i zones with
            | Some zi => Some zi
            | None => nearest_zone_spline sc
            end).
Proof.
  induction zones as [|zone rest IH]; intros i sc; simpl.
  - rewrite orb_false_r. destruct (has_zone_under_mouse sc); auto.
  - destruct (scan_zone_spec mouse_pos image_mouse_pos sc i zone) as (Z1 & Z2 & Z3 & Z4).
    specialize (IH (S i) (scan_zone mouse_pos image_mouse_pos sc (i, zone))).
    simpl in IH. destruct IH as (I1 & I2 & I3 & I4).
    rewrite I1, I2, I3, I4, Z1, Z2, Z3, Z4.
    rewrite !fold_left_app.
    destruct (has_zone_under_mouse sc); simpl; [auto|].
    destruct (path_contains (spline zone) image_mouse_pos); simpl; auto.
Qed.

(** The values of the pass over all zones. *)
Lemma scan_zones_spec (mouse_pos : QPointF) (h : Handler) (zones : list Zone) :
  let sc := scan_zones mouse_pos h zones in
  best_vertex_proximity sc =
    fold_left closer (all_vertex_proximities mouse_pos zones) Proximity_default /\
  best_segment_proximity sc =
    fold_left closer (all_segment_proximities mouse_pos zones) Proximity_default /\
  has_zone_under_mouse sc =
    existsb (fun zone => path_contains (spline zone) (from_screen mouse_pos)) zones /\
  nearest_zone_spline sc =
    match first_containing (from_screen mouse_pos) 0 zones with
    | Some zi => Some zi
    | None => m_ptrNearestZoneSpline h
    end.
Proof.
  unfold ZoneDefaultInteraction.scan_zones, indexed.
  apply (scan_zones_from mouse_pos (from_screen mouse_pos) zones 0).
Qed.

(** [fold_left closer] gives a lower bound of the list that is the
    starting value or a member. *)
Lemma fold_closer_min (ps : list Proximity) :
  forall init,
    let best := fold_left closer ps init in
    Proximity_ltb init best = false /\
    (forall p, In p ps -> Proximity_ltb p best = false) /\
    (best = init \/ In best ps).
Proof.
  induction ps as [|p ps IH]; intros init; simpl.
  - split; [apply Proximity_ltb_irrefl|]. split; [intros p []|auto].
  - specialize (IH (closer init p)). simpl in IH. destruct IH as (I1 & I2 & I3).
    set (best := fold_left closer ps (closer init p)) in *.
    unfold closer in I1, I3.
    destruct (Proximity_ltb p init) eqn:E.
    + split.
      { destruct (Proximity_ltb init best) eqn:E2; [|reflexivity].
        pose proof (Proximity_ltb_trans _ _ _ E E2). congruence. }
      split.
      { intros q [<-|Hq]; [exact I1|now apply I2]. }
      destruct I3 as [->|I3]; auto.
    + split; [exact I1|]. split.
      { intros q [<-|Hq]; [|now apply I2].
        eapply Proximity_ltb_negtrans; [exact E|exact I1]. }
      destruct I3 as [->|I3]; auto.
Qed.

Lemma std_min_spec (a b : Proximity) :
  Proximity_ltb a (std_min a b) = false /\
  Proximity_ltb b (std_min a b) = false /\
  (std_min a b = a \/ std_min a b = b).
Proof.
  unfold std_min. destruct (Proximity_ltb b a) eqn:E.
  - split; [now apply Proximity_ltb_asym|]. split; [apply Proximity_ltb_irrefl|auto].
  - split; [apply Proximity_ltb_irrefl|]. split; [exact E|auto].
Qed.

Lemma first_containing_spec (pt : QPointF) (zones : list Zone) :
  forall i,
    match first_containing pt i zones with
    | Some zi =>
      (i <= zi)%nat /\
      (exists zone, nth_error zones (zi - i) = Some zone /\
                    path_contains (spline zone) pt = true) /\
      (forall j zone, (j < zi - i)%nat -> nth_error zones j = Some zone ->
                      path_contains (spline zone) pt = false)
    | None =>
      existsb (fun zone => path_contains (spline zone) pt) zones = false
    end.
Proof.
  induction zones as [|zone rest IH]; intros i; simpl; [reflexivity|].
  destruct (path_contains (spline zone) pt) eqn:E.
  - split; [lia|]. rewrite Nat.sub_diag. split.
    + exists zone. auto.
    + intros j z Hj. lia.
  - specialize (IH (S i)). destruct (first_containing pt (S i) rest) as [zi|].
    + destruct IH as (Hle & [z [Hz Hc]] & Hbefore).
      split; [lia|]. split.
      * exists z. replace (zi - i)%nat with (S (zi - S i)) by lia. auto.
      * intros j z' Hj Hz'. destruct j as [|j]; simpl in Hz'.
        -- inversion Hz'; subst. exact E.
        -- apply (Hbefore j z'); [lia|exact Hz'].
    + exact IH.
Qed.

(** C2, as the update registers the claims.  Every proximity update of
    the default interaction registers the nearest-vertex claim with
    priority 1 and then the nearest-segment claim with priority 0; it
    registers the zone-interior claim with priority -1 after them exactly
    when the pointer lies inside the polygon of some zone, so three
    claims then and two otherwise.  The vertex and segment claims carry
    the least proximity over all vertices and over all segments of all
    zones; the distance of the zone-interior claim is the minimum of
    these two, so that neither of them is below it.  The remembered
    interior zone is the first zone, in the order of the zone set, whose
    polygon contains the pointer, and stays what it was when no polygon
    contains it. *)
Theorem proximity_update_claims (mouse_pos : QPointF) (shiftState : ShiftState)
    (zones : list Zone) (h : Handler) :
  let r := onProximityUpdate mouse_pos shiftState zones h in
  let image_mouse_pos := from_screen mouse_pos in
  let inside := existsb (fun zone => path_contains (spline zone) image_mouse_pos) zones in
  let best_v := fold_left closer (all_vertex_proximities mouse_pos zones) Proximity_default in
  let best_s := fold_left closer (all_segment_proximities mouse_pos zones) Proximity_default in
  let area := std_min best_v best_s in
  snd r =
    [mkClaim VertexProximity best_v 1 None; mkClaim SegmentProximity best_s 0 None] ++
    (if inside then [mkClaim ZoneAreaProximity area (-1) (Some area)] else []) /\
  List.length (snd r) = (if inside then 3%nat else 2%nat) /\
  (forall p, In p (all_vertex_proximities mouse_pos zones) -> Proximity_ltb p best_v = false) /\
  (best_v = Proximity_default \/ In best_v (all_vertex_proximities mouse_pos zones)) /\
  (forall p, In p (all_segment_proximities mouse_pos zones) -> Proximity_ltb p best_s = false) /\
  (best_s = Proximity_default \/ In best_s (all_segment_proximities mouse_pos zones)) /\
  (Proximity_ltb best_v area = false /\ Proximity_ltb best_s area = false /\
   (area = best_v \/ area = best_s)) /\
  match first_containing image_mouse_pos 0 zones with
  | Some zi =>
    inside = true /\
    m_ptrNearestZoneSpline (fst r) = Some zi /\
    (exists zone, nth_error zones zi = Some zone /\
                  path_contains (spline zone) image_mouse_pos = true) /\
    (forall j zone, (j < zi)%nat -> nth_error zones j = Some zone ->
                    path_contains (spline zone) image_mouse_pos = false)
  | None =>
    inside = false /\
    m_ptrNearestZoneSpline (fst r) = m_ptrNearestZoneSpline h
  end.
Proof.
  intros r image_mouse_pos inside best_v best_s area.
  destruct (scan_zones_spec mouse_pos h zones) as (B1 & B2 & B3 & B4).
  fold image_mouse_pos in B3, B4. fold inside in B3. fold best_v in B1. fold best_s in B2.
  assert (Hreg : snd r =
    [mkClaim VertexProximity best_v 1 None; mkClaim SegmentProximity best_s 0 None] ++
    (if inside then [mkClaim ZoneAreaProximity area (-1) (Some area)] else [])).
  { unfold r, ZoneDefaultInteraction.onProximityUpdate. cbv zeta. cbn [snd].
    rewrite B1, B2, B3. fold area. destruct inside; reflexivity. }
  assert (Hzone : m_ptrNearestZoneSpline (fst r) =
    match first_containing image_mouse_pos 0 zones with
    | Some zi => Some zi
    | None => m_ptrNearestZoneSpline h
    end).
  { unfold r, ZoneDefaultInteraction.onProximityUpdate. cbv zeta. cbn [fst].
    cbn [m_ptrNearestZoneSpline]. exact B4. }
  split; [exact Hreg|].
  split; [rewrite Hreg; destruct inside; reflexivity|].
  destruct (fold_closer_min (all_vertex_proximities mouse_pos zones) Proximity_default)
    as (_ & Hv & Hv').
  destruct (fold_closer_min (all_segment_proximities mouse_pos zones) Proximity_default)
    as (_ & Hs & Hs').
  split; [exact Hv|]. split; [exact Hv'|]. split; [exact Hs|]. split; [exact Hs'|].
  split; [apply std_min_spec|].
  pose proof (first_containing_spec image_mouse_pos zones 0) as F.
  destruct (first_containing image_mouse_pos 0 zones) as [zi|].
  - destruct F as (_ & Hex & Hbefore). rewrite Nat.sub_0_r in Hex.
    split.
    { destruct Hex as [zone [Hn Hc]]. unfold inside. apply existsb_exists.
      exists zone. split; [|exact Hc]. eapply nth_error_In; eauto. }
    split; [exact Hzone|]. split; [exact Hex|].
    intros j zone Hj. apply Hbefore. lia.
  - split; [exact F|exact Hzone].
Qed.

End ProximityUpdate.

(** C2 as it is stated does not hold on every update: with no zone under
    the pointer, here with no zone at all, two claims are registered and
    not three; and with the pointer inside a zone and on one of its
    vertices the zone-interior claim is registered although the vertex
    claim, of the higher priority, is the one that leads. *)
Lemma proximity_update_claims_as_stated_fail :
  ~ (forall (zones : list ZoneDefaultInteraction.Zone)
            (h : ZoneDefaultInteraction.Handler),
       exists v s a,
         snd (DefaultInteractionSpec.sample_update zones h)
         = [Interaction.mkClaim Interaction.VertexProximity v 1 None;
            Interaction.mkClaim Interaction.SegmentProximity s 0 None;
            Interaction.mkClaim Interaction.ZoneAreaProximity a (-1) (Some a)]) /\
  (exists v s a,
     snd (DefaultInteractionSpec.sample_update [DefaultInteractionSpec.triangle_zone]
            DefaultInteractionSpec.idle_handler)
     = [Interaction.mkClaim Interaction.VertexProximity v 1 None;
        Interaction.mkClaim Interaction.SegmentProximity s 0 None;
        Interaction.mkClaim Interaction.ZoneAreaProximity a (-1) (Some a)] /\
     Interaction.leader Interaction.HigherValueWins
       (snd (DefaultInteractionSpec.sample_update [DefaultInteractionSpec.triangle_zone]
               DefaultInteractionSpec.idle_handler))
     = Some (Interaction.mkClaim Interaction.VertexProximity v 1 None)).
Proof.
  split.
  - intros H.
    destruct (H [] DefaultInteractionSpec.idle_handler) as (v & s & a & E).
    discriminate E.
  - eexists. eexists. eexists. split; vm_compute; reflexivity.
Qed.

(** ** More on the bit mixing tables *)

Section BitMixingTables.
Import ColorPickupInteraction ColorPickupSpec.

Lemma tables_generated_checked :
  forallb (fun partition =>
    forallb (fun sample =>
      (lookup m_sBitMixingLUT partition sample =?
         generate_mixing (Z.of_nat partition) sample) &&
      (lookup m_sBitUnmixingLUT partition sample =?
         generate_unmixing (Z.of_nat partition) sample)) bytes)
    [0%nat; 1%nat; 2%nat] = true.
Proof. vm_compute. reflexivity. Qed.

(** X1.  Every entry of the two tables is what the loop given in the comment
    above the table computes for its partition and sample. *)
Theorem tables_are_generated (partition : nat) (sample : Z) :
  (partition < 3)%nat -> 0 <= sample < 256 ->
  lookup m_sBitMixingLUT partition sample = generate_mixing (Z.of_nat partition) sample /\
  lookup m_sBitUnmixingLUT partition sample = generate_unmixing (Z.of_nat partition) sample.
Proof.
  intros Hp Hs. pose proof tables_generated_checked as C.
  rewrite forallb_forall in C.
  assert (Hin : In partition [0%nat; 1%nat; 2%nat]).
  { destruct partition as [|[|[|k]]]; simpl; auto. lia. }
  specialize (C partition Hin). rewrite forallb_forall in C.
  specialize (C sample (in_bytes sample Hs)).
  apply andb_prop in C. destruct C as [C1 C2].
  split; now apply Z.eqb_eq.
Qed.

Lemma tables_are_generated_witness :
  lookup m_sBitMixingLUT 1 0x81 = generate_mixing 1 0x81 /\
  lookup m_sBitUnmixingLUT 1 0x81 = generate_unmixing 1 0x81.
Proof. apply (tables_are_generated 1 0x81); lia. Defined.

(** Where the bits of an entry of the mixing tables are: checked on every
    sample and bit of each table. *)
Lemma mixing_bits_checked :
  forallb (fun partition =>
    forallb (fun sample =>
      forallb (fun n =>
        Bool.eqb (Z.testbit (lookup m_sBitMixingLUT partition sample) n)
          ((n <? 24) && ((23 - n) mod 3 =? Z.of_nat partition) &&
           Z.testbit sample (7 - (23 - n) / 3)))
        (range 32) &&
      (lookup m_sBitMixingLUT partition sample <? 2 ^ 24) &&
      (0 <=? lookup m_sBitMixingLUT partition sample)) bytes)
    [0%nat; 1%nat; 2%nat] = true.
Proof. vm_compute. reflexivity. Qed.

Lemma mixing_entry_bits (partition : nat) (sample n : Z) :
  (partition < 3)%nat -> 0 <= sample < 256 -> 0 <= n ->
  Z.testbit (lookup m_sBitMixingLUT partition sample) n =
  (n <? 24) && ((23 - n) mod 3 =? Z.of_nat partition) &&
  Z.testbit sample (7 - (23 - n) / 3).
Proof.
  intros Hp Hs Hn. pose proof mixing_bits_checked as C.
  rewrite forallb_forall in C.
  assert (Hin : In partition [0%nat; 1%nat; 2%nat]).
  { destruct partition as [|[|[|k]]]; simpl; auto. lia. }
  specialize (C partition Hin). rewrite forallb_forall in C.
  specialize (C sample (in_bytes sample Hs)).
  apply andb_prop in C. destruct C as [C C0].
  apply andb_prop in C. destruct C as [C C24].
  apply Z.ltb_lt in C24. apply Z.leb_le in C0.
  destruct (Z.ltb_spec n 32) as [Hlt|Hge].
  - rewrite forallb_forall in C. apply Bool.eqb_prop.
    apply C. apply in_range. lia.
  - replace (n <? 24) with false by (symmetry; apply Z.ltb_ge; lia). simpl.
    destruct (Z.eq_dec (lookup m_sBitMixingLUT partition sample) 0) as [->|Hnz].
    + apply Z.testbit_0_l.
    + apply Z.bits_above_log2; [lia|].
      assert (Z.log2 (lookup m_sBitMixingLUT partition sample) < 24)
        by (apply Z.log2_lt_pow2; lia).
      lia.
Qed.

Lemma bitMixColor_testbit (color n : Z) :
  0 <= n ->
  Z.testbit (bitMixColor color) n =
  if n <? 24
  then Z.testbit color (23 - (8 * ((23 - n) mod 3) + (23 - n) / 3))
  else false.
Proof.
  intros Hn. unfold bitMixColor. rewrite !Z.lor_spec.
  rewrite !mixing_entry_bits by (try apply land_ff_range; lia).
  destruct (Z.ltb_spec n 24) as [Hlt|Hge]; [|reflexivity].
  cbn [andb].
  assert (Hq : 0 <= (23 - n) / 3 <= 7).
  { split; [apply Z.div_pos; lia|].
    assert ((23 - n) / 3 < 8) by (apply Z.div_lt_upper_bound; lia). lia. }
  assert (Hm : 0 <= (23 - n) mod 3 < 3) by (apply Z.mod_pos_bound; lia).
  set (q := (23 - n) / 3) in *. set (m := (23 - n) mod 3) in *.
  clearbody q m.
  rewrite !Z.land_spec, !Z.shiftr_spec, !testbit_ff by lia.
  replace (7 - q <? 8) with true by (symmetry; apply Z.ltb_lt; lia).
  rewrite !andb_true_r.
  assert (Hcases : m = 0 \/ m = 1 \/ m = 2) by lia.
  destruct Hcases as [E|[E|E]]; rewrite E; simpl Z.eqb; cbn [andb orb];
    rewrite ?orb_false_r; f_equal; lia.
Qed.

(** X2.  The key interleaves the three channels from their top bits down: bit
    [k] of the 24-bit key, counted from the top, is bit [k / 3] of channel
    [k mod 3], both counted from the top, the channels being the three low
    bytes of the colour from the top; the bits of the key above the 24
    are 0, whatever the colour has above its 24. *)
Theorem bitMixColor_interleaves (color n : Z) :
  0 <= n ->
  Z.testbit (bitMixColor color) n =
  if n <? 24
  then Z.testbit color (23 - (8 * ((23 - n) mod 3) + (23 - n) / 3))
  else false.
Proof. exact (bitMixColor_testbit color n). Qed.

Lemma bitMixColor_interleaves_witness :
  Z.testbit (bitMixColor 0x800000) 23 =
  if 23 <? 24
  then Z.testbit 0x800000 (23 - (8 * ((23 - 23) mod 3) + (23 - 23) / 3))
  else false.
Proof. apply (bitMixColor_interleaves 0x800000 23). lia. Defined.

(** Where the bits of an entry of the unmixing tables are. *)
Lemma unmixing_bits_checked :
  forallb (fun partition =>
    forallb (fun sample =>
      forallb (fun n =>
        Bool.eqb (Z.testbit (lookup m_sBitUnmixingLUT partition sample) n)
          ((n <? 24) &&
           ((3 * ((23 - n) mod 8) + (23 - n) / 8) / 8 =? Z.of_nat partition) &&
           Z.testbit sample (7 - (3 * ((23 - n) mod 8) + (23 - n) / 8) mod 8)))
        (range 32) &&
      (lookup m_sBitUnmixingLUT partition sample <? 2 ^ 24) &&
      (0 <=? lookup m_sBitUnmixingLUT partition sample)) bytes)
    [0%nat; 1%nat; 2%nat] = true.
Proof. vm_compute. reflexivity. Qed.

Lemma unmixing_entry_bits (partition : nat) (sample n : Z) :
  (partition < 3)%nat -> 0 <= sample < 256 -> 0 <= n ->
  Z.testbit (lookup m_sBitUnmixingLUT partition sample) n =
  (n <? 24) &&
  ((3 * ((23 - n) mod 8) + (23 - n) / 8) / 8 =? Z.of_nat partition) &&
  Z.testbit sample (7 - (3 * ((23 - n) mod 8) + (23 - n) / 8) mod 8).
Proof.
  intros Hp Hs Hn. pose proof unmixing_bits_checked as C.
  rewrite forallb_forall in C.
  assert (Hin : In partition [0%nat; 1%nat; 2%nat]).
  { destruct partition as [|[|[|k]]]; simpl; auto. lia. }
  specialize (C partition Hin). rewrite forallb_forall in C.
  specialize (C sample (in_bytes sample Hs)).
  apply andb_prop in C. destruct C as [C C0].
  apply andb_prop in C. destruct C as [C C24].
  apply Z.ltb_lt in C24. apply Z.leb_le in C0.
  destruct (Z.ltb_spec n 32) as [Hlt|Hge].
  - rewrite forallb_forall in C. apply Bool.eqb_prop.
    apply C. apply in_range. lia.
  - replace (n <? 24) with false by (symmetry; apply Z.ltb_ge; lia). simpl.
    destruct (Z.eq_dec (lookup m_sBitUnmixingLUT partition sample) 0) as [->|Hnz].
    + apply Z.testbit_0_l.
    + apply Z.bits_above_log2; [lia|].
      assert (Z.log2 (lookup m_sBitUnmixingLUT partition sample) < 24)
        by (apply Z.log2_lt_pow2; lia).
      lia.
Qed.

(** The two ways of numbering the 24 bits, by channel and by rank in the
    key, are inverse to each other. *)
Lemma renumbering_checked :
  forallb (fun j =>
    let k := 3 * (j mod 8) + j / 8 in
    let i := 8 * (j mod 3) + j / 3 in
    (0 <=? k) && (k <? 24) && (8 * (k mod 3) + k / 3 =? j) &&
    (0 <=? i) && (i <? 24) && (3 * (i mod 8) + i / 8 =? j) &&
    (k / 8 <? 3) && (0 <=? k / 8))
    (range 24) = true.
Proof. vm_compute. reflexivity. Qed.

Lemma renumbering (j : Z) :
  0 <= j < 24 ->
  let k := 3 * (j mod 8) + j / 8 in
  let i := 8 * (j mod 3) + j / 3 in
  0 <= k < 24 /\ 8 * (k mod 3) + k / 3 = j /\
  0 <= i < 24 /\ 3 * (i mod 8) + i / 8 = j /\ 0 <= k / 8 < 3.
Proof.
  intros Hj. pose proof renumbering_checked as C. rewrite forallb_forall in C.
  specialize (C j (proj2 (in_range 24 j) Hj)). cbv zeta in C |- *.
  repeat (apply andb_prop in C; destruct C as [C ?]).
  repeat match goal with
         | H : (_ <=? _) = true |- _ => apply Z.leb_le in H
         | H : (_ <? _) = true |- _ => apply Z.ltb_lt in H
         | H : (_ =? _) = true |- _ => apply Z.eqb_eq in H
         end.
  repeat split; first [assumption|lia].
Qed.

Lemma bitUnmixColor_testbit (mixed n : Z) :
  0 <= n ->
  Z.testbit (bitUnmixColor mixed) n =
  if n <? 24
  then Z.testbit mixed (23 - (3 * ((23 - n) mod 8) + (23 - n) / 8))
  else false.
Proof.
  intros Hn. unfold bitUnmixColor. rewrite !Z.lor_spec.
  rewrite !unmixing_entry_bits by (try apply land_ff_range; lia).
  destruct (Z.ltb_spec n 24) as [Hlt|Hge]; [|reflexivity].
  cbn [andb].
  destruct (renumbering (23 - n) ltac:(lia)) as (Hk & _ & _ & _ & Hp).
  cbv zeta in Hk, Hp.
  set (k := 3 * ((23 - n) mod 8) + (23 - n) / 8) in *.
  assert (Hd : k = 8 * (k / 8) + k mod 8) by (apply Z.div_mod; lia).
  assert (Hm : 0 <= k mod 8 < 8) by (apply Z.mod_pos_bound; lia).
  set (p := k / 8) in *. set (b := k mod 8) in *. clearbody k p b.
  rewrite !Z.land_spec, !Z.shiftr_spec, !testbit_ff by lia.
  replace (7 - b <? 8) with true by (symmetry; apply Z.ltb_lt; lia).
  rewrite !andb_true_r.
  assert (Hcases : p = 0 \/ p = 1 \/ p = 2) by lia.
  destruct Hcases as [E|[E|E]]; rewrite E; simpl Z.eqb; cbn [andb orb];
    rewrite ?orb_false_r; f_equal; lia.
Qed.

(** X3.  The inverse transform puts bit [k] of the key, counted from the top,
    at bit [k / 3] of channel [k mod 3]: bit [j] of the colour, counted
    from the top of its 24, is bit [3 * (j mod 8) + j / 8] of the key. *)
Theorem bitUnmixColor_deinterleaves (mixed n : Z) :
  0 <= n ->
  Z.testbit (bitUnmixColor mixed) n =
  if n <? 24
  then Z.testbit mixed (23 - (3 * ((23 - n) mod 8) + (23 - n) / 8))
  else false.
Proof. exact (bitUnmixColor_testbit mixed n). Qed.

Lemma bitUnmixColor_deinterleaves_witness :
  Z.testbit (bitUnmixColor 0x400000) 15 =
  if 15 <? 24
  then Z.testbit 0x400000 (23 - (3 * ((23 - 15) mod 8) + (23 - 15) / 8))
  else false.
Proof. apply (bitUnmixColor_deinterleaves 0x400000 15). lia. Defined.

Lemma testbit_low24 (c n : Z) :
  0 <= n -> Z.testbit (Z.land c 0xffffff) n = if n <? 24 then Z.testbit c n else false.
Proof.
  intros Hn. change 0xffffff with (Z.ones 24). rewrite Z.land_spec.
  destruct (Z.ltb_spec n 24).
  - rewrite Z.ones_spec_low by lia. apply andb_true_r.
  - rewrite Z.ones_spec_high by lia. apply andb_false_r.
Qed.

Lemma unmix_mix_low24 (v : Z) : bitUnmixColor (bitMixColor v) = Z.land v 0xffffff.
Proof.
  apply Z.bits_inj'. intros n Hn.
  rewrite bitUnmixColor_testbit, testbit_low24 by lia.
  destruct (Z.ltb_spec n 24) as [Hlt|Hge]; [|reflexivity].
  destruct (renumbering (23 - n) ltac:(lia)) as (Hk & Hinv & _). cbv zeta in Hk, Hinv.
  set (k := 3 * ((23 - n) mod 8) + (23 - n) / 8) in *.
  rewrite bitMixColor_testbit by lia.
  replace (23 - k <? 24) with true by (symmetry; apply Z.ltb_lt; lia).
  replace (23 - (23 - k)) with k by lia. rewrite Hinv. f_equal. lia.
Qed.

Lemma mix_unmix_low24 (v : Z) : bitMixColor (bitUnmixColor v) = Z.land v 0xffffff.
Proof.
  apply Z.bits_inj'. intros n Hn.
  rewrite bitMixColor_testbit, testbit_low24 by lia.
  destruct (Z.ltb_spec n 24) as [Hlt|Hge]; [|reflexivity].
  destruct (renumbering (23 - n) ltac:(lia)) as (_ & _ & Hi & Hinv & _).
  cbv zeta in Hi, Hinv.
  set (i := 8 * ((23 - n) mod 3) + (23 - n) / 3) in *.
  rewrite bitUnmixColor_testbit by lia.
  replace (23 - i <? 24) with true by (symmetry; apply Z.ltb_lt; lia).
  replace (23 - (23 - i)) with i by lia. rewrite Hinv. f_equal. lia.
Qed.

Lemma mix_of_low24 (w : Z) : bitMixColor (Z.land w 0xffffff) = bitMixColor w.
Proof.
  apply Z.bits_inj'. intros n Hn. rewrite !bitMixColor_testbit by lia.
  destruct (Z.ltb_spec n 24) as [Hlt|Hge]; [|reflexivity].
  destruct (renumbering (23 - n) ltac:(lia)) as (_ & _ & Hi & _). cbv zeta in Hi.
  rewrite testbit_low24 by lia.
  match goal with |- (if ?c then _ else _) = _ =>
    replace c with true by (symmetry; apply Z.ltb_lt; lia) end.
  reflexivity.
Qed.

(** X4.  On every word the inverse transform of the key gives the low 24 bits
    of the word back, and the key of the inverse transform the low 24
    bits of the key: the two transforms are inverse bijections of the
    24-bit values, and the top byte of a pixel in [Format_RGB32] plays no
    part. *)
Theorem bitMix_bitUnmix_inverse (w : Z) :
  bitUnmixColor (bitMixColor w) = Z.land w 0xffffff /\
  bitMixColor (bitUnmixColor w) = Z.land w 0xffffff /\
  bitMixColor (Z.land w 0xffffff) = bitMixColor w /\
  0 <= bitMixColor w < 2 ^ 24.
Proof.
  split; [exact (unmix_mix_low24 w)|]. split; [exact (mix_unmix_low24 w)|].
  split; [exact (mix_of_low24 w)|].
  assert (E : bitMixColor w = Z.land (bitMixColor w) 0xffffff).
  { rewrite <- (mix_unmix_low24 (bitMixColor w)), unmix_mix_low24, mix_of_low24.
    reflexivity. }
  rewrite E. change 0xffffff with (Z.ones 24). rewrite Z.land_ones by lia.
  apply Z.mod_pos_bound. reflexivity.
Qed.

End BitMixingTables.

(** ** More on taking the colour *)

Section TakeColorMore.
Import Zones ColorPickupInteraction ColorPickupSpec.

(** X5.  [QRect::moveCenter] keeps the size of a rectangle, and the rectangle
    grabbed around the pointer spans 7 pixels to each side of it, so that
    the pixel under the pointer is the pixel (7, 7) of the grab, which the
    circular mask always lets through. *)
Theorem targetBoundingRect_centered (mx my : Z) :
  (forall r px py,
     rect_width (moveCenter r px py) = rect_width r /\
     rect_height (moveCenter r px py) = rect_height r) /\
  x1 (targetBoundingRect mx my) = mx - 7 /\ x2 (targetBoundingRect mx my) = mx + 7 /\
  y1 (targetBoundingRect mx my) = my - 7 /\ y2 (targetBoundingRect mx my) = my + 7 /\
  In (mx - x1 (targetBoundingRect mx my), my - y1 (targetBoundingRect mx my))
     (sampled_positions (rect_width (targetBoundingRect mx my))
                        (rect_height (targetBoundingRect mx my))).
Proof.
  split.
  { intros r px py. unfold rect_width, rect_height, moveCenter. simpl. lia. }
  assert (E : targetBoundingRect mx my =
              {| x1 := mx - 7; y1 := my - 7; x2 := mx - 7 + 14; y2 := my - 7 + 14 |})
    by reflexivity.
  rewrite E. unfold rect_width, rect_height. cbn [x1 x2 y1 y2].
  repeat split; try lia.
  replace (mx - (mx - 7)) with 7 by lia. replace (my - (my - 7)) with 7 by lia.
  replace (mx - 7 + 14 - (mx - 7) + 1) with 15 by lia.
  replace (my - 7 + 14 - (my - 7) + 1) with 15 by lia.
  apply center_sampled.
Qed.

Lemma odd_quot (w : Z) : 0 < w -> Z.odd w = true -> w = 2 * Z.quot w 2 + 1.
Proof.
  intros Hw Ho. rewrite Z.quot_div_nonneg by lia.
  rewrite (Z.div_mod w 2) at 1 by lia.
  rewrite Zmod_odd, Ho. reflexivity.
Qed.

(** X6.  The comment on the grab rectangle says that odd width and height are
    needed for symmetry: with both odd the set of sampled pixels is its
    own mirror image left to right and top to bottom; with width and
    height 2 it is not. *)
Theorem sampled_positions_symmetric (width height x y : Z) :
  Z.odd width = true -> Z.odd height = true ->
  (In (x, y) (sampled_positions width height) <->
   In (width - 1 - x, y) (sampled_positions width height)) /\
  (In (x, y) (sampled_positions width height) <->
   In (x, height - 1 - y) (sampled_positions width height)) /\
  In (1, 0) (sampled_positions 2 2) /\ ~ In (2 - 1 - 1, 0) (sampled_positions 2 2).
Proof.
  intros Hw Hh. rewrite !in_sampled_positions.
  split; [|split; [|split]].
  - destruct (Z.lt_ge_cases 0 width) as [Hp|Hn]; [|split; intros; lia].
    pose proof (odd_quot width Hp Hw) as E. set (k := Z.quot width 2) in *.
    clearbody k.
    replace ((width - 1 - x - k) * (width - 1 - x - k)) with ((x - k) * (x - k)) by nia.
    split; intros (A & B & C); repeat split; try lia; exact C.
  - destruct (Z.lt_ge_cases 0 height) as [Hp|Hn]; [|split; intros; lia].
    pose proof (odd_quot height Hp Hh) as E. set (k := Z.quot height 2) in *.
    clearbody k.
    replace ((height - 1 - y - k) * (height - 1 - y - k)) with ((y - k) * (y - k)) by nia.
    split; intros (A & B & C); repeat split; try lia; exact C.
  - simpl. lia.
  - simpl. lia.
Qed.

Lemma sampled_positions_symmetric_witness :
  In (3, 4) (sampled_positions 15 15) <-> In (15 - 1 - 3, 4) (sampled_positions 15 15).
Proof.
  exact (proj1 (sampled_positions_symmetric 15 15 3 4 eq_refl eq_refl)).
Defined.

Lemma nth_element_in (l : list Z) (n : nat) :
  (n < List.length l)%nat -> In (nth_element l n) l.
Proof. intros H. exact (proj1 (nth_element_rank l n H)). Qed.

Lemma keys_nonempty (image : QImage) :
  bitmixed_colors image 15 15 <> [].
Proof.
  unfold bitmixed_colors. pose proof center_sampled as C.
  destruct (sampled_positions 15 15); [destruct C|discriminate].
Qed.

Lemma median_key_sampled (image : QImage) :
  exists x y,
    In (x, y) (sampled_positions 15 15) /\
    nth_element (bitmixed_colors image 15 15)
      (Nat.div (List.length (bitmixed_colors image 15 15)) 2)
    = bitMixColor (pixel image x y).
Proof.
  pose proof (keys_nonempty image) as Hne.
  assert (Hin : In (nth_element (bitmixed_colors image 15 15)
                      (Nat.div (List.length (bitmixed_colors image 15 15)) 2))
                   (bitmixed_colors image 15 15)).
  { apply nth_element_in. apply Nat.div_lt; [|repeat constructor].
    destruct (bitmixed_colors image 15 15); [congruence|simpl; lia]. }
  unfold bitmixed_colors in Hin at 3. apply in_map_iff in Hin.
  destruct Hin as [[x y] [E Hp]]. exists x, y. split; [exact Hp|].
  symmetry. exact E.
Qed.

(** What a pick on a captured image does to the state. *)
Lemma takeColor_captured (mx my : Z) (image : QImage) (st : State) :
  let keys := bitmixed_colors image 15 15 in
  let color := QColor_rgb (bitUnmixColor (nth_element keys (Nat.div (List.length keys) 2))) in
  takeColor mx my (Some image) st =
  {| m_dontDrawCircle := m_dontDrawCircle st;
     m_ptrFillColorProp := color;
     defaultProperties := locateOrCreate_setColor (defaultProperties st) color;
     commits := S (commits st) |}.
Proof.
  intros keys color. unfold takeColor, takeColor_in.
  destruct (targetBoundingRect_size mx my) as [-> ->]. fold keys.
  pose proof (keys_nonempty image) as Hne. fold keys in Hne.
  subst color. destruct keys as [|k ks]; [congruence|].
  f_equal. lia.
Qed.

Lemma takeColor_sampled (mx my : Z) (image : QImage) (st : State) :
  exists x y,
    In (x, y) (sampled_positions 15 15) /\
    m_ptrFillColorProp (takeColor mx my (Some image) st)
    = QColor_rgb (Z.land (pixel image x y) 0xffffff).
Proof.
  rewrite takeColor_captured. cbn [m_ptrFillColorProp].
  destruct (median_key_sampled image) as (x & y & Hp & E).
  exists x, y. split; [exact Hp|].
  rewrite E. f_equal. exact (unmix_mix_low24 (pixel image x y)).
Qed.

(** X7.  A pick on a captured image never invents a colour: the colour written
    is the red, green and blue of one of the sampled pixels.  The same
    colour becomes the fill colour of the default properties, whose other
    properties stay; one commit is made; and the counter that hides the
    circle is back at its value. *)
Theorem takeColor_picks_a_sampled_pixel (mx my : Z) (image : QImage) (st : State) :
  let st' := takeColor mx my (Some image) st in
  (exists x y,
     In (x, y) (sampled_positions 15 15) /\
     m_ptrFillColorProp st' = QColor_rgb (Z.land (pixel image x y) 0xffffff)) /\
  fillColorProperty (defaultProperties st') = Some (m_ptrFillColorProp st') /\
  otherProperties (defaultProperties st') = otherProperties (defaultProperties st) /\
  commits st' = S (commits st) /\
  m_dontDrawCircle st' = m_dontDrawCircle st.
Proof.
  intros st'. split; [exact (takeColor_sampled mx my image st)|].
  subst st'. rewrite takeColor_captured.
  cbn [m_ptrFillColorProp defaultProperties commits m_dontDrawCircle].
  generalize (QColor_rgb (bitUnmixColor
    (nth_element (bitmixed_colors image 15 15)
       (Nat.div (List.length (bitmixed_colors image 15 15)) 2)))).
  intros color. unfold locateOrCreate_setColor. cbn [fillColorProperty otherProperties].
  repeat split.
Qed.

(** X8.  On a capture of one colour the pick is that colour. *)
Theorem takeColor_uniform (mx my c : Z) (image : QImage) (st : State) :
  (forall x y, 0 <= x < 15 -> 0 <= y < 15 -> pixel image x y = c) ->
  m_ptrFillColorProp (takeColor mx my (Some image) st) = QColor_rgb (Z.land c 0xffffff).
Proof.
  intros H.
  destruct (takeColor_sampled mx my image st) as [x [y [Hin E]]].
  rewrite E. apply in_sampled_positions in Hin.
  rewrite (H x y) by lia. reflexivity.
Qed.

Lemma uniform_image_checked :
  forallb (fun y => forallb (fun x =>
    pixel uniform_capture x y =? 0xff336699) (range 15)) (range 15) = true.
Proof. vm_compute. reflexivity. Qed.

Lemma uniform_capture_pixels (x y : Z) :
  0 <= x < 15 -> 0 <= y < 15 -> pixel uniform_capture x y = 0xff336699.
Proof.
  intros Hx Hy. pose proof uniform_image_checked as C.
  rewrite forallb_forall in C. specialize (C y (proj2 (in_range 15 y) Hy)).
  rewrite forallb_forall in C. specialize (C x (proj2 (in_range 15 x) Hx)).
  now apply Z.eqb_eq.
Qed.

Lemma takeColor_uniform_witness :
  m_ptrFillColorProp (takeColor 100 100 (Some uniform_capture) blank_state)
  = QColor_rgb (Z.land 0xff336699 0xffffff).
Proof.
  exact (takeColor_uniform 100 100 0xff336699 uniform_capture blank_state
           uniform_capture_pixels).
Defined.


End TakeColorMore.
(** ** More on the generic raster operations *)

Section RasterMore.
Import RasterOpGeneric RasterOpSpec.

(** X10.  The overloads for one grid compare nothing and never throw: the
    operation is invoked on every pixel, once, row by row; the places
    that hold no pixel keep their values; and, the lines not
    overlapping, every pixel ends with what the operation made of its
    element, the operation of [rasterOpGenericXY] being given the
    coordinates of the pixel.  On a grid of no width or no height
    nothing is invoked. *)
Theorem rasterOpGeneric_one_grid {T : Type} (g : GridAccessor T)
    (op : T -> T) (opxy : T -> Z -> Z -> T) :
  let r := rasterOpGeneric_grid1 g op in
  let rxy := rasterOpGenericXY_grid1 g opxy in
  (exit r = Returned /\ invoked r = pixels (width g) (height g) /\
   same_layout g (final r) /\
   (forall j, outside g j -> data (final r) j = data g j) /\
   (lines_apart g ->
    forall x y, 0 <= x < width g -> 0 <= y < height g ->
      elem (final r) x y = op (elem g x y))) /\
  (exit rxy = Returned /\ invoked rxy = pixels (width g) (height g) /\
   same_layout g (final rxy) /\
   (forall j, outside g j -> data (final rxy) j = data g j) /\
   (lines_apart g ->
    forall x y, 0 <= x < width g -> 0 <= y < height g ->
      elem (final rxy) x y = opxy (elem g x y) x y)) /\
  (width g < 1 \/ height g < 1 -> invoked r = [] /\ invoked rxy = []).
Proof.
  unfold rasterOpGeneric_grid1, rasterOpGenericXY_grid1,
    rasterOpGeneric_ptr1, rasterOpGenericXY_ptr1.
  cbn [wd ht]. rewrite !loop_or_return.
  pose proof (one_buffer_cells (stride g) (width g) (height g) (fun _ _ => op) (data g))
    as C.
  pose proof (one_buffer_cells (stride g) (width g) (height g)
                (fun x y v => opxy v x y) (data g)) as Cxy.
  cbv zeta in C, Cxy.
  match type of C with
  | context [fold_left ?b _ _] =>
    match goal with
    | |- context [with_data1 g (fold_left ?b' _ _)] => change b' with b
    end
  end.
  match type of Cxy with
  | context [fold_left ?b _ _] =>
    match goal with
    | |- context [with_data1 g (fold_left ?b' _ _)] =>
      lazymatch b' with
      | context [opxy] => change b' with b
      end
    end
  end.
  destruct (fold_left _ _ _) as [e cs].
  destruct (fold_left _ _ _) as [exy csxy].
  cbn [fst snd] in C, Cxy.
  destruct C as (Ccs & C1 & Cpix). destruct Cxy as (Cxycs & Cxy1 & Cxypix).
  unfold with_data1, same_layout, outside, lines_apart, elem.
  cbn [exit invoked final fst snd data stride width height].
  split; [|split].
  - repeat split; auto.
  - repeat split; auto.
  - intros H. rewrite Ccs, Cxycs.
    assert (E : pixels (width g) (height g) = []).
    { apply pixels_empty. unfold isEmpty. cbn [wd ht].
      apply orb_true_iff. destruct H; [left|right]; apply Z.ltb_lt; lia. }
    rewrite E. split; reflexivity.
Qed.

Lemma rasterOpGeneric_one_grid_witness :
  elem (final (rasterOpGeneric_grid1 tens_grid (fun v => v + 1))) 1 1 = 22.
Proof.
  destruct (rasterOpGeneric_one_grid tens_grid (fun v => v + 1) (fun v _ _ => v))
    as [(_ & _ & _ & _ & H) _].
  assert (A : lines_apart tens_grid) by (unfold lines_apart; simpl; lia).
  exact (H A 1 1 ltac:(simpl; lia) ltac:(simpl; lia)).
Defined.

(** X11.  The pointer version of [rasterOpGenericXY] for two images gives the
    operation the two elements of every pixel with the coordinates of
    the pixel: the places that hold no pixel keep their values, and, the
    lines of either image not overlapping, every pixel ends with what
    the operation made of its two elements at its coordinates. *)
Theorem rasterOpGenericXY_two_images {T1 T2 : Type} (d1 : Ptr T1) (s1 w h : Z)
    (d2 : Ptr T2) (s2 : Z) (op : T1 -> T2 -> Z -> Z -> T1 * T2) :
  let r := rasterOpGenericXY_ptr2 d1 s1 (mkQSize w h) d2 s2 op in
  snd r = pixels w h /\
  (forall j, (forall x y, 0 <= x < w -> 0 <= y < h -> y * s1 + x <> j) ->
     fst (fst r) j = d1 j) /\
  (forall j, (forall x y, 0 <= x < w -> 0 <= y < h -> y * s2 + x <> j) ->
     snd (fst r) j = d2 j) /\
  (w <= Z.abs s1 -> w <= Z.abs s2 ->
   forall x y, 0 <= x < w -> 0 <= y < h ->
     fst (fst r) (y * s1 + x) = fst (op (d1 (y * s1 + x)) (d2 (y * s2 + x)) x y) /\
     snd (fst r) (y * s2 + x) = snd (op (d1 (y * s1 + x)) (d2 (y * s2 + x)) x y)).
Proof.
  unfold rasterOpGenericXY_ptr2. cbn [wd ht]. rewrite loop_or_return.
  exact (two_buffer_cells s1 s2 w h (fun x y a b => op a b x y) d1 d2).
Qed.

Lemma rasterOpGenericXY_two_images_witness :
  fst (fst (rasterOpGenericXY_ptr2 (fun i => i) 3 (mkQSize 2 2) (fun i => 10 * i) 2
              (fun a b x y => (a + x, b + y)))) (1 * 3 + 1) = 5.
Proof.
  destruct (rasterOpGenericXY_two_images (fun i => i) 3 2 2 (fun i => 10 * i) 2
              (fun a b x y => (a + x, b + y))) as (_ & _ & _ & H).
  exact (proj1 (H ltac:(lia) ltac:(lia) 1 1 ltac:(lia) ltac:(lia))).
Defined.

Lemma testbit_uint32 (word n : Z) :
  0 <= word < 2 ^ 32 -> 32 <= n -> Z.testbit word n = false.
Proof.
  intros Hw Hn. destruct (Z.eq_dec word 0) as [->|Hnz]; [apply Z.bits_0|].
  apply Z.bits_above_log2; [lia|].
  assert (Z.log2 word < 32) by (apply Z.log2_lt_pow2; lia). lia.
Qed.

(** X12.  A [BitProxy] on a 32-bit word: assigning 0 or 1 makes the proxy
    read that bit, leaves the other 31 bits of the word and keeps the
    word within 32 bits, so that assigning the bit just read changes
    nothing; without [NDEBUG] any other value fails the assertion, and
    only such values do. *)
Theorem BitProxy_assign_read (NDEBUG : bool) (word shift b : Z) :
  0 <= word < 2 ^ 32 -> 0 <= shift < 32 ->
  (0 <= b <= 1 ->
   exists word',
     BitProxy_assign NDEBUG word shift b = Some word' /\
     BitProxy_read word' shift = b /\
     0 <= word' < 2 ^ 32 /\
     (forall s, 0 <= s < 32 -> s <> shift ->
        BitProxy_read word' s = BitProxy_read word s) /\
     (b = BitProxy_read word shift -> word' = word)) /\
  (0 <= b -> (BitProxy_assign false word shift b = None <-> 1 < b)).
Proof.
  intros Hw Hs. split.
  - intros Hb.
    destruct (BitProxy_assign_defined NDEBUG word shift b (or_intror Hb)) as [word' E].
    exists word'. split; [exact E|].
    assert (Hbits : forall n, 0 <= n < 32 ->
              Z.testbit word' n = if n =? shift then b =? 1 else Z.testbit word n).
    { intros n Hn. exact (BitProxy_assign_testbit NDEBUG word shift b word' n Hb Hs Hn E). }
    assert (Hhigh : forall n, 32 <= n -> Z.testbit word' n = false).
    { intros n Hn. unfold BitProxy_assign in E.
      destruct (negb NDEBUG && negb (b <=? 1)); [discriminate|].
      injection E as <-.
      rewrite Z.lor_spec, !Z.land_spec.
      change 0xffffffff with (Z.ones 32). rewrite Z.ones_spec_high by lia.
      now rewrite !andb_false_r. }
    assert (Hrange : 0 <= word' < 2 ^ 32).
    { assert (Hnn : 0 <= word').
      { unfold BitProxy_assign in E.
        destruct (negb NDEBUG && negb (b <=? 1)); [discriminate|].
        injection E as <-. apply Z.lor_nonneg. split; apply Z.land_nonneg; lia. }
      split; [exact Hnn|].
      destruct (Z.eq_dec word' 0) as [->|Hnz]; [lia|].
      apply Z.log2_lt_pow2; [lia|].
      destruct (Z.lt_ge_cases (Z.log2 word') 32) as [Hlt|Hge]; [exact Hlt|].
      pose proof (Z.bit_log2 word' ltac:(lia)) as Hbit.
      rewrite (Hhigh _ Hge) in Hbit. discriminate. }
    split; [|split; [exact Hrange|split]].
    + rewrite BitProxy_read_testbit, Hbits, Z.eqb_refl by lia.
      assert (Eb : b = 0 \/ b = 1) by lia. destruct Eb as [-> | ->]; reflexivity.
    + intros s Hs' Hne. rewrite !BitProxy_read_testbit, Hbits by lia.
      destruct (Z.eqb_spec s shift); [contradiction|reflexivity].
    + intros Eb. apply Z.bits_inj'. intros n Hn.
      destruct (Z.lt_ge_cases n 32) as [Hlt|Hge].
      * rewrite Hbits by lia. destruct (Z.eqb_spec n shift) as [->|_]; [|reflexivity].
        rewrite BitProxy_read_testbit in Eb by lia. rewrite Eb.
        destruct (Z.testbit word shift); reflexivity.
      * rewrite Hhigh, testbit_uint32 by assumption. reflexivity.
  - intros Hb. unfold BitProxy_assign. cbn [negb andb].
    destruct (Z.leb_spec b 1) as [Hle|Hgt]; cbn [negb].
    + split; [discriminate|lia].
    + split; [intros _; exact Hgt|reflexivity].
Qed.

Lemma BitProxy_assign_read_witness :
  exists word',
    BitProxy_assign false 0x80000001 31 0 = Some word' /\ BitProxy_read word' 31 = 0.
Proof.
  destruct (BitProxy_assign_read false 0x80000001 31 0) as [H _]; [lia|lia|].
  destruct (H ltac:(lia)) as (word' & E & R & _).
  exists word'. split; [exact E|exact R].
Defined.

Lemma pixels_first (w h : Z) :
  1 <= w -> 1 <= h -> exists rest, pixels w h = (0, 0) :: rest.
Proof.
  intros Hw Hh. unfold pixels, range.
  destruct (Z.to_nat h) as [|m] eqn:Eh; [lia|].
  destruct (Z.to_nat w) as [|k] eqn:Ew; [lia|].
  cbn [seq map flat_map app]. eexists. reflexivity.
Qed.



End RasterMore.
(** ** More on the margins *)

Section MarginsMore.
Import Margins MarginsSpec.

(** X14.  The constructor of [MarginsWithAuto] from four values hands them to
    the constructor of [Margins] in another order than that one takes
    them: of the margins built from (left, top, right, bottom), [left()]
    is the value given for the top, [top()] the one for the bottom,
    [right()] the one for the left and [bottom()] the one for the right.
    The margins are those of [Margins(left, top, right, bottom)] only
    when the four values are equal.  The automatic margins are on from
    the start exactly when the setting says so, with the values just
    built as backup. *)
Theorem MarginsWithAuto_ctor_order (default_auto_margins : bool) (l t r b : Q) :
  let m := MarginsWithAuto_ctor default_auto_margins l t r b in
  left m = t /\ top m = b /\ right m = l /\ bottom m = r /\
  (base m = Margins_ctor l t r b <-> l = t /\ t = b /\ r = l) /\
  isAutoMarginsEnabled m = default_auto_margins /\
  backup m = (if default_auto_margins then Some (base m) else None) /\
  (forall mg, base (MarginsWithAuto_of default_auto_margins mg) = mg).
Proof.
  assert (E : forall x : MarginsWithAuto,
            m_backuppedData x = None ->
            base (setAutoMargins default_auto_margins x) = base x /\
            m_backuppedData (setAutoMargins default_auto_margins x) =
              (if default_auto_margins then Some (base x) else None)).
  { intros [bs bk] Hx. simpl in Hx. subst bk.
    destruct default_auto_margins; split; reflexivity. }
  intros m. subst m. unfold MarginsWithAuto_ctor, MarginsWithAuto_of.
  destruct (E {| base := Margins_ctor t b l r; m_backuppedData := None |} eq_refl)
    as [Eb Ek].
  unfold left, top, right, bottom, backup, isAutoMarginsEnabled.
  rewrite Eb, Ek. cbn [base Margins_ctor m_left m_top m_right m_bottom].
  split; [reflexivity|]. split; [reflexivity|]. split; [reflexivity|].
  split; [reflexivity|]. split; [|split; [|split]].
  - unfold Margins_ctor. split.
    + intros H. injection H as H1 H2 H3 H4. subst. repeat split.
    + intros (-> & -> & ->). reflexivity.
  - destruct default_auto_margins; reflexivity.
  - reflexivity.
  - intros mg. exact (proj1 (E {| base := mg; m_backuppedData := None |} eq_refl)).
Qed.

(** X15.  [setAutoMargins] leaves the automatic margins in the state asked for,
    and asking twice is asking once.  Asking for the state they are in
    changes nothing: switching on again keeps the first backup, with the
    values set since, and switching off when off restores nothing.
    Switching on never changes the four values. *)
Theorem setAutoMargins_state (state : bool) (m : MarginsWithAuto) :
  isAutoMarginsEnabled (setAutoMargins state m) = state /\
  setAutoMargins state (setAutoMargins state m) = setAutoMargins state m /\
  (isAutoMarginsEnabled m = state -> setAutoMargins state m = m) /\
  base (setAutoMargins true m) = base m /\
  (forall l, setAutoMargins true (calls l (setAutoMargins true m)) =
             calls l (setAutoMargins true m)).
Proof.
  assert (Hcalls : forall l x, m_backuppedData (calls l x) = m_backuppedData x).
  { induction l as [|s l IH]; intros x; [reflexivity|].
    unfold calls in *. simpl. rewrite IH. destruct s; reflexivity. }
  destruct m as [bs [saved|]], state; cbn; repeat split; auto; try discriminate;
    intros l; unfold setAutoMargins, isAutoMarginsEnabled; rewrite Hcalls; reflexivity.
Qed.

Lemma MarginsWithAuto_ctor_order_witness :
  base (MarginsWithAuto_ctor false 5 5 5 5) = Margins_ctor 5 5 5 5.
Proof.
  apply (proj2 (proj1 (proj2 (proj2 (proj2 (proj2
           (MarginsWithAuto_ctor_order false 5 5 5 5))))))).
  repeat split.
Defined.

Lemma setAutoMargins_state_witness :
  setAutoMargins false sample_margins = sample_margins.
Proof.
  exact (proj1 (proj2 (proj2 (setAutoMargins_state false sample_margins))) eq_refl).
Defined.

End MarginsMore.

(** ** More on the alignment and its XML element *)

Section AlignmentMore.
Import Alignment.
Local Open Scope string_scope.

Variable number : Q -> string.
Variable toDouble : string -> Q.
Variable DEFAULT_TOLERANCE : Q.

Local Abbreviation roundtrip :=
  (AlignmentSpec.roundtrip number toDouble DEFAULT_TOLERANCE).
Local Abbreviation fromXml := (Alignment.fromXml number toDouble DEFAULT_TOLERANCE).

Lemma roundtrip_tolerance (a : Alignment) (name : string) :
  m_tolerance (roundtrip a name) = toDouble (number (m_tolerance a)).
Proof.
  destruct a as [v h n t am]. unfold AlignmentSpec.roundtrip.
  destruct v, h, n, am; reflexivity.
Qed.


(** X17.  An element that has none of the five attributes is read as the
    alignment to the centre both ways, not null, without automatic
    margins and with the default tolerance as the number format gives it
    back. *)
Theorem fromXml_missing_attributes (el : QDomElement) :
  lookup_attr "vert" (attributes el) = None ->
  lookup_attr "hor" (attributes el) = None ->
  lookup_attr "null" (attributes el) = None ->
  lookup_attr "tolerance" (attributes el) = None ->
  lookup_attr "autoMargins" (attributes el) = None ->
  fromXml el = mkAlignment VCENTER HCENTER false
                 (toDouble (number DEFAULT_TOLERANCE)) false.
Proof.
  intros Hv Hh Hn Ht Ha. unfold Alignment.fromXml, attribute.
  rewrite Hv, Hh, Hn, Ht, Ha. reflexivity.
Qed.

End AlignmentMore.


Lemma fromXml_missing_attributes_witness :
  Alignment.fromXml (fun _ => "0.2"%string) (fun _ => 1 # 5) (1 # 5)
    (Alignment.createElement "alignment")
  = Alignment.mkAlignment Alignment.VCENTER Alignment.HCENTER false (1 # 5) false.
Proof.
  exact (fromXml_missing_attributes (fun _ => "0.2"%string) (fun _ => 1 # 5) (1 # 5)
           (Alignment.createElement "alignment") eq_refl eq_refl eq_refl eq_refl eq_refl).
Defined.
(** ** More on the proximity update *)

Section ProximityUpdateMore.
Import Interaction ZoneDefaultInteraction DefaultInteractionSpec.

Variable to_screen : QPointF -> QPointF.
Variable from_screen : QPointF -> QPointF.
Variable path_contains : EditableSpline -> QPointF -> bool.
Variable Proximity_points : QPointF -> QPointF -> Proximity.
Variable pointAndLineSegment : QPointF -> QLineF -> Proximity * QPointF.

Local Abbreviation scan_vertices := (scan_vertices to_screen Proximity_points).
Local Abbreviation scan_segments := (scan_segments to_screen pointAndLineSegment).
Local Abbreviation scan_zone :=
  (scan_zone to_screen path_contains Proximity_points pointAndLineSegment).
Local Abbreviation onProximityUpdate :=
  (onProximityUpdate to_screen from_screen path_contains Proximity_points pointAndLineSegment).
Local Abbreviation vertex_known :=
  (DefaultInteractionSpec.vertex_known to_screen Proximity_points).
Local Abbreviation segment_known :=
  (DefaultInteractionSpec.segment_known to_screen pointAndLineSegment).

Lemma below_is_no_sentinel (p best : Proximity) :
  Proximity_ltb p best = true -> p <> Proximity_default.
Proof. destruct p; [discriminate|]. intros H. discriminate. Qed.

Local Abbreviation known mouse_pos zones point0 sc :=
  (vertex_known mouse_pos zones (nearest_vertex sc) (nearest_vertex_spline sc)
     (best_vertex_proximity sc) /\
   segment_known mouse_pos zones (nearest_segment sc) (nearest_segment_spline sc)
     (best_segment_proximity sc) (screen_point_on_segment sc) point0).

Lemma fold_left_invariant {A B : Type} (P : A -> Prop) (Q : B -> Prop)
    (f : A -> B -> A) (l : list B) :
  (forall a b, Q b -> P a -> P (f a b)) ->
  (forall b, In b l -> Q b) ->
  forall a, P a -> P (fold_left f l a).
Proof.
  intros Hf. induction l as [|b l IH]; intros Hl a Ha; [exact Ha|].
  cbn [fold_left]. apply IH; [intros c Hc; apply Hl; now right|].
  apply Hf; [apply Hl; now left|exact Ha].
Qed.

Lemma scan_vertices_known (mouse_pos point0 : QPointF) (zones : list Zone) (zi : nat)
    (zone : Zone) (sc : Scan) :
  nth_error zones zi = Some zone ->
  known mouse_pos zones point0 sc ->
  known mouse_pos zones point0 (scan_vertices mouse_pos zi (spline zone) sc).
Proof.
  intros Hz. unfold ZoneDefaultInteraction.scan_vertices.
  apply (fold_left_invariant (fun sc => known mouse_pos zones point0 sc)
           (fun vi => (vi < List.length (spline zone))%nat)).
  - intros sc0 vi Hvi H.
    destruct (Proximity_ltb _ (best_vertex_proximity sc0)) eqn:E; [|exact H].
    destruct H as [_ Hs]. split; [|exact Hs].
    cbn. split; [reflexivity|]. exists zone.
    split; [exact Hz|]. split; [exact Hvi|].
    split; [reflexivity|]. exact (below_is_no_sentinel _ _ E).
  - intros vi H. apply in_seq in H. lia.
Qed.

Lemma scan_segments_known (mouse_pos point0 : QPointF) (zones : list Zone) (zi : nat)
    (zone : Zone) (sc : Scan) :
  nth_error zones zi = Some zone ->
  known mouse_pos zones point0 sc ->
  known mouse_pos zones point0 (scan_segments mouse_pos zi (spline zone) sc).
Proof.
  intros Hz. unfold ZoneDefaultInteraction.scan_segments.
  apply (fold_left_invariant (fun sc => known mouse_pos zones point0 sc)
           (fun seg => In seg (segments (spline zone)))); [|auto].
  intros sc0 seg Hseg H.
  destruct (pointAndLineSegment mouse_pos _) as [proximity point_on_segment] eqn:Ep.
  destruct (Proximity_ltb proximity (best_segment_proximity sc0)) eqn:E; [|exact H].
  destruct H as [Hv _]. split; [exact Hv|].
  cbn. split; [reflexivity|]. exists zone.
  split; [exact Hz|]. split; [exact Hseg|].
  split; [exact Ep|]. exact (below_is_no_sentinel _ _ E).
Qed.

Lemma scan_zone_known (mouse_pos image_mouse_pos point0 : QPointF) (zones : list Zone)
    (zi : nat) (zone : Zone) (sc : Scan) :
  nth_error zones zi = Some zone ->
  known mouse_pos zones point0 sc ->
  known mouse_pos zones point0 (scan_zone mouse_pos image_mouse_pos sc (zi, zone)).
Proof.
  intros Hz H. unfold ZoneDefaultInteraction.scan_zone. cbn [fst snd].
  apply scan_segments_known; [exact Hz|].
  apply scan_vertices_known; [exact Hz|].
  destruct (negb (has_zone_under_mouse sc)); [|exact H].
  destruct (path_contains (spline zone) image_mouse_pos); exact H.
Qed.

Lemma indexed_nth_error {A : Type} (l : list A) (i : nat) (a : A) :
  In (i, a) (indexed l) -> nth_error l i = Some a.
Proof.
  unfold indexed.
  assert (G : forall k, In (i, a) (combine (seq k (List.length l)) l) ->
                (k <= i)%nat /\ nth_error l (i - k) = Some a).
  { induction l as [|x l IH]; intros k H; [destruct H|].
    cbn in H. destruct H as [E|H].
    - injection E as <- <-. rewrite Nat.sub_diag. split; [lia|reflexivity].
    - destruct (IH (S k) H) as [Hk Hn]. split; [lia|].
      replace (i - k)%nat with (S (i - S k)) by lia. exact Hn. }
  intros H. destruct (G 0%nat H) as [_ E]. now rewrite Nat.sub_0_r in E.
Qed.

(** X18.  After a proximity update the handler remembers the pointer position
    it was given, and what it remembers of the nearest vertex and of the
    nearest segment fits the claims it has registered: the vertex is
    null exactly when the vertex claim is at the sentinel distance, and
    is otherwise a vertex of a zone, remembered with the spline of that
    zone, whose proximity is the distance of the claim; the same holds
    of the segment, whose nearest point is remembered with it, the point
    remembered before staying when there is no segment. *)
Theorem proximity_update_remembers (mouse_pos : QPointF) (shiftState : ShiftState)
    (zones : list Zone) (h : Handler) :
  let r := onProximityUpdate mouse_pos shiftState zones h in
  m_screenMousePos (fst r) = mouse_pos /\
  m_dragWatcher_haveSignificantDrag (fst r) = m_dragWatcher_haveSignificantDrag h /\
  exists best_v best_s rest,
    snd r = mkClaim VertexProximity best_v 1 None ::
            mkClaim SegmentProximity best_s 0 None :: rest /\
    vertex_known mouse_pos zones (m_ptrNearestVertex (fst r))
      (m_ptrNearestVertexSpline (fst r)) best_v /\
    segment_known mouse_pos zones (m_nearestSegment (fst r))
      (m_ptrNearestSegmentSpline (fst r)) best_s
      (m_screenPointOnSegment (fst r)) (m_screenPointOnSegment h).
Proof.
  unfold ZoneDefaultInteraction.onProximityUpdate. cbv zeta.
  set (sc := scan_zones _ _ _ _ _ mouse_pos h zones).
  assert (K : known mouse_pos zones (m_screenPointOnSegment h) sc).
  { subst sc. unfold scan_zones.
    assert (G : forall entries sc0,
              (forall i z, In (i, z) entries -> nth_error zones i = Some z) ->
              known mouse_pos zones (m_screenPointOnSegment h) sc0 ->
              known mouse_pos zones (m_screenPointOnSegment h)
                (fold_left (scan_zone mouse_pos (from_screen mouse_pos)) entries sc0)).
    { induction entries as [|[i z] entries IH]; intros sc0 He H0; [exact H0|].
      cbn [fold_left]. apply IH; [intros j y Hj; apply He; now right|].
      apply scan_zone_known; [apply He; now left|exact H0]. }
    apply G; [intros i z; apply indexed_nth_error|].
    cbn. repeat split. }
  cbn [fst snd m_screenMousePos m_dragWatcher_haveSignificantDrag m_ptrNearestVertex
       m_ptrNearestVertexSpline m_nearestSegment m_ptrNearestSegmentSpline
       m_screenPointOnSegment].
  split; [reflexivity|]. split; [reflexivity|].
  exists (best_vertex_proximity sc), (best_segment_proximity sc).
  destruct K as [Kv Ks].
  destruct (has_zone_under_mouse sc); eexists; (split; [reflexivity|split; assumption]).
Qed.

End ProximityUpdateMore.
